(** * jasper: the [backport] chat command (scripts/backport.js)

    A shallow embedding of the handler registered by
    [robot.respond(BACKPORT_REGEX, ...)] and the properties of the
    backport run that the specification states about it.

    Conventions of the embedding.
    - A JavaScript string is a [string]: a sequence of code units below
      256 (Latin-1).  In that range the line terminators are LF and CR,
      the white space of [\s] is TAB, LF, VT, FF, CR, SPACE and NBSP, and
      case folding against an ASCII pattern letter is ASCII case folding.
    - Every collaborator call (GitHub client, nodegit repository, the
      file system, [git apply]) is answered by a [World]: a record of
      functions from the calls made so far and the arguments of the call
      to its result.  A rejected promise is [Fail e], [e] being the
      message of the error.
    - The calls of one promise chain are recorded, in order and with their
      results, in a [Trace]. *)

From Stdlib Require Import String Ascii List Bool Arith Lia DecimalString.
From Stdlib Require DecimalNat DecimalFacts.
Import ListNotations.
Local Open Scope string_scope.
Local Open Scope list_scope.

Set Implicit Arguments.

(** ** Strings *)

Definition LF : string := String (ascii_of_nat 10) EmptyString.

(** [Array.prototype.join] on an array of strings. *)
Definition join (sep : string) (parts : list string) : string :=
  String.concat sep parts.

(** [`${num}`] for a non-negative integer. *)
Definition show_nat (n : nat) : string :=
  NilZero.string_of_uint (Nat.to_uint n).

(** lodash [includes] on an array of strings. *)
Definition includes (xs : list string) (x : string) : bool :=
  existsb (String.eqb x) xs.

Definition snoc_char (s : string) (c : ascii) : string :=
  (s ++ String c EmptyString)%string.

(** ** Regular expressions

    The three literals of the script use only single-character classes,
    the [+] quantifier on such a class, and capturing groups around
    sequences of these. *)

Inductive CharClass : Type :=
| CLit (c : ascii)     (* a literal character *)
| CLitI (c : ascii)    (* a literal ASCII character under the [i] flag *)
| CDot                 (* [.] *)
| CNot (c : ascii)     (* [[^c]] *)
| CDigit.              (* [\d] *)

Inductive Item : Type :=
| One (c : CharClass)
| Plus (c : CharClass).

(** A regex: its consecutive parts, each flagged when it is a capturing
    group. *)
Definition Regex : Type := list (bool * list Item).

Definition is_line_terminator (a : ascii) : bool :=
  let n := nat_of_ascii a in ((n =? 10) || (n =? 13))%nat.

Definition is_digit (a : ascii) : bool :=
  let n := nat_of_ascii a in ((48 <=? n) && (n <=? 57))%nat.

Definition ascii_upper (a : ascii) : ascii :=
  let n := nat_of_ascii a in
  if ((97 <=? n) && (n <=? 122))%nat then ascii_of_nat (n - 32) else a.

Definition is_space (a : ascii) : bool :=
  let n := nat_of_ascii a in
  (((9 <=? n) && (n <=? 13)) || (n =? 32) || (n =? 160))%nat.

Definition cc_test (c : CharClass) (a : ascii) : bool :=
  match c with
  | CLit x => Ascii.eqb x a
  | CLitI x => Ascii.eqb (ascii_upper x) (ascii_upper a)
  | CDot => negb (is_line_terminator a)
  | CNot x => negb (Ascii.eqb x a)
  | CDigit => is_digit a
  end.

(** [c+] at the head of [s], greedy: take one more character of the
    class and try to go on; when that fails, stop here and hand the rest
    to the continuation [k].  [acc] is the text taken so far. *)
Fixpoint plus_from (k : string -> option (list string)) (c : CharClass)
         (s acc : string) {struct s} : option (list string) :=
  match s with
  | EmptyString => None
  | String a s' =>
      if cc_test c a
      then match plus_from k c s' (snoc_char acc a) with
           | Some r => Some r
           | None => option_map (cons (snoc_char acc a)) (k s')
           end
      else None
  end.

(** Backtracking match of a sequence of items at the head of [s].  The
    result is the text consumed by each item.  With [to_end] the match
    must reach the end of the input ([$]). *)
Fixpoint match_items (to_end : bool) (p : list Item) (s : string)
  : option (list string) :=
  match p with
  | [] =>
      if to_end
      then match s with EmptyString => Some [] | String _ _ => None end
      else Some []
  | One c :: p' =>
      match s with
      | EmptyString => None
      | String a s' =>
          if cc_test c a
          then option_map (cons (String a EmptyString))
                          (match_items to_end p' s')
          else None
      end
  | Plus c :: p' => plus_from (match_items to_end p') c s EmptyString
  end.

Definition items_of (r : Regex) : list Item := concat (map snd r).

(** The captures, from the texts of the items. *)
Fixpoint regroup (r : Regex) (texts : list string) : list string :=
  match r with
  | [] => []
  | (g, items) :: r' =>
      let n := length items in
      (if g then [String.concat EmptyString (firstn n texts)] else [])
        ++ regroup r' (skipn n texts)
  end.

(** [s.match(r)] for a regex written [/^...$/]: the captures, or [None]
    for [null]. *)
Definition regex_match_anchored (r : Regex) (s : string)
  : option (list string) :=
  option_map (regroup r) (match_items true (items_of r) s).

(** [r.test(s)] for an unanchored regex: a match at some position. *)
Fixpoint regex_test (r : Regex) (s : string) : bool :=
  match match_items false (items_of r) s with
  | Some _ => true
  | None =>
      match s with
      | EmptyString => false
      | String _ s' => regex_test r s'
      end
  end.

Definition lits (s : string) : list Item :=
  map (fun a => One (CLit a)) (list_ascii_of_string s).

Definition litsI (s : string) : list Item :=
  map (fun a => One (CLitI a)) (list_ascii_of_string s).

(** [/^https\:\/\/github.com\/([^\/]+\/[^\/]+)\/pull\/(\d+)$/] *)
Definition PR_URL_REGEX : Regex :=
  [ (false, lits "https://github" ++ [One CDot] ++ lits "com/");
    (true,  [Plus (CNot "/"); One (CLit "/"); Plus (CNot "/")]);
    (false, lits "/pull/");
    (true,  [Plus CDigit]) ].

(** [/applied patch to \'.+\' with conflicts/i] *)
Definition CONFLICTS_REGEX : Regex :=
  [ (false, litsI "applied patch to '" ++ [Plus CDot]
              ++ litsI "' with conflicts") ].

(** [const [ _url, repo, number ] = url.match(PR_URL_REGEX)]: [None] when
    the match is [null], where the destructuring throws. *)
Definition PR_URL_REGEX_match (url : string) : option (string * string) :=
  match regex_match_anchored PR_URL_REGEX url with
  | Some [repo; number] => Some (repo, number)
  | _ => None
  end.

Definition CONFLICTS_REGEX_test (message : string) : bool :=
  regex_test CONFLICTS_REGEX message.

(** *** What [PR_URL_REGEX] accepts, written out *)

Fixpoint all_chars (f : ascii -> bool) (s : string) : bool :=
  match s with
  | EmptyString => true
  | String a s' => f a && all_chars f s'
  end.

(** The longest prefix of characters satisfying [f], and the rest. *)
Fixpoint span (f : ascii -> bool) (s : string) : string * string :=
  match s with
  | EmptyString => (EmptyString, EmptyString)
  | String a s' =>
      if f a
      then let (run, rest) := span f s' in (String a run, rest)
      else (EmptyString, s)
  end.

(** [Some rest] when [s] is [l] followed by [rest]. *)
Fixpoint strip_prefix (l s : string) : option string :=
  match l with
  | EmptyString => Some s
  | String x l' =>
      match s with
      | EmptyString => None
      | String a s' => if Ascii.eqb x a then strip_prefix l' s' else None
      end
  end.

Definition not_slash (a : ascii) : bool := negb (Ascii.eqb "/" a).

(** [https://github], one character [dot], [com/<owner>/<name>/pull/<num>]. *)
Definition pr_url (dot : ascii) (owner name num : string) : string :=
  ("https://github"
     ++ String dot ("com/" ++ owner ++ "/" ++ name ++ "/pull/" ++ num))%string.

(** The URLs of a pull request [num] of the repository [repo], as the
    regex takes them: the character between [github] and [com] is any
    but a line terminator, owner and name are not empty and hold no
    slash, the number is not empty and holds only digits. *)
Definition pr_url_of (url repo num : string) : Prop :=
  exists dot owner name,
    url = pr_url dot owner name num
    /\ repo = (owner ++ "/" ++ name)%string
    /\ is_line_terminator dot = false
    /\ owner <> EmptyString /\ all_chars not_slash owner = true
    /\ name <> EmptyString /\ all_chars not_slash name = true
    /\ num <> EmptyString /\ all_chars is_digit num = true.

(** The texts of the items of a literal. *)
Definition singles (l : string) : list string :=
  map (fun a => String a EmptyString) (list_ascii_of_string l).

(** [allBranches.split(/\s+/)] *)
Fixpoint split_spaces_aux (s cur : string) (in_sep : bool) : list string :=
  match s with
  | EmptyString => [cur]
  | String a s' =>
      if is_space a
      then if in_sep
           then split_spaces_aux s' EmptyString true
           else cur :: split_spaces_aux s' EmptyString true
      else split_spaces_aux s' (snoc_char cur a) false
  end.

Definition split_spaces (s : string) : list string :=
  split_spaces_aux s EmptyString false.

(** ** Data of the GitHub API used by the script *)

Record Person : Type := mkPerson {
  name : string;
  email : string;
  date : string
}.

(** An element of the array returned by [getCommits]. *)
Record CommitData : Type := mkCommitData {
  sha : string;
  message : string;
  author : Person;
  committer : Person
}.

(** The fields of the result of [getInfo] that the script reads. *)
Record Info : Type := mkInfo {
  base_ref : string;            (* info.base.ref *)
  base_repo_ssh_url : string;   (* info.base.repo.ssh_url *)
  head_ref : string;            (* info.head.ref *)
  merged : bool;                (* info.merged *)
  merged_by_login : string;     (* info.merged_by.login *)
  diff_url : string             (* info.diff_url *)
}.

(** ** The consolidated commit message (lines 59-75) *)

(** The array [msg] of one commit, joined with a newline. *)
Definition commit_block (num : nat) (data : CommitData) : string :=
  join LF
    [ ("[Commit " ++ show_nat num ++ "]")%string;
      (message data ++ LF)%string;
      ("Original sha: " ++ sha data)%string;
      ("Authored by " ++ name (author data) ++ " <" ++ email (author data)
         ++ "> on " ++ date (author data))%string;
      ("Committed by " ++ name (committer data) ++ " <"
         ++ email (committer data) ++ "> on "
         ++ date (committer data))%string ].

(** [commits.map(data => { ...; num++; ... })] with the counter [num] of the
    enclosing scope threaded through. *)
Fixpoint map_commits (num : nat) (commits : list CommitData) : list string :=
  match commits with
  | [] => []
  | data :: rest =>
      let num := S num in
      commit_block num data :: map_commits num rest
  end.

Definition baseCommitMessage (commits : list CommitData) : string :=
  join (LF ++ LF)%string (map_commits 0 commits).

(** [backportBranchName], closed over [number] and [original]. *)
Definition backportBranchName (number original target : string) : string :=
  ("jasper/backport/" ++ number ++ "-" ++ target ++ "-" ++ original)%string.

(** [`Backport PR #${number} to ${target}\n\n${baseCommitMessage}`] *)
Definition commitMessage (number target base : string) : string :=
  ("Backport PR #" ++ number ++ " to " ++ target ++ LF ++ LF ++ base)%string.

(** ** Collaborators

    Results of promises, the values exchanged with the collaborators, and
    the calls the script makes. *)

Definition Err : Type := string.

Inductive Res (A : Type) : Type :=
| Ok (a : A)
| Fail (e : Err).

Arguments Ok {A} a.
Arguments Fail {A} e.

(** Object ids of nodegit (commits, trees). *)
Definition Oid : Type := string.

(** The value returned by [getSignature()]. *)
Record Signature : Type := mkSignature {
  sig_name : string;
  sig_email : string
}.

(** The [params] of [createIssue] (lines 181-190). *)
Record IssueParams : Type := mkIssueParams {
  title : string;
  body : string;
  assignee : string;
  labels : list string
}.

(** The [params] of [createPullRequest] (lines 194-198). *)
Record PullParams : Type := mkPullParams {
  issue : nat;
  head : string;
  base : string
}.

(** Calls of the chain that stages the diff (lines 78-85). *)
Inductive DiffEvent : Type :=
| DRequestGet (url : string) (r : Res string)
| DTmpFile (prefix : string) (r : Res string)
| DWriteFile (path data : string) (r : Res unit).

(** Calls made for one target by the publishing fan-out (lines 178-200). *)
Inductive PubEvent : Type :=
| PCreateIssue (params : IssueParams) (r : Res nat)
| PCreatePullRequest (params : PullParams) (r : Res unit).

(** Calls of the main promise chain, with their results.  [EPublish] is
    the [Promise.all] of lines 176-202: it holds, per target and in target
    order, the calls made for that target; the order in which calls for
    different targets interleave is left open. *)
Inductive Event : Type :=
| EGithubRepo (repo : string)
| EGithubPr (repo number : string)
| EGetInfo (r : Res Info)
| EGetCommits (r : Res (list CommitData))
| EOpenOrClone (dir url : string) (r : Res unit)
| EFetch (remote : string) (r : Res unit)
| EGetReferenceCommit (refname : string) (r : Res Oid)
| ECreateBranch (branch : string) (commit : Oid) (r : Res unit)
| ECheckoutBranch (branch : string) (r : Res unit)
| EApply (path cwd : string) (err : option string)
| EIndex (r : Res unit)
| EAddAll (pathspec : string) (r : Res unit)
| EIndexWrite (r : Res unit)
| EWriteTree (r : Res Oid)
| EGetHeadCommit (r : Res Oid)
| EGetSignature (r : Res Signature)
| ECreateCommit (updateRef : string) (by_author by_committer : Signature)
                (msg : string) (tree : Oid) (parents : list Oid) (r : Res Oid)
| EGetRemote (remote : string) (r : Res unit)
| EPush (refs : list string) (r : Res unit)
| EPublish (per_target : list (list PubEvent))
| ECleanupTmp (path : string).

Definition Trace : Type := list Event.

(** The answers of the collaborators.  Each takes the calls made so far
    on its chain, then the arguments of the call.  [gitApply] answers
    [execFile('git', ['apply', '--3way', path], { cwd }, cb)] with the
    message of the [err] given to the callback, if any.  [createIssue] and
    [createPullRequest] also take the position of the target in the list.
    [repoDirOf repo] is [resolve(__dirname, '..', 'repos', repo)]. *)
Record World : Type := mkWorld {
  repoDirOf : string -> string;
  getInfo : Trace -> Res Info;
  getCommits : Trace -> Res (list CommitData);
  requestGet : list DiffEvent -> string -> Res string;
  tmpFile : list DiffEvent -> string -> Res string;
  writeFile : list DiffEvent -> string -> string -> Res unit;
  openOrClone : Trace -> string -> string -> Res unit;
  fetch : Trace -> string -> Res unit;
  getReferenceCommit : Trace -> string -> Res Oid;
  createBranch : Trace -> string -> Oid -> Res unit;
  checkoutBranch : Trace -> string -> Res unit;
  gitApply : Trace -> string -> string -> option string;
  index : Trace -> Res unit;
  addAll : Trace -> string -> Res unit;
  indexWrite : Trace -> Res unit;
  writeTree : Trace -> Res Oid;
  getHeadCommit : Trace -> Res Oid;
  getSignature : Trace -> Res Signature;
  createCommit : Trace -> string -> Signature -> Signature -> string -> Oid
                 -> list Oid -> Res Oid;
  getRemote : Trace -> string -> Res unit;
  push : Trace -> list string -> Res unit;
  createIssue : Trace -> nat -> IssueParams -> Res nat;
  createPullRequest : Trace -> nat -> PullParams -> Res unit
}.

(** ** The promise chain as a state and error monad

    The state is what the chain has done and the variables of the
    enclosing scope that it assigns: [branchesWithConflicts] (line 108)
    and [cleanupTmp] (line 77, [None] for the initial [() => {}]). *)

Record St : Type := mkSt {
  tr : Trace;
  branchesWithConflicts : list string;
  cleanupTmp : option string
}.

Definition M (A : Type) : Type := St -> St * Res A.

Definition ret {A} (a : A) : M A := fun s => (s, Ok a).

Definition bind {A B} (m : M A) (f : A -> M B) : M B :=
  fun s =>
    match m s with
    | (s', Ok a) => f a s'
    | (s', Fail e) => (s', Fail e)
    end.

Notation "x <- m ;; k" := (bind m (fun x => k))
  (at level 61, m at next level, right associativity).
Notation "m ;;; k" := (bind m (fun _ => k))
  (at level 61, right associativity).

Definition log (e : Event) (s : St) : St :=
  mkSt (tr s ++ [e]) (branchesWithConflicts s) (cleanupTmp s).

(** One collaborator call: ask the world, record the call. *)
Definition call {A} (ask : Trace -> Res A) (ev : Res A -> Event) : M A :=
  fun s => let r := ask (tr s) in (log (ev r) s, r).

(** [Promise.all([a, b])] of two calls: both are made, in order; the
    result is rejected when one is (with the first rejection in array
    order). *)
Definition all2 {A B} (ma : M A) (mb : M B) : M (A * B) :=
  fun s =>
    let (s1, ra) := ma s in
    let (s2, rb) := mb s1 in
    (s2, match ra, rb with
         | Ok a, Ok b => Ok (a, b)
         | Fail e, _ => Fail e
         | Ok _, Fail e => Fail e
         end).

(** A [reduce] that chains one step per element onto a promise. *)
Fixpoint forEach {A} (xs : list A) (f : A -> M unit) : M unit :=
  match xs with
  | [] => ret tt
  | x :: xs' => f x ;;; forEach xs' f
  end.

(** ** The run *)

Section Run.

Variable w : World.

(** [diffFile] (lines 78-85): download the diff, create the temporary
    file, assign [cleanupTmp], write the diff.  The chain is started when
    validation has passed and runs on its own; the result is its calls,
    the value it leaves in [cleanupTmp], and what [diffFile] settles to. *)
Definition diffFile (info : Info)
  : list DiffEvent * option string * Res string :=
  let r1 := requestGet w [] (diff_url info) in
  let t1 := [DRequestGet (diff_url info) r1] in
  match r1 with
  | Fail e => (t1, None, Fail e)
  | Ok diff =>
      let r2 := tmpFile w t1 "jasper-" in
      let t2 := t1 ++ [DTmpFile "jasper-" r2] in
      match r2 with
      | Fail e => (t2, None, Fail e)
      | Ok path =>
          let r3 := writeFile w t2 path diff in
          (t2 ++ [DWriteFile path diff r3], Some path,
           match r3 with Ok _ => Ok path | Fail e => Fail e end)
      end
  end.

Variables (repo number : string) (branches : list string).
Variables (info : Info) (commits : list CommitData).

(** [const original = info.head.ref] and [const repoDir = resolve(...)]. *)
Definition original : string := head_ref info.
Definition repoDir : string := repoDirOf w repo.

(** [.then(() => diffFile)]: from here on the main chain has seen the
    staging chain settle, and with it the assignment to [cleanupTmp]. *)
Definition awaitDiffFile : M string :=
  fun s =>
    let staged := diffFile info in
    (mkSt (tr s) (branchesWithConflicts s) (snd (fst staged)), snd staged).

(** The callback of [execFile] (lines 128-136). *)
Definition applyPatch (target path : string) : M unit :=
  fun s =>
    let err := gitApply w (tr s) path repoDir in
    let s1 := log (EApply path repoDir err) s in
    match err with
    | Some m =>
        if negb (CONFLICTS_REGEX_test m)
        then (s1, Fail m)
        else (mkSt (tr s1) (branchesWithConflicts s1 ++ [target])
                   (cleanupTmp s1), Ok tt)
    | None => (s1, Ok tt)
    end.

(** The body of the first [reduce] (lines 113-159) for one target. *)
Definition backportTarget (target : string) : M unit :=
  let backportBranch := backportBranchName number original target in
  let message := commitMessage number target (baseCommitMessage commits) in
  commit <- call (fun h => getReferenceCommit w h ("origin/" ++ target)%string)
                 (EGetReferenceCommit ("origin/" ++ target)%string) ;;
  call (fun h => createBranch w h backportBranch commit)
       (ECreateBranch backportBranch commit) ;;;
  call (fun h => checkoutBranch w h backportBranch)
       (ECheckoutBranch backportBranch) ;;;
  path <- awaitDiffFile ;;
  applyPatch target path ;;;
  call (index w) EIndex ;;;
  call (fun h => addAll w h ".") (EAddAll ".") ;;;
  call (indexWrite w) EIndexWrite ;;;
  treeOid <- call (writeTree w) EWriteTree ;;
  ps <- all2 (call (getHeadCommit w) EGetHeadCommit)
             (call (getSignature w) EGetSignature) ;;
  let (parent, signature) := ps in
  call (fun h => createCommit w h "HEAD" signature signature message treeOid
                              [parent])
       (ECreateCommit "HEAD" signature signature message treeOid [parent]) ;;;
  ret tt.

(** The refspec pushed for a branch (lines 166-169). *)
Definition refspec (branch : string) : list string :=
  let ref := ("refs/heads/" ++ branch)%string in
  [(ref ++ ":" ++ ref)%string].

(** [createIssue(...).then(issue => createPullRequest(...))] for the target
    at position [i] (lines 178-200); [h] is the main chain so far. *)
Definition publishTarget (h : Trace) (conflicts : list string)
           (i : nat) (target : string) : list PubEvent * Res unit :=
  let backportBranch := backportBranchName number original target in
  let params :=
    mkIssueParams
      ("[backport] PR #" ++ number ++ " to " ++ target)%string
      ("Backport PR #" ++ number ++ " to " ++ target ++ LF ++ LF
         ++ baseCommitMessage commits)%string
      (merged_by_login info)
      ("backport" ::
         if includes conflicts target then ["has conflicts"] else []) in
  let r := createIssue w h i params in
  match r with
  | Fail e => ([PCreateIssue params r], Fail e)
  | Ok issue_number =>
      let params' := mkPullParams issue_number backportBranch target in
      let r' := createPullRequest w h i params' in
      ([PCreateIssue params r; PCreatePullRequest params' r'], r')
  end.

Fixpoint publishFrom (h : Trace) (conflicts : list string)
         (i : nat) (targets : list string) : list (list PubEvent * Res unit) :=
  match targets with
  | [] => []
  | target :: rest =>
      publishTarget h conflicts i target :: publishFrom h conflicts (S i) rest
  end.

(** What a [Promise.all] settles to.  When several promises are rejected
    it is rejected with the one rejected first; the model takes the
    first in array order. *)
Fixpoint firstRejection (rs : list (Res unit)) : Res unit :=
  match rs with
  | [] => Ok tt
  | Ok _ :: rs' => firstRejection rs'
  | Fail e :: _ => Fail e
  end.

(** [Promise.all(branches.map(...))] (lines 176-202): every target is
    published, whatever happens to the others. *)
Definition publishAll : M unit :=
  fun s =>
    let ps := publishFrom (tr s) (branchesWithConflicts s) 0 branches in
    (log (EPublish (map fst ps)) s, firstRejection (map snd ps)).

(** [cleanupTmp()] (line 205). *)
Definition callCleanupTmp : M unit :=
  fun s =>
    match cleanupTmp s with
    | Some path => (log (ECleanupTmp path) s, Ok tt)
    | None => (s, Ok tt)
    end.

(** The second [reduce] (lines 164-172): one push per branch, chained. *)
Definition pushAll : M unit :=
  forEach (map refspec (map (backportBranchName number original) branches))
          (fun refs => call (fun h => push w h refs) (EPush refs)).

(** The chain from [openOrClone] on (lines 111-209); its value is the text
    given to [res.send]. *)
Definition backportAll : M string :=
  call (fun h => openOrClone w h repoDir (base_repo_ssh_url info))
       (EOpenOrClone repoDir (base_repo_ssh_url info)) ;;;
  call (fun h => fetch w h "origin") (EFetch "origin") ;;;
  forEach branches backportTarget ;;;
  call (fun h => getRemote w h "origin") (EGetRemote "origin") ;;;
  pushAll ;;;
  publishAll ;;;
  callCleanupTmp ;;;
  ret ("Backported pull request #" ++ number ++ " to "
         ++ join ", " branches)%string.

End Run.

(** How the handler ends: the destructuring of line 37 throws out of the
    [respond] callback; the [catch] of line 211 emits the error of a
    rejected chain; line 207 sends the report. *)
Inductive Outcome : Type :=
| Threw
| Emitted (e : Err)
| Sent (text : string).

Record Result : Type := mkResult {
  final : St;                 (* main chain and variables at the end *)
  staging : list DiffEvent;   (* calls of the chain behind [diffFile] *)
  outcome : Outcome
}.

(** The calls of the main chain. *)
Definition main (r : Result) : Trace := tr (final r).

Definition initial (t : Trace) : St := mkSt t [] None.

Definition finish (s : St) (d : list DiffEvent) (o : Outcome) : Result :=
  mkResult s d o.

(** The [then] callback of line 46 and the [catch] of line 211. *)
Definition validated (w : World) (repo number : string)
           (branches : list string) (s : St)
           (info : Info) (commits : list CommitData) : Result :=
  let target := base_ref info in
  if includes branches target
  then finish s [] (Emitted "Cannot backport into original PR target branch")
  else if negb (merged info)
  then finish s [] (Emitted "Cannot backport unmerged pull requests")
  else
    let d := fst (fst (diffFile w info)) in
    match backportAll w repo number branches info commits s with
    | (s', Ok text) => finish s' d (Sent text)
    | (s', Fail e) => finish s' d (Emitted e)
    end.

(** The callback given to [robot.respond], on [res.match = [_, url,
    allBranches]]. *)
Definition handler (w : World) (url allBranches : string) : Result :=
  let branches := split_spaces allBranches in
  match PR_URL_REGEX_match url with
  | None => finish (initial []) [] Threw
  | Some (repo, number) =>
      let s0 := initial [EGithubRepo repo; EGithubPr repo number] in
      match all2 (call (getInfo w) EGetInfo)
                 (call (getCommits w) EGetCommits) s0 with
      | (s1, Fail e) => finish s1 [] (Emitted e)
      | (s1, Ok (info, commits)) =>
          validated w repo number branches s1 info commits
      end
  end.

(** ** Reading traces *)

(** A property of every call of a trace, given the calls before it and
    the calls after it. *)
Fixpoint always (Q : Trace -> Event -> Trace -> Prop) (pre t : Trace)
  : Prop :=
  match t with
  | [] => True
  | e :: post => Q pre e post /\ always Q (pre ++ [e]) post
  end.

(** Branches created ([repo.createBranch] fulfilled), in order. *)
Fixpoint created_branches (t : Trace) : list string :=
  match t with
  | [] => []
  | ECreateBranch b _ (Ok _) :: t' => b :: created_branches t'
  | _ :: t' => created_branches t'
  end.

(** What each [git apply] reported, in order. *)
Fixpoint apply_errors (t : Trace) : list (option string) :=
  match t with
  | [] => []
  | EApply _ _ err :: t' => err :: apply_errors t'
  | _ :: t' => apply_errors t'
  end.

(** Messages of the commits created ([repo.createCommit] fulfilled). *)
Fixpoint commit_messages (t : Trace) : list string :=
  match t with
  | [] => []
  | ECreateCommit _ _ _ m _ _ (Ok _) :: t' => m :: commit_messages t'
  | _ :: t' => commit_messages t'
  end.

(** The pushes attempted, with their results. *)
Fixpoint pushes (t : Trace) : list (list string * Res unit) :=
  match t with
  | [] => []
  | EPush refs r :: t' => (refs, r) :: pushes t'
  | _ :: t' => pushes t'
  end.

(** Calls to the [cleanup] of the temporary file. *)
Fixpoint cleanups (t : Trace) : list string :=
  match t with
  | [] => []
  | ECleanupTmp path :: t' => path :: cleanups t'
  | _ :: t' => cleanups t'
  end.

(** The patch went through: no error, or the conflict report. *)
Definition applied (err : option string) : bool :=
  match err with
  | None => true
  | Some m => CONFLICTS_REGEX_test m
  end.

Definition conflicted (err : option string) : bool :=
  match err with
  | None => false
  | Some m => CONFLICTS_REGEX_test m
  end.

(** The targets pushed on [branchesWithConflicts], from the targets and
    what [git apply] reported for each. *)
Fixpoint marks (targets : list string) (errs : list (option string))
  : list string :=
  match targets, errs with
  | t :: targets', err :: errs' =>
      (if conflicted err then [t] else []) ++ marks targets' errs'
  | _, _ => []
  end.

(** ** The shape of a run

    What the main chain can have done, as explicit lists of calls: per
    target, for the list of targets, and from [openOrClone] on. *)

Section Shape.

Variable w : World.
Variables (repo number : string) (branches : list string).
Variables (info : Info) (commits : list CommitData).

Definition branch_of (t : string) : string :=
  backportBranchName number (head_ref info) t.

Definition message_of (t : string) : string :=
  commitMessage number t (baseCommitMessage commits).

(** Created and CheckedOut. *)
Definition checked_out (t : string) (c : Oid) : Trace :=
  [ EGetReferenceCommit ("origin/" ++ t)%string (Ok c);
    ECreateBranch (branch_of t) c (Ok tt);
    ECheckoutBranch (branch_of t) (Ok tt) ].

(** PatchApplied. *)
Definition patched (t : string) (c : Oid) (path : string)
           (err : option string) : Trace :=
  checked_out t c ++ [EApply path (repoDirOf w repo) err].

(** Staged, tree written, parent and signature read. *)
Definition ready (t : string) (c : Oid) (path : string)
           (err : option string) (tree parent : Oid) (sg : Signature)
  : Trace :=
  patched t c path err
    ++ [ EIndex (Ok tt); EAddAll "." (Ok tt); EIndexWrite (Ok tt);
         EWriteTree (Ok tree); EGetHeadCommit (Ok parent);
         EGetSignature (Ok sg) ].

Definition commit_call (t : string) (tree parent : Oid) (sg : Signature)
           (r : Res Oid) : Event :=
  ECreateCommit "HEAD" sg sg (message_of t) tree [parent] r.

(** A target that reached Committed. *)
Inductive target_ok (t : string) : Trace -> Prop :=
| T_committed c path err tree parent sg oid :
    snd (diffFile w info) = Ok path ->
    applied err = true ->
    target_ok t (ready t c path err tree parent sg
                   ++ [commit_call t tree parent sg (Ok oid)]).

(** A target on which the chain was rejected with [e]. *)
Inductive target_fail (t : string) : Trace -> Err -> Prop :=
| F_reference e :
    target_fail t [EGetReferenceCommit ("origin/" ++ t)%string (Fail e)] e
| F_branch c e :
    target_fail t
      [ EGetReferenceCommit ("origin/" ++ t)%string (Ok c);
        ECreateBranch (branch_of t) c (Fail e) ] e
| F_checkout c e :
    target_fail t
      [ EGetReferenceCommit ("origin/" ++ t)%string (Ok c);
        ECreateBranch (branch_of t) c (Ok tt);
        ECheckoutBranch (branch_of t) (Fail e) ] e
| F_diff c e :
    snd (diffFile w info) = Fail e ->
    target_fail t (checked_out t c) e
| F_apply c path m :
    CONFLICTS_REGEX_test m = false ->
    target_fail t (patched t c path (Some m)) m
| F_index c path err e :
    applied err = true ->
    target_fail t (patched t c path err ++ [EIndex (Fail e)]) e
| F_addAll c path err e :
    applied err = true ->
    target_fail t
      (patched t c path err ++ [EIndex (Ok tt); EAddAll "." (Fail e)]) e
| F_write c path err e :
    applied err = true ->
    target_fail t
      (patched t c path err
         ++ [EIndex (Ok tt); EAddAll "." (Ok tt); EIndexWrite (Fail e)]) e
| F_tree c path err e :
    applied err = true ->
    target_fail t
      (patched t c path err
         ++ [ EIndex (Ok tt); EAddAll "." (Ok tt); EIndexWrite (Ok tt);
              EWriteTree (Fail e) ]) e
| F_head c path err tree e rs :
    applied err = true ->
    target_fail t
      (patched t c path err
         ++ [ EIndex (Ok tt); EAddAll "." (Ok tt); EIndexWrite (Ok tt);
              EWriteTree (Ok tree); EGetHeadCommit (Fail e);
              EGetSignature rs ]) e
| F_signature c path err tree parent e :
    applied err = true ->
    target_fail t
      (patched t c path err
         ++ [ EIndex (Ok tt); EAddAll "." (Ok tt); EIndexWrite (Ok tt);
              EWriteTree (Ok tree); EGetHeadCommit (Ok parent);
              EGetSignature (Fail e) ]) e
| F_commit c path err tree parent sg e :
    applied err = true ->
    target_fail t
      (ready t c path err tree parent sg
         ++ [commit_call t tree parent sg (Fail e)]) e.

(** The first [reduce] over a list of targets: all committed ([None]), or
    rejected on one of them. *)
Inductive targets_run : list string -> Trace -> option Err -> Prop :=
| R_done : targets_run [] [] None
| R_next t ts d d' o :
    target_ok t d -> targets_run ts d' o ->
    targets_run (t :: ts) (d ++ d') o
| R_fail t ts d e :
    target_fail t d e -> targets_run (t :: ts) d (Some e).

Definition opened : Trace :=
  [ EOpenOrClone (repoDirOf w repo) (base_repo_ssh_url info) (Ok tt);
    EFetch "origin" (Ok tt) ].

Definition push_ok (t : string) : Event :=
  EPush (refspec (branch_of t)) (Ok tt).

(** Everything up to and including the pushes of the first [k] targets. *)
Definition pushed (d : Trace) (k : nat) : Trace :=
  opened ++ d ++ [EGetRemote "origin" (Ok tt)]
    ++ map push_ok (firstn k branches).

(** The publishing fan-out after the calls [h]. *)
Definition published (h : Trace) : list (list PubEvent * Res unit) :=
  publishFrom w number info commits h (marks branches (apply_errors h))
              0 branches.

(** The chain from [openOrClone] on, started after the calls [h0]. *)
Inductive chain_run (h0 : Trace) : Trace -> Res string -> Prop :=
| C_clone e :
    chain_run h0
      [EOpenOrClone (repoDirOf w repo) (base_repo_ssh_url info) (Fail e)]
      (Fail e)
| C_fetch e :
    chain_run h0
      [ EOpenOrClone (repoDirOf w repo) (base_repo_ssh_url info) (Ok tt);
        EFetch "origin" (Fail e) ]
      (Fail e)
| C_target d e :
    targets_run branches d (Some e) ->
    chain_run h0 (opened ++ d) (Fail e)
| C_remote d e :
    targets_run branches d None ->
    chain_run h0 (opened ++ d ++ [EGetRemote "origin" (Fail e)]) (Fail e)
| C_push d k t e :
    targets_run branches d None ->
    nth_error branches k = Some t ->
    chain_run h0 (pushed d k ++ [EPush (refspec (branch_of t)) (Fail e)])
              (Fail e)
| C_publish d e :
    targets_run branches d None ->
    let h := h0 ++ pushed d (length branches) in
    firstRejection (map snd (published h)) = Fail e ->
    chain_run h0 (pushed d (length branches)
                    ++ [EPublish (map fst (published h))])
              (Fail e)
| C_sent d cl :
    targets_run branches d None ->
    let h := h0 ++ pushed d (length branches) in
    firstRejection (map snd (published h)) = Ok tt ->
    (cl = [] \/ exists path, cl = [ECleanupTmp path]) ->
    (branches <> [] -> cl <> []) ->
    chain_run h0 (pushed d (length branches)
                    ++ [EPublish (map fst (published h))] ++ cl)
              (Ok ("Backported pull request #" ++ number ++ " to "
                     ++ join ", " branches)%string).

End Shape.

(** Calls outside the per-target steps, the pushes and the publishing. *)
Definition plain (e : Event) : bool :=
  match e with
  | EGithubRepo _ | EGithubPr _ _ | EGetInfo _ | EGetCommits _
  | EOpenOrClone _ _ _ | EFetch _ _ | EGetRemote _ _ | ECleanupTmp _ => true
  | _ => false
  end.

(** ** Runs of the handler *)

Definition rejected {A} (r : Res A) : option Err :=
  match r with Ok _ => None | Fail e => Some e end.

(** The calls up to the [then] of line 46, when both fetches succeed. *)
Definition prelude (repo number : string) (info : Info)
           (commits : list CommitData) : Trace :=
  [ EGithubRepo repo; EGithubPr repo number;
    EGetInfo (Ok info); EGetCommits (Ok commits) ].

(** The command names pull request [number] of [repo], and the world
    answers [getInfo] and [getCommits] with [info] and [commits]. *)
Definition fetched (w : World) (url repo number : string) (info : Info)
           (commits : list CommitData) : Prop :=
  PR_URL_REGEX_match url = Some (repo, number)
  /\ getInfo w [EGithubRepo repo; EGithubPr repo number] = Ok info
  /\ getCommits w [EGithubRepo repo; EGithubPr repo number; EGetInfo (Ok info)]
     = Ok commits.

(** How the [catch] of line 211 or line 207 ends a chain. *)
Definition outcome_of (r : Res string) : Outcome :=
  match r with
  | Ok text => Sent text
  | Fail e => Emitted e
  end.

(** The name of the derived branch as the specification words it:
    [backport/<prNumber>-<target>-<headRef>]. *)
Definition spec_derivedBranchName (prNumber target headRef : string)
  : string :=
  ("backport/" ++ prNumber ++ "-" ++ target ++ "-" ++ headRef)%string.

(** The numbered block of one commit, written out. *)
Definition numbered_block (i : nat) (data : CommitData) : string :=
  ("[Commit " ++ show_nat i ++ "]" ++ LF
     ++ message data ++ LF ++ LF
     ++ "Original sha: " ++ sha data ++ LF
     ++ "Authored by " ++ name (author data) ++ " <" ++ email (author data)
     ++ "> on " ++ date (author data) ++ LF
     ++ "Committed by " ++ name (committer data) ++ " <"
     ++ email (committer data) ++ "> on " ++ date (committer data))%string.

(** ** Properties of a call

    Each is a property of a call [e] of the main chain, given the calls
    [p] made before it and the calls [q] made after it. *)

Section Calls.

Variable w : World.
Variables (repo number : string) (branches : list string).
Variables (info : Info) (commits : list CommitData).
Variable result : Outcome.

(** A [git apply] that reported an error [m]: it is the patch of the
    target at the position given by the patches before it, applied on the
    branch just created and checked out for that target; with the
    conflict report the chain goes on to [repo.index()], and with any
    other error nothing follows and [m] is emitted. *)
Definition patch_handled (p : Trace) (e : Event) (q : Trace) : Prop :=
  forall path cwd m,
    e = EApply path cwd (Some m) ->
    exists t c pre',
      nth_error branches (length (apply_errors p)) = Some t
      /\ p = pre' ++ checked_out number info t c
      /\ (CONFLICTS_REGEX_test m = true ->
          exists ri post', q = EIndex ri :: post')
      /\ (CONFLICTS_REGEX_test m = false ->
          q = [] /\ result = Emitted m).

(** What follows a patch that went through: [repo.index()], then, each
    provided the one before succeeded, [index.addAll('.')],
    [index.write()] and [index.writeTree()]. *)
Definition staged_then (q : Trace) : Prop :=
  match q with
  | EIndex (Fail _) :: _ => True
  | EIndex (Ok _) :: EAddAll pathspec (Fail _) :: _ => pathspec = "."
  | EIndex (Ok _) :: EAddAll pathspec (Ok _) :: EIndexWrite (Fail _) :: _ =>
      pathspec = "."
  | EIndex (Ok _) :: EAddAll pathspec (Ok _) :: EIndexWrite (Ok _)
      :: EWriteTree _ :: _ => pathspec = "."
  | _ => False
  end.

Definition patch_staged (p : Trace) (e : Event) (q : Trace) : Prop :=
  forall path cwd err,
    e = EApply path cwd err -> applied err = true -> staged_then q.


Definition pushed_branch (t : string) : list string * Res unit :=
  (refspec (branch_of number info t), Ok tt).


(** The calls made for the target [t] by the publishing: the issue,
    assigned to the merger and labelled, then, when the issue was
    created, the pull request from the derived branch into [t] that names
    the issue. *)
Definition published_target (t : string) (calls : list PubEvent) : Prop :=
  exists params ri then_,
    calls = PCreateIssue params ri :: then_
    /\ title params = ("[backport] PR #" ++ number ++ " to " ++ t)%string
    /\ body params = ("Backport PR #" ++ number ++ " to " ++ t ++ LF ++ LF
                        ++ baseCommitMessage commits)%string
    /\ assignee params = merged_by_login info
    /\ (labels params = ["backport"]
        \/ labels params = ["backport"; "has conflicts"])
    /\ (forall e, ri = Fail e -> then_ = [])
    /\ (forall n, ri = Ok n ->
          exists rp,
            then_ = [PCreatePullRequest
                       (mkPullParams n (branch_of number info t) t) rp]).


(** The issue of a target is labelled ["has conflicts"] exactly when a
    patch for that target reported the conflict. *)
Definition labelled_by_conflict (p : Trace) (e : Event) (q : Trace) : Prop :=
  forall per_target i t params ri then_,
    e = EPublish per_target ->
    nth_error branches i = Some t ->
    nth_error per_target i = Some (PCreateIssue params ri :: then_) ->
    (In "has conflicts" (labels params)
     <-> exists k m,
           nth_error branches k = Some t
           /\ nth_error (apply_errors p) k = Some (Some m)
           /\ CONFLICTS_REGEX_test m = true).

End Calls.

(** ** A sample run

    Pull request 42 of [elastic/kibana], merged by [alice] from
    [feature-x] into [main], with one commit, backported to [release-1.0]
    and [release-2.0].  Every collaborator call succeeds, except that the
    [n]-th [git apply] reports [patch n] and the [n]-th push is answered
    by [pushed_as n]. *)

Definition sample_person : Person := mkPerson "A" "a@x.com" "2020-01-01".

Definition sample_info : Info :=
  mkInfo "main" "git@github.com:elastic/kibana.git" "feature-x" true "alice"
         "https://github.com/elastic/kibana/pull/42.diff".

Definition sample_commits : list CommitData :=
  [mkCommitData "abc123" "Fix bug" sample_person sample_person].

Definition sample_signature : Signature :=
  mkSignature "jasper" "jasper@example.com".

Definition sample_dir : string := "/srv/jasper/repos/elastic/kibana".

Definition conflict_report : string :=
  "Applied patch to 'src/a.js' with conflicts.".

Definition sample_world (patch : nat -> option string)
           (pushed_as : nat -> Res unit) : World :=
  mkWorld
    (fun repo => ("/srv/jasper/repos/" ++ repo)%string)
    (fun _ => Ok sample_info)
    (fun _ => Ok sample_commits)
    (fun _ _ => Ok "diff --git a/x b/x")
    (fun _ _ => Ok "/tmp/jasper-1")
    (fun _ _ _ => Ok tt)
    (fun _ _ _ => Ok tt)
    (fun _ _ => Ok tt)
    (fun _ refname => Ok ("tip of " ++ refname)%string)
    (fun _ _ _ => Ok tt)
    (fun _ _ => Ok tt)
    (fun h _ _ => patch (length (apply_errors h)))
    (fun _ => Ok tt)
    (fun _ _ => Ok tt)
    (fun _ => Ok tt)
    (fun _ => Ok "tree")
    (fun _ => Ok "head")
    (fun _ => Ok sample_signature)
    (fun _ _ _ _ _ _ _ => Ok "commit")
    (fun _ _ => Ok tt)
    (fun h _ => pushed_as (length (pushes h)))
    (fun _ i _ => Ok (100 + i))
    (fun _ _ _ => Ok tt).

Definition sample_url : string := "https://github.com/elastic/kibana/pull/42".
Definition sample_targets : string := "release-1.0 release-2.0".

(** All patches apply cleanly, all pushes succeed. *)
Definition clean_world : World :=
  sample_world (fun _ => None) (fun _ => Ok tt).

(** The patch conflicts on the first target only. *)
Definition conflict_world : World :=
  sample_world
    (fun n => match n with
              | 0 => Some conflict_report
              | _ => None
              end)
    (fun _ => Ok tt).

(** [git apply] fails on a corrupt patch. *)
Definition corrupt_world : World :=
  sample_world (fun _ => Some "error: corrupt patch at line 7")
               (fun _ => Ok tt).


(** The pull request was not merged. *)
Definition unmerged_world : World :=
  mkWorld
    (repoDirOf clean_world)
    (fun _ => Ok (mkInfo "main" "git@github.com:elastic/kibana.git"
                         "feature-x" false ""
                         "https://github.com/elastic/kibana/pull/42.diff"))
    (getCommits clean_world) (requestGet clean_world) (tmpFile clean_world)
    (writeFile clean_world) (openOrClone clean_world) (fetch clean_world)
    (getReferenceCommit clean_world) (createBranch clean_world)
    (checkoutBranch clean_world) (gitApply clean_world) (index clean_world)
    (addAll clean_world) (indexWrite clean_world) (writeTree clean_world)
    (getHeadCommit clean_world) (getSignature clean_world)
    (createCommit clean_world) (getRemote clean_world) (push clean_world)
    (createIssue clean_world) (createPullRequest clean_world).

Definition clean_run : Result := handler clean_world sample_url sample_targets.
Definition conflict_run : Result :=
  handler conflict_world sample_url sample_targets.
Definition corrupt_run : Result :=
  handler corrupt_world sample_url sample_targets.

(** ** Further readings of strings and traces *)

(** A string under ASCII case folding. *)
Fixpoint upper (s : string) : string :=
  match s with
  | EmptyString => EmptyString
  | String a s' => String (ascii_upper a) (upper s')
  end.

(** No white space of [\s] in the string. *)
Definition no_space (s : string) : bool :=
  all_chars (fun a => negb (is_space a)) s.

(** No line terminator in the string: what [.+] can take. *)
Definition one_line (s : string) : bool :=
  all_chars (fun a => negb (is_line_terminator a)) s.

(** The characters of a string that are not white space. *)
Fixpoint strip_spaces (s : string) : string :=
  match s with
  | EmptyString => EmptyString
  | String a s' =>
      if is_space a then strip_spaces s' else String a (strip_spaces s')
  end.

(** The publishing fan-outs of a trace. *)
Fixpoint publishings (t : Trace) : list (list (list PubEvent)) :=
  match t with
  | [] => []
  | EPublish per_target :: t' => per_target :: publishings t'
  | _ :: t' => publishings t'
  end.

(** The error of a rejected [createIssue] or [createPullRequest]. *)
Definition pub_error (e : PubEvent) : option Err :=
  match e with
  | PCreateIssue _ r => rejected r
  | PCreatePullRequest _ r => rejected r
  end.

Definition fulfilled (e : PubEvent) : bool :=
  match pub_error e with
  | None => true
  | Some _ => false
  end.

(** Every call of a publishing was fulfilled. *)
Definition all_fulfilled (per_target : list (list PubEvent)) : bool :=
  forallb (forallb fulfilled) per_target.

(** The [body] and [title] given to [createIssue] for one target. *)
Definition issue_body (calls : list PubEvent) : string :=
  match calls with
  | PCreateIssue params _ :: _ => body params
  | _ => EmptyString
  end.

Definition issue_title (calls : list PubEvent) : string :=
  match calls with
  | PCreateIssue params _ :: _ => title params
  | _ => EmptyString
  end.

(** The calls of a target whose publishing went through: the issue was
    created with some number [n], then the pull request from the derived
    branch into the target that names [n]. *)
Definition issue_then_pull (number : string) (info : Info) (t : string)
           (calls : list PubEvent) : Prop :=
  exists params n,
    calls = [ PCreateIssue params (Ok n);
              PCreatePullRequest (mkPullParams n (branch_of number info t) t)
                                 (Ok tt) ].

(** Nothing was patched, committed, pushed, published or cleaned up. *)
Definition quiet (t : Trace) : Prop :=
  apply_errors t = [] /\ commit_messages t = [] /\ pushes t = []
  /\ publishings t = [] /\ cleanups t = [].

(** A call that uses the temporary file as the chain behind [diffFile]
    left it: [git apply] is given the path [diffFile] settled to, and
    runs in the clone of the repository; [cleanup] is the one of the file
    that [tmpFile] created. *)
Definition uses_staged (w : World) (repo : string) (info : Info) (e : Event)
  : Prop :=
  match e with
  | EApply path cwd _ =>
      snd (diffFile w info) = Ok path /\ cwd = repoDirOf w repo
  | ECleanupTmp path => snd (fst (diffFile w info)) = Some path
  | _ => True
  end.

(** The state of a chain whose calls all use the staged file, and whose
    [cleanupTmp] is the initial no-op or the [cleanup] of that file. *)
Definition staged_state (w : World) (repo : string) (info : Info) (s : St)
  : Prop :=
  Forall (uses_staged w repo info) (tr s)
  /\ (cleanupTmp s = None \/ cleanupTmp s = snd (fst (diffFile w info))).

(** A [repo.getHeadCommit()] (lines 146-149): [getSignature()] is called
    right after it, whatever it answers; when both are fulfilled
    [repo.createCommit] follows, on [HEAD], with that parent and that
    signature; when one is rejected nothing follows and the error of a
    rejected one is emitted. *)
Definition head_and_signature (result : Outcome)
           (p : Trace) (e : Event) (q : Trace) : Prop :=
  forall r,
    e = EGetHeadCommit r ->
    exists rs q',
      q = EGetSignature rs :: q'
      /\ match r, rs with
         | Ok parent, Ok sg =>
             exists msg tree rc q'',
               q' = ECreateCommit "HEAD" sg sg msg tree [parent] rc :: q''
         | _, _ =>
             q' = []
             /\ exists err,
                  result = Emitted err
                  /\ (rejected r = Some err \/ rejected rs = Some err)
         end.

(** [m] keeps the invariant [J] of the state, whether it is fulfilled or
    rejected, and a value it is fulfilled with satisfies [P]. *)
Definition preserves (J : St -> Prop) (A : Type) (m : M A) (P : A -> Prop)
  : Prop :=
  forall s, J s -> J (fst (m s)) /\ forall a, snd (m s) = Ok a -> P a.

Definition any (A : Type) (a : A) : Prop := True.

(** *** More sample worlds *)

(** [w] with other answers of [getCommits], [requestGet] and
    [createPullRequest]. *)
Definition sample_variant (w : World)
           (commits_as : Trace -> Res (list CommitData))
           (diff_as : list DiffEvent -> string -> Res string)
           (pull_as : Trace -> nat -> PullParams -> Res unit) : World :=
  mkWorld
    (repoDirOf w) (getInfo w) commits_as diff_as (tmpFile w) (writeFile w)
    (openOrClone w) (fetch w) (getReferenceCommit w) (createBranch w)
    (checkoutBranch w) (gitApply w) (index w) (addAll w) (indexWrite w)
    (writeTree w) (getHeadCommit w) (getSignature w) (createCommit w)
    (getRemote w) (push w) (createIssue w) pull_as.

(** GitHub refuses the list of commits. *)
Definition forbidden_world : World :=
  sample_variant clean_world (fun _ => Fail "403 Forbidden")
                 (requestGet clean_world) (createPullRequest clean_world).

(** The download of the diff fails. *)
Definition offline_world : World :=
  sample_variant clean_world (getCommits clean_world)
                 (fun _ _ => Fail "ETIMEDOUT")
                 (createPullRequest clean_world).

(** GitHub refuses the pull request of the second target. *)
Definition unpublished_world : World :=
  sample_variant clean_world (getCommits clean_world) (requestGet clean_world)
                 (fun _ i _ => match i with
                               | 1 => Fail "422 Unprocessable"
                               | _ => Ok tt
                               end).

Definition forbidden_run : Result :=
  handler forbidden_world sample_url sample_targets.
Definition offline_run : Result :=
  handler offline_world sample_url sample_targets.
Definition unpublished_run : Result :=
  handler unpublished_world sample_url sample_targets.

(** ** What follows a patch *)

Definition is_ok (A : Type) (r : Res A) : bool :=
  match r with
  | Ok _ => true
  | Fail _ => false
  end.

(** A call that went through: it was fulfilled; for [git apply], it
    reported no error or the conflict report; for the publishing, every
    call of it was fulfilled. *)
Definition went_through (e : Event) : bool :=
  match e with
  | EGithubRepo _ | EGithubPr _ _ | ECleanupTmp _ => true
  | EGetInfo r => is_ok r
  | EGetCommits r => is_ok r
  | EOpenOrClone _ _ r => is_ok r
  | EFetch _ r => is_ok r
  | EGetReferenceCommit _ r => is_ok r
  | ECreateBranch _ _ r => is_ok r
  | ECheckoutBranch _ r => is_ok r
  | EApply _ _ err => applied err
  | EIndex r => is_ok r
  | EAddAll _ r => is_ok r
  | EIndexWrite r => is_ok r
  | EWriteTree r => is_ok r
  | EGetHeadCommit r => is_ok r
  | EGetSignature r => is_ok r
  | ECreateCommit _ _ _ _ _ _ r => is_ok r
  | EGetRemote _ r => is_ok r
  | EPush _ r => is_ok r
  | EPublish per_target => all_fulfilled per_target
  end.

(** The calls made after the [k]-th [git apply] of a trace (from 0). *)
Fixpoint after_apply (k : nat) (t : Trace) : option Trace :=
  match t with
  | [] => None
  | EApply _ _ _ :: t' =>
      match k with
      | 0 => Some t'
      | S k' => after_apply k' t'
      end
  | _ :: t' => after_apply k t'
  end.

(** The calls [q] made after the patch of target [t] went through, up
    to its commit: [repo.index()], [index.addAll('.')], [index.write()],
    [index.writeTree()], then [repo.getHeadCommit()] with
    [getSignature()], then [repo.createCommit] on [HEAD] with the tree
    just written, the head commit and the signature just read, and the
    message of [t]; each provided the one before was fulfilled. *)
Definition proceeds_to_commit (number : string) (commits : list CommitData)
           (t : string) (q : Trace) : Prop :=
  match q with
  | EIndex (Fail _) :: _ => True
  | EIndex (Ok _) :: EAddAll pathspec (Fail _) :: _ => pathspec = "."
  | EIndex (Ok _) :: EAddAll pathspec (Ok _) :: EIndexWrite (Fail _) :: _ =>
      pathspec = "."
  | EIndex (Ok _) :: EAddAll pathspec (Ok _) :: EIndexWrite (Ok _)
      :: EWriteTree (Fail _) :: _ => pathspec = "."
  | EIndex (Ok _) :: EAddAll pathspec (Ok _) :: EIndexWrite (Ok _)
      :: EWriteTree (Ok tree) :: EGetHeadCommit rh :: EGetSignature rs :: q' =>
      pathspec = "."
      /\ match rh, rs with
         | Ok parent, Ok sg =>
             exists rc q'',
               q' = ECreateCommit "HEAD" sg sg (message_of number commits t)
                                  tree [parent] rc :: q''
         | _, _ => True
         end
  | _ => False
  end.

(** A patch that went through is that of the target at the position
    given by the patches before it, and the chain proceeds to the commit
    of that target. *)
Definition patch_proceeds (number : string) (branches : list string)
           (commits : list CommitData) (p : Trace) (e : Event) (q : Trace)
  : Prop :=
  forall path cwd err,
    e = EApply path cwd err -> applied err = true ->
    exists t,
      nth_error branches (length (apply_errors p)) = Some t
      /\ proceeds_to_commit number commits t q.

(** ** The words of the specification *)

(** The URL of a pull request as the specification writes the pattern:
    [https://github.com/<owner>/<repo>/pull/<number>]. *)
Definition spec_pr_url (owner repo number : string) : string :=
  ("https://github.com/" ++ owner ++ "/" ++ repo ++ "/pull/"
     ++ number)%string.

(** The value of a decimal digit. *)
Definition digit_value (a : ascii) : option nat :=
  let n := nat_of_ascii a in
  if ((48 <=? n) && (n <=? 57))%nat then Some (n - 48) else None.

(** The value of a string of decimal digits read after the value [acc]. *)
Fixpoint decimal_value_from (acc : nat) (s : string) : option nat :=
  match s with
  | EmptyString => Some acc
  | String a s' =>
      match digit_value a with
      | Some d => decimal_value_from (10 * acc + d) s'
      | None => None
      end
  end.

(** [s] is the decimal numeral of [n]: one digit or more, no leading
    zero but in ["0"] itself, of value [n]. *)
Definition numeral_of (n : nat) (s : string) : bool :=
  match s with
  | EmptyString => false
  | String a s' =>
      (negb (Ascii.eqb a "0")
       || match s' with EmptyString => true | String _ _ => false end)
      && match decimal_value_from 0 s with
         | Some v => (v =? n)%nat
         | None => false
         end
  end.

(** A line break, written by its code. *)
Definition NL : string := String "010" EmptyString.

(** The numbered block of one commit: the index, the original message,
    the original sha, the author and the committer with name, email and
    date. *)
Definition spec_block (index : string) (data : CommitData) : string :=
  ("[Commit " ++ index ++ "]" ++ NL
     ++ message data ++ NL
     ++ NL
     ++ "Original sha: " ++ sha data ++ NL
     ++ "Authored by " ++ name (author data)
     ++ " <" ++ email (author data) ++ "> on " ++ date (author data) ++ NL
     ++ "Committed by " ++ name (committer data)
     ++ " <" ++ email (committer data) ++ "> on "
     ++ date (committer data))%string.

(** Blocks with a blank line between one and the next. *)
Fixpoint blank_line_separated (blocks : list string) : string :=
  match blocks with
  | [] => EmptyString
  | b :: rest =>
      match rest with
      | [] => b
      | _ :: _ => (b ++ NL ++ NL ++ blank_line_separated rest)%string
      end
  end.

(** Two commits, by different people. *)
Definition two_commits : list CommitData :=
  [ mkCommitData "abc123" "Fix bug"
                 (mkPerson "Ann" "ann@x.com" "2020-01-01")
                 (mkPerson "Bob" "bob@y.org" "2020-01-02");
    mkCommitData "def456" "Add test"
                 (mkPerson "Cy" "cy@z.net" "2020-01-03")
                 (mkPerson "Ann" "ann@x.com" "2020-01-04") ].

(** * Properties *)

(** ** Strings and regular expressions *)

Lemma string_app_assoc (a b c : string) :
  ((a ++ b) ++ c = a ++ b ++ c)%string.
Proof. induction a as [|x a IH]; simpl; [reflexivity|now rewrite IH]. Qed.

Lemma span_app f s : (fst (span f s) ++ snd (span f s))%string = s.
Proof.
  induction s as [|a s IH]; cbn; [reflexivity|].
  destruct (f a); [|reflexivity].
  destruct (span f s) as [run rest]. cbn in *. now rewrite IH.
Qed.

Lemma span_all f s : all_chars f (fst (span f s)) = true.
Proof.
  induction s as [|a s IH]; cbn; [reflexivity|].
  destruct (f a) eqn:E; [|reflexivity].
  destruct (span f s) as [run rest]. cbn in *. now rewrite E.
Qed.

Lemma span_exact f run rest :
  all_chars f run = true ->
  (forall a r, rest = String a r -> f a = false) ->
  span f (run ++ rest)%string = (run, rest).
Proof.
  intros Hall Hstop. induction run as [|a run IH]; cbn in *.
  - destruct rest as [|a r]; [reflexivity|].
    cbn. now rewrite (Hstop a r eq_refl).
  - apply andb_true_iff in Hall. destruct Hall as [Ha Hall].
    rewrite Ha, (IH Hall). reflexivity.
Qed.

Lemma snoc_char_app acc a run :
  (snoc_char acc a ++ run = acc ++ String a run)%string.
Proof. unfold snoc_char. now rewrite string_app_assoc. Qed.

Lemma string_app_nil (s : string) : (s ++ "")%string = s.
Proof. induction s as [|a s IH]; cbn; [reflexivity|now rewrite IH]. Qed.

Lemma plus_from_span k c :
  (forall a s, cc_test c a = true -> k (String a s) = None) ->
  forall s acc,
    plus_from k c s acc
    = match span (cc_test c) s with
      | (EmptyString, _) => None
      | (run, rest) => option_map (cons (acc ++ run)%string) (k rest)
      end.
Proof.
  intros Hk. induction s as [|a s IH]; intros acc; cbn; [reflexivity|].
  destruct (cc_test c a) eqn:Ea; [|reflexivity].
  rewrite IH.
  assert (Happ := span_app (cc_test c) s).
  assert (Hall := span_all (cc_test c) s).
  destruct (span (cc_test c) s) as [run rest]. cbn in *.
  destruct run as [|b run].
  - cbn in Happ. subst rest. unfold snoc_char. reflexivity.
  - rewrite snoc_char_app.
    destruct (k rest) eqn:Ek; cbn; [reflexivity|].
    cbn in Happ, Hall. apply andb_true_iff in Hall.
    subst s. now rewrite (Hk b _ (proj1 Hall)).
Qed.

Lemma strip_prefix_spec l s rest :
  strip_prefix l s = Some rest <-> s = (l ++ rest)%string.
Proof.
  revert s. induction l as [|x l IH]; intros s; cbn.
  - split; [now intros [= ->]|now intros ->].
  - destruct s as [|a s]; [split; discriminate|].
    destruct (Ascii.eqb_spec x a) as [->|Hne].
    + rewrite IH. split; [now intros ->|now intros [= ->]].
    + split; [discriminate|]. intros [= E _]. now contradiction Hne.
Qed.

Lemma match_lits b l p s :
  match_items b (lits l ++ p) s
  = match strip_prefix l s with
    | Some rest => option_map (app (singles l)) (match_items b p rest)
    | None => None
    end.
Proof.
  revert s. induction l as [|x l IH]; intros s.
  - cbn. now destruct (match_items b p s).
  - cbn [lits list_ascii_of_string map app match_items strip_prefix cc_test].
    destruct s as [|a s]; [reflexivity|].
    destruct (Ascii.eqb_spec x a) as [->|Hne]; [|reflexivity].
    fold (lits l). rewrite IH.
    destruct (strip_prefix l s); [|reflexivity].
    now destruct (match_items b p s0).
Qed.


Lemma PR_URL_items :
  items_of PR_URL_REGEX
  = lits "https://github"
      ++ One CDot
      :: lits "com/"
      ++ Plus (CNot "/") :: One (CLit "/") :: Plus (CNot "/")
      :: lits "/pull/" ++ [Plus CDigit].
Proof. reflexivity. Qed.

Lemma strip_prefix_app l rest : strip_prefix l (l ++ rest)%string = Some rest.
Proof. now apply strip_prefix_spec. Qed.

(** What follows [[^\/]+] rejects the characters of the class. *)
Lemma slash_rejects b p a s :
  cc_test (CNot "/") a = true ->
  match_items b (One (CLit "/") :: p) (String a s) = None.
Proof. cbn. intros H. apply negb_true_iff in H. now rewrite H. Qed.

Lemma pull_rejects b p a s :
  cc_test (CNot "/") a = true ->
  match_items b (lits "/pull/" ++ p) (String a s) = None.
Proof. apply slash_rejects. Qed.

Lemma end_rejects a s :
  cc_test CDigit a = true -> match_items true [] (String a s) = None.
Proof. reflexivity. Qed.

Lemma match_one b c p a s :
  match_items b (One c :: p) (String a s)
  = if cc_test c a
    then option_map (cons (String a EmptyString)) (match_items b p s)
    else None.
Proof. reflexivity. Qed.

Lemma match_plus b c p s :
  match_items b (Plus c :: p) s = plus_from (match_items b p) c s EmptyString.
Proof. reflexivity. Qed.

Lemma PR_URL_REGEX_accepts dot owner name num :
  is_line_terminator dot = false ->
  owner <> EmptyString -> all_chars not_slash owner = true ->
  name <> EmptyString -> all_chars not_slash name = true ->
  num <> EmptyString -> all_chars is_digit num = true ->
  PR_URL_REGEX_match (pr_url dot owner name num)
  = Some ((owner ++ "/" ++ name)%string, num).
Proof.
  intros Hdot Ho Hao Hn Han Hd Had.
  unfold PR_URL_REGEX_match, regex_match_anchored, pr_url.
  rewrite PR_URL_items, match_lits, strip_prefix_app.
  rewrite match_one. cbn [cc_test]. rewrite Hdot. cbn [negb].
  rewrite match_lits, strip_prefix_app, match_plus.
  rewrite (@plus_from_span _ (CNot "/") (@slash_rejects true _)).
  rewrite (@span_exact (cc_test (CNot "/")) owner _ Hao).
  2:{ intros a r [= <- _]. reflexivity. }
  destruct owner as [|o1 owner]; [now contradiction Ho|].
  change ("/" ++ name ++ "/pull/" ++ num)%string
    with (String "/" (name ++ "/pull/" ++ num)).
  rewrite match_one. cbn [cc_test]. rewrite Ascii.eqb_refl.
  rewrite match_plus.
  rewrite (@plus_from_span _ (CNot "/") (@pull_rejects true _)).
  rewrite (@span_exact (cc_test (CNot "/")) name _ Han).
  2:{ intros a r [= <- _]. reflexivity. }
  destruct name as [|n1 name]; [now contradiction Hn|].
  rewrite match_lits, strip_prefix_app, match_plus.
  rewrite (@plus_from_span _ CDigit end_rejects).
  rewrite <- (string_app_nil num) at 1.
  rewrite (@span_exact (cc_test CDigit) num "" Had).
  2:{ discriminate. }
  destruct num as [|d1 num]; [now contradiction Hd|].
  reflexivity.
Qed.

Lemma span_facts f s :
  s = (fst (span f s) ++ snd (span f s))%string
  /\ all_chars f (fst (span f s)) = true.
Proof. split; [symmetry; apply span_app|apply span_all]. Qed.

Lemma PR_URL_REGEX_sound url repo number :
  PR_URL_REGEX_match url = Some (repo, number) ->
  pr_url_of url repo number.
Proof.
  unfold PR_URL_REGEX_match, regex_match_anchored.
  rewrite PR_URL_items, match_lits.
  destruct (strip_prefix "https://github" url) as [r1|] eqn:E1;
    [|discriminate].
  apply strip_prefix_spec in E1.
  destruct r1 as [|dot r2]; [discriminate|].
  rewrite match_one. cbn [cc_test].
  destruct (is_line_terminator dot) eqn:Hdot; [discriminate|]. cbn [negb].
  rewrite match_lits.
  destruct (strip_prefix "com/" r2) as [r3|] eqn:E2; [|discriminate].
  apply strip_prefix_spec in E2.
  rewrite match_plus, (@plus_from_span _ (CNot "/") (@slash_rejects true _)).
  destruct (span_facts (cc_test (CNot "/")) r3) as [E3 Hao].
  destruct (span (cc_test (CNot "/")) r3) as [owner r4]. cbn [fst snd] in *.
  destruct owner as [|o1 owner]; [discriminate|].
  destruct r4 as [|a r5]; [discriminate|].
  rewrite match_one. cbn [cc_test].
  destruct (Ascii.eqb_spec "/" a) as [<-|]; [|discriminate].
  rewrite match_plus, (@plus_from_span _ (CNot "/") (@pull_rejects true _)).
  destruct (span_facts (cc_test (CNot "/")) r5) as [E4 Han].
  destruct (span (cc_test (CNot "/")) r5) as [name r6]. cbn [fst snd] in *.
  destruct name as [|n1 name]; [discriminate|].
  rewrite match_lits.
  destruct (strip_prefix "/pull/" r6) as [r7|] eqn:E5; [|discriminate].
  apply strip_prefix_spec in E5.
  rewrite match_plus, (@plus_from_span _ CDigit end_rejects).
  destruct (span_facts (cc_test CDigit) r7) as [E6 Had].
  destruct (span (cc_test CDigit) r7) as [num r8]. cbn [fst snd] in *.
  destruct num as [|d1 num]; [discriminate|].
  destruct r8 as [|x r8]; [|discriminate].
  cbn. intros [= <- <-].
  exists dot, (String o1 owner), (String n1 name).
  repeat split; try assumption; try discriminate.
  unfold pr_url. rewrite E1, E2, E3, E4, E5, E6.
  cbn. now rewrite string_app_nil.
Qed.

(** [url.match(PR_URL_REGEX)] captures [repo] and [number] exactly on the
    URLs [pr_url_of] describes. *)
Lemma PR_URL_REGEX_match_shape url repo number :
  PR_URL_REGEX_match url = Some (repo, number) <-> pr_url_of url repo number.
Proof.
  split; [apply PR_URL_REGEX_sound|].
  intros (dot & owner & name & -> & -> & H).
  now apply PR_URL_REGEX_accepts.
Qed.

Example pr_url_matches :
  PR_URL_REGEX_match sample_url = Some ("elastic/kibana", "42").
Proof. reflexivity. Qed.

(** The [.] of the regex is not escaped. *)
Example pr_url_any_dot :
  PR_URL_REGEX_match "https://github-com/elastic/kibana/pull/042"
  = Some ("elastic/kibana", "042").
Proof. reflexivity. Qed.

Example pr_url_anchored :
  PR_URL_REGEX_match "https://github.com/elastic/kibana/pull/42/files" = None
  /\ PR_URL_REGEX_match "see https://github.com/elastic/kibana/pull/42" = None.
Proof. split; reflexivity. Qed.

Example conflicts_reported :
  CONFLICTS_REGEX_test conflict_report = true
  /\ CONFLICTS_REGEX_test "APPLIED PATCH TO 'a' WITH CONFLICTS" = true
  /\ CONFLICTS_REGEX_test "Applied patch to '' with conflicts." = false
  /\ CONFLICTS_REGEX_test "error: corrupt patch at line 7" = false.
Proof. repeat split; reflexivity. Qed.

Example split_on_spaces :
  split_spaces sample_targets = ["release-1.0"; "release-2.0"]
  /\ split_spaces "a   b " = ["a"; "b"; ""].
Proof. split; reflexivity. Qed.

(** ** Traces *)

Lemma always_app Q pre a b :
  always (fun p e q => Q p e (q ++ b)) pre a ->
  always Q (pre ++ a) b ->
  always Q pre (a ++ b).
Proof.
  revert pre. induction a as [|e a IH]; intros pre Ha Hb; simpl in *.
  - now rewrite app_nil_r in Hb.
  - destruct Ha as [He Ha]. split; [exact He|].
    apply IH; [exact Ha|]. now rewrite <- app_assoc.
Qed.

Lemma always_split Q pre0 t :
  always Q pre0 t ->
  forall pre e post, t = pre ++ e :: post -> Q (pre0 ++ pre) e post.
Proof.
  revert pre0. induction t as [|x t IH]; intros pre0 H pre e post E.
  - now destruct pre.
  - destruct H as [Hx Ht]. destruct pre as [|y pre]; simpl in E.
    + injection E as -> ->. now rewrite app_nil_r.
    + injection E as -> ->.
      specialize (IH _ Ht pre e post eq_refl).
      now rewrite <- app_assoc in IH.
Qed.

Lemma always_Forall Q pre t :
  Forall (fun e => forall p q, Q p e q) t -> always Q pre t.
Proof.
  intros H. revert pre. induction H as [|e t He _ IH]; intros pre; simpl; auto.
Qed.

Lemma always_impl (Q Q' : Trace -> Event -> Trace -> Prop) pre t :
  (forall p e q, Q p e q -> Q' p e q) -> always Q pre t -> always Q' pre t.
Proof.
  intros HQ. revert pre. induction t as [|e t IH]; intros pre; simpl; [auto|].
  intros [He Ht]. split; auto.
Qed.

Lemma created_branches_app a b :
  created_branches (a ++ b) = created_branches a ++ created_branches b.
Proof.
  induction a as [|e a IH]; simpl; [reflexivity|].
  destruct e; try exact IH. destruct r; simpl; now rewrite ?IH.
Qed.

Lemma apply_errors_app a b :
  apply_errors (a ++ b) = apply_errors a ++ apply_errors b.
Proof.
  induction a as [|e a IH]; simpl; [reflexivity|].
  destruct e; simpl; now rewrite ?IH.
Qed.

Lemma commit_messages_app a b :
  commit_messages (a ++ b) = commit_messages a ++ commit_messages b.
Proof.
  induction a as [|e a IH]; simpl; [reflexivity|].
  destruct e; try exact IH. destruct r; simpl; now rewrite ?IH.
Qed.

Lemma pushes_app a b : pushes (a ++ b) = pushes a ++ pushes b.
Proof.
  induction a as [|e a IH]; simpl; [reflexivity|].
  destruct e; simpl; now rewrite ?IH.
Qed.

Lemma cleanups_app a b : cleanups (a ++ b) = cleanups a ++ cleanups b.
Proof.
  induction a as [|e a IH]; simpl; [reflexivity|].
  destruct e; simpl; now rewrite ?IH.
Qed.

(** ** One target *)

Section Target.

Variable w : World.
Variables (repo number : string) (info : Info) (commits : list CommitData).

Local Notation "'run_target'" := (backportTarget w repo number info commits).
Local Notation "'ok'" := (target_ok w repo number info commits).
Local Notation "'failed'" := (target_fail w repo number info commits).

(** The calls of [backportTarget] are one of the shapes, and the target
    is pushed on [branchesWithConflicts] exactly when [git apply]
    reported the conflict. *)
Lemma backportTarget_run t s :
  exists d,
    tr (fst (run_target t s)) = tr s ++ d
    /\ branchesWithConflicts (fst (run_target t s))
       = branchesWithConflicts s ++ marks [t] (apply_errors d)
    /\ match snd (run_target t s) with
       | Ok _ => ok t d
                 /\ cleanupTmp (fst (run_target t s))
                    = snd (fst (diffFile w info))
       | Fail e => failed t d e
       end.
Proof.
  unfold backportTarget, bind, call, all2, awaitDiffFile, applyPatch, log, ret.
  cbn [tr branchesWithConflicts cleanupTmp fst snd].
  repeat
    match goal with
    | |- context [match ?x with _ => _ end] =>
        match x with
        | context [match _ with _ => _ end] => fail 1
        | _ => destruct x eqn:?;
               cbn [tr branchesWithConflicts cleanupTmp fst snd negb]
        end
    end.
  all: repeat match goal with u : unit |- _ => destruct u end.
  all: repeat match goal with
         | H : negb _ = true |- _ => apply negb_true_iff in H
         | H : negb _ = false |- _ => apply negb_false_iff in H
         end.
  all: unfold original, repoDir; rewrite <- ?app_assoc; cbn [app].
  all: eexists; split; [reflexivity|].
  all: split;
    [ cbn [apply_errors marks conflicted app];
      repeat match goal with
             | H : CONFLICTS_REGEX_test _ = _ |- _ => rewrite H
             end;
      now rewrite ?app_nil_r
    | ].
  all: try (split; [|reflexivity]).
  all: econstructor; cbn [applied]; eassumption || reflexivity.
Qed.

Lemma target_ok_errors t d :
  ok t d -> exists err, apply_errors d = [err] /\ applied err = true.
Proof. intros H. destruct H. now exists err. Qed.

Lemma target_fail_errors t d e :
  failed t d e -> apply_errors d = [] \/ exists err, apply_errors d = [err].
Proof. intros H. destruct H; cbn; eauto. Qed.

Lemma marks_one t ts err errs :
  marks (t :: ts) (err :: errs) = marks [t] [err] ++ marks ts errs.
Proof. simpl. now rewrite app_nil_r. Qed.

Lemma marks_short t ts errs :
  errs = [] \/ (exists err, errs = [err]) ->
  marks (t :: ts) errs = marks [t] errs.
Proof.
  intros [->|[err ->]]; [reflexivity|].
  simpl. destruct ts; now rewrite ?app_nil_r.
Qed.

Lemma diffFile_staged path :
  snd (diffFile w info) = Ok path ->
  snd (fst (diffFile w info)) = Some path.
Proof.
  unfold diffFile.
  destruct (requestGet w [] (diff_url info)) as [diff|e]; [|discriminate].
  destruct (tmpFile w _ "jasper-") as [p|e]; [|discriminate].
  cbn. destruct (writeFile w _ p diff); [|discriminate].
  now intros [= ->].
Qed.

(** The first [reduce]: the targets are processed in order, up to the
    first rejection. *)
Lemma forEach_targets ts s :
  exists d,
    tr (fst (forEach ts run_target s)) = tr s ++ d
    /\ branchesWithConflicts (fst (forEach ts run_target s))
       = branchesWithConflicts s ++ marks ts (apply_errors d)
    /\ targets_run w repo number info commits ts d
         (rejected (snd (forEach ts run_target s)))
    /\ (ts <> [] -> snd (forEach ts run_target s) = Ok tt ->
        exists path,
          cleanupTmp (fst (forEach ts run_target s)) = Some path).
Proof.
  revert s. induction ts as [|t ts IH]; intros s.
  - exists []. cbn. rewrite !app_nil_r. repeat split; try constructor.
    now intros [].
  - cbn [forEach]. unfold bind.
    destruct (backportTarget_run t s) as (d & Ht & Hb & Hr).
    destruct (run_target t s) as [s1 [[]|e]]; cbn [fst snd] in *.
    + destruct Hr as [Hok Hcl].
      destruct (IH s1) as (d' & Ht' & Hb' & Hr' & Hcl').
      destruct (target_ok_errors Hok) as (err & Herr & _).
      exists (d ++ d').
      split; [rewrite Ht', Ht; now rewrite app_assoc|].
      split.
      { rewrite Hb', Hb, apply_errors_app, Herr. cbn [app].
        rewrite (marks_one t ts). now rewrite app_assoc. }
      split; [now constructor|].
      intros _ Hsnd. destruct ts as [|t' ts].
      * cbn. rewrite Hcl. inversion Hok; subst.
        eexists. apply diffFile_staged. eassumption.
      * apply Hcl'; [discriminate|exact Hsnd].
    + exists d. rewrite Ht, Hb. repeat split.
      * now rewrite (marks_short t ts (target_fail_errors Hr)).
      * now constructor.
      * discriminate.
Qed.

End Target.

(** ** The chain from [openOrClone] on *)

Section Chain.

Variable w : World.
Variables (repo number : string) (branches : list string).
Variables (info : Info) (commits : list CommitData).

Local Notation "'branch'" := (branch_of number info).
Local Notation "'pushed_ok'" := (push_ok number info).

(** The second [reduce]: one push per target, in order, up to the first
    rejection. *)
Lemma pushAll_cons t ts s :
  pushAll w number (t :: ts) info s
  = match push w (tr s) (refspec (branch t)) with
    | Ok _ => pushAll w number ts info
                      (log (EPush (refspec (branch t)) (Ok tt)) s)
    | Fail e => (log (EPush (refspec (branch t)) (Fail e)) s, Fail e)
    end.
Proof.
  unfold pushAll. cbn [map forEach]. unfold bind at 1. unfold call at 1.
  unfold branch_of, original.
  now destruct (push w (tr s) _) as [[]|e].
Qed.

Lemma pushAll_run ts s :
  let res := pushAll w number ts info s in
  branchesWithConflicts (fst res) = branchesWithConflicts s
  /\ cleanupTmp (fst res) = cleanupTmp s
  /\ match snd res with
     | Ok _ => tr (fst res) = tr s ++ map pushed_ok ts
     | Fail e =>
         exists k t,
           nth_error ts k = Some t
           /\ tr (fst res)
              = tr s ++ map pushed_ok (firstn k ts)
                  ++ [EPush (refspec (branch t)) (Fail e)]
     end.
Proof.
  revert s. induction ts as [|t ts IH]; intros s.
  - cbn. now rewrite app_nil_r.
  - cbv zeta in *. rewrite pushAll_cons.
    destruct (push w (tr s) _) as [[]|e] eqn:E; cbn [fst snd].
    + destruct (IH (log (EPush (refspec (branch t)) (Ok tt)) s))
        as (Hb & Hc & Hr).
      rewrite Hb, Hc. repeat split.
      destruct (snd _) as [[]|e'].
      * rewrite Hr. cbn. now rewrite <- app_assoc.
      * destruct Hr as (k & t' & Hk & Hr). exists (S k), t'.
        split; [exact Hk|]. rewrite Hr. cbn. now rewrite <- app_assoc.
    + repeat split. exists 0, t. split; reflexivity.
Qed.

Local Notation "'chain'" := (chain_run w repo number branches info commits).

Lemma apply_errors_pushes ts : apply_errors (map pushed_ok ts) = [].
Proof. induction ts; simpl; auto. Qed.

Lemma apply_errors_pushed d k :
  apply_errors (pushed w repo number branches info d k) = apply_errors d.
Proof.
  unfold pushed. rewrite !apply_errors_app, apply_errors_pushes.
  cbn. now rewrite app_nil_r.
Qed.

Lemma apply_errors_pushed_then d k cl :
  apply_errors cl = [] ->
  apply_errors (pushed w repo number branches info d k ++ cl)
  = apply_errors d.
Proof.
  intros H. now rewrite apply_errors_app, apply_errors_pushed, H, app_nil_r.
Qed.

Lemma backportAll_run s :
  branchesWithConflicts s = [] ->
  apply_errors (tr s) = [] ->
  let res := backportAll w repo number branches info commits s in
  exists d,
    tr (fst res) = tr s ++ d
    /\ chain (tr s) d (snd res)
    /\ branchesWithConflicts (fst res) = marks branches (apply_errors d).
Proof.
  intros Hb0 He0. cbv zeta.
  unfold backportAll, bind, call, publishAll, callCleanupTmp, ret.
  unfold repoDir.
  destruct (openOrClone w (tr s) _ _) as [[]|e] eqn:E1.
  2:{ eexists. cbn. split; [reflexivity|]. split; [constructor|].
      rewrite Hb0. now destruct branches. }
  destruct (fetch w _ _) as [[]|e] eqn:E2.
  2:{ eexists. cbn. rewrite <- app_assoc. split; [reflexivity|].
      split; [constructor|]. rewrite Hb0. now destruct branches. }
  match goal with |- context [forEach branches ?f ?s2] =>
    destruct (forEach_targets w repo number info commits branches s2)
      as (d & Ht & Hb & Hr & Hcl);
    destruct (forEach branches f s2) as [s3 [[]|e]] eqn:E3
  end; cbn [fst snd rejected log tr branchesWithConflicts] in *.
  2:{ exists (opened w repo info ++ d).
      split; [rewrite Ht; now rewrite <- !app_assoc|].
      split; [now constructor|]. now rewrite Hb, Hb0. }
  rewrite Hb0 in Hb. cbn [app] in Hb.
  destruct (getRemote w (tr s3) "origin") as [[]|e] eqn:E4.
  2:{ exists (opened w repo info ++ d ++ [EGetRemote "origin" (Fail e)]).
      cbn [fst snd log tr branchesWithConflicts].
      split; [rewrite Ht; now rewrite <- !app_assoc|].
      split; [now constructor|].
      rewrite Hb. cbn. now rewrite apply_errors_app, app_nil_r. }
  match goal with |- context [pushAll w number branches info ?s4] =>
    destruct (pushAll_run branches s4) as (Hb5 & Hc5 & Hr5);
    destruct (pushAll w number branches info s4) as [s5 [[]|e]] eqn:E5
  end; cbn [fst snd log tr branchesWithConflicts cleanupTmp] in *.
  2:{ destruct Hr5 as (k & t & Hk & Hr5).
      exists (pushed w repo number branches info d k
                ++ [EPush (refspec (branch t)) (Fail e)]).
      split; [rewrite Hr5, Ht; unfold pushed; now rewrite <- !app_assoc|].
      split; [now constructor|].
      now rewrite Hb5, Hb, apply_errors_pushed_then. }
  assert (Hh : tr s5 = tr s ++ pushed w repo number branches info d
                                    (length branches)).
  { rewrite Hr5, Ht. unfold pushed. rewrite firstn_all.
    now rewrite <- !app_assoc. }
  assert (Hm : branchesWithConflicts s5
               = marks branches (apply_errors (tr s5))).
  { now rewrite Hb5, Hb, Hh, apply_errors_app, He0, apply_errors_pushed. }
  rewrite Hm, Hh.
  fold (published w number branches info commits
                  (tr s ++ pushed w repo number branches info d
                                  (length branches))).
  set (h := tr s ++ pushed w repo number branches info d (length branches)).
  set (pub := EPublish (map fst (published w number branches info commits h))).
  destruct (firstRejection _) as [[]|e] eqn:E6.
  - destruct (cleanupTmp s5) as [path|] eqn:E7;
      cbn [fst snd log tr branchesWithConflicts].
    + exists (pushed w repo number branches info d (length branches)
                ++ [pub] ++ [ECleanupTmp path]).
      split; [rewrite Hh; now rewrite <- !app_assoc|].
      split.
      * apply C_sent; auto; [right; now exists path|discriminate].
      * now rewrite Hb5, Hb, apply_errors_pushed_then.
    + exists (pushed w repo number branches info d (length branches)
                ++ [pub] ++ []).
      split; [rewrite Hh; now rewrite <- !app_assoc|].
      split.
      * apply C_sent; auto. intros Hne.
        destruct (Hcl Hne eq_refl) as [path Hp]. congruence.
      * now rewrite Hb5, Hb, apply_errors_pushed_then.
  - exists (pushed w repo number branches info d (length branches) ++ [pub]).
    cbn [fst snd log tr branchesWithConflicts].
    split; [rewrite Hh; now rewrite <- !app_assoc|].
    split; [now apply C_publish|].
    now rewrite Hb5, Hb, apply_errors_pushed_then.
Qed.

End Chain.

(** ** The handler *)

Section Handler.

Variable w : World.
Variables (url allBranches : string).

Local Notation "'branches'" := (split_spaces allBranches).
Local Notation "'run'" := (handler w url allBranches).

(** Line 37 throws: nothing has been called and nothing is emitted. *)
Lemma handler_no_match :
  PR_URL_REGEX_match url = None ->
  run = mkResult (initial []) [] Threw.
Proof. intros H. unfold handler. now rewrite H. Qed.

Lemma handler_fetched repo number info commits :
  fetched w url repo number info commits ->
  run = validated w repo number branches
                  (initial (prelude repo number info commits)) info commits.
Proof.
  intros (Hm & Hi & Hc). unfold handler. rewrite Hm.
  unfold all2, call, initial, log. cbn [tr app]. now rewrite Hi, Hc.
Qed.

(** A run that passes validation is the chain from [openOrClone] on. *)
Lemma handler_valid repo number info commits :
  fetched w url repo number info commits ->
  includes branches (base_ref info) = false ->
  merged info = true ->
  exists d res,
    main run = prelude repo number info commits ++ d
    /\ chain_run w repo number branches info commits
                 (prelude repo number info commits) d res
    /\ outcome run = outcome_of res
    /\ branchesWithConflicts (final run) = marks branches (apply_errors d)
    /\ staging run = fst (fst (diffFile w info)).
Proof.
  intros Hf Hb Hm. rewrite (handler_fetched Hf). unfold validated.
  rewrite Hb, Hm. cbn [negb].
  destruct (backportAll_run w repo number branches info commits
              (initial (prelude repo number info commits)) eq_refl eq_refl)
    as (d & Ht & Hc & Hw).
  cbv zeta in *.
  destruct (backportAll _ _ _ _ _ _ _) as [s' [text|e]];
    cbn [fst snd] in *; exists d; eexists;
    (split; [exact Ht|]); (split; [exact Hc|]); repeat split; assumption.
Qed.

(** A run that fails validation stops there. *)
Lemma handler_invalid repo number info commits :
  fetched w url repo number info commits ->
  includes branches (base_ref info) = true \/ merged info = false ->
  main run = prelude repo number info commits
  /\ staging run = []
  /\ outcome run
     = Emitted (if includes branches (base_ref info)
                then "Cannot backport into original PR target branch"
                else "Cannot backport unmerged pull requests")
  /\ branchesWithConflicts (final run) = [].
Proof.
  intros Hf H. rewrite (handler_fetched Hf). unfold validated.
  destruct (includes _ _); [now repeat split|].
  destruct H as [H|H]; [discriminate|]. rewrite H. now repeat split.
Qed.

End Handler.

(** ** The consolidated message *)

Lemma commit_block_written_out num data :
  commit_block num data = numbered_block num data.
Proof.
  unfold commit_block, numbered_block, join. cbn [String.concat].
  repeat rewrite string_app_assoc. reflexivity.
Qed.

Lemma map_commits_length num commits :
  length (map_commits num commits) = length commits.
Proof.
  revert num. induction commits as [|c cs IH]; intros num; simpl; auto.
Qed.

Lemma map_commits_nth num commits k data :
  nth_error commits k = Some data ->
  nth_error (map_commits num commits) k
  = Some (commit_block (num + k + 1) data).
Proof.
  revert num k. induction commits as [|c cs IH]; intros num k H.
  - now destruct k.
  - destruct k as [|k]; simpl in *.
    + injection H as ->. do 2 f_equal. lia.
    + rewrite (IH (S num) k H). do 2 f_equal. lia.
Qed.

(** *** Decimal numerals *)

Lemma digit_value_spec a d :
  digit_value a = Some d -> d <= 9 /\ a = ascii_of_nat (48 + d).
Proof.
  unfold digit_value.
  destruct ((48 <=? nat_of_ascii a) && (nat_of_ascii a <=? 57))%nat eqn:E;
    [|discriminate].
  apply andb_true_iff in E. destruct E as [E1 E2].
  apply Nat.leb_le in E1, E2. intros [= <-]. split; [lia|].
  replace (48 + (nat_of_ascii a - 48)) with (nat_of_ascii a) by lia.
  now rewrite ascii_nat_embedding.
Qed.

(** The value of digits read after [acc] lies between [acc] and
    [acc + 1], both shifted by the number of digits. *)
Lemma decimal_value_bounds s acc v :
  decimal_value_from acc s = Some v ->
  acc * 10 ^ String.length s <= v < (acc + 1) * 10 ^ String.length s.
Proof.
  revert acc. induction s as [|a s IH]; intros acc; cbn [decimal_value_from].
  - intros [= <-]. cbn. lia.
  - destruct (digit_value a) as [d|] eqn:Ed; [|discriminate].
    destruct (digit_value_spec _ Ed) as [Hd _]. intros H.
    apply IH in H. cbn [String.length]. rewrite Nat.pow_succ_r'. nia.
Qed.

Lemma decimal_value_same_length s1 s2 a1 a2 v :
  String.length s1 = String.length s2 ->
  decimal_value_from a1 s1 = Some v ->
  decimal_value_from a2 s2 = Some v ->
  a1 = a2 /\ s1 = s2.
Proof.
  revert s2 a1 a2. induction s1 as [|c1 s1 IH]; intros [|c2 s2] a1 a2 Hl;
    try discriminate; cbn [decimal_value_from].
  - intros [= <-] [= <-]. now split.
  - destruct (digit_value c1) as [d1|] eqn:E1; [|discriminate].
    destruct (digit_value c2) as [d2|] eqn:E2; [|discriminate].
    destruct (digit_value_spec _ E1) as [H1 ->].
    destruct (digit_value_spec _ E2) as [H2 ->].
    intros V1 V2. injection Hl as Hl.
    destruct (IH s2 _ _ Hl V1 V2) as [Ha ->].
    assert (a1 = a2 /\ d1 = d2) as [-> ->] by lia. now split.
Qed.

(** A numeral with more digits has a greater value. *)
Lemma numeral_longer n s1 s2 :
  numeral_of n s1 = true -> numeral_of n s2 = true ->
  String.length s1 < String.length s2 -> False.
Proof.
  unfold numeral_of. destruct s1 as [|c1 t1]; [discriminate|].
  destruct s2 as [|c2 t2]; [discriminate|].
  intros H1 H2 Hl.
  apply andb_true_iff in H1, H2. destruct H1 as [_ H1], H2 as [Z2 H2].
  destruct (decimal_value_from 0 (String c1 t1)) as [v1|] eqn:V1;
    [|discriminate].
  destruct (decimal_value_from 0 (String c2 t2)) as [v2|] eqn:V2;
    [|discriminate].
  apply Nat.eqb_eq in H1, H2. subst v1 v2.
  cbn [decimal_value_from] in V1, V2.
  destruct (digit_value c1) as [d1|] eqn:E1; [|discriminate].
  destruct (digit_value c2) as [d2|] eqn:E2; [|discriminate].
  destruct (digit_value_spec _ E1) as [D1 _].
  destruct (digit_value_spec _ E2) as [_ ->].
  apply decimal_value_bounds in V1, V2. cbn [String.length] in Hl.
  destruct t2 as [|c3 t2]; [cbn in Hl; lia|].
  rewrite orb_false_r in Z2. apply negb_true_iff in Z2.
  assert (Hd2 : 1 <= d2).
  { destruct d2; [|lia]. cbn in Z2. discriminate. }
  assert (Hp : 10 * 10 ^ String.length t1
               <= 10 ^ String.length (String c3 t2)).
  { rewrite <- Nat.pow_succ_r'. apply Nat.pow_le_mono_r; lia. }
  nia.
Qed.

(** A number has one decimal numeral. *)
Lemma numeral_unique n s1 s2 :
  numeral_of n s1 = true -> numeral_of n s2 = true -> s1 = s2.
Proof.
  intros H1 H2.
  assert (Hl : String.length s1 = String.length s2).
  { destruct (Nat.lt_trichotomy (String.length s1) (String.length s2))
      as [Hlt|[Heq|Hgt]]; [|exact Heq|].
    - now destruct (numeral_longer _ _ _ H1 H2 Hlt).
    - now destruct (numeral_longer _ _ _ H2 H1 Hgt). }
  unfold numeral_of in H1, H2.
  destruct s1 as [|c1 t1]; [discriminate|].
  destruct s2 as [|c2 t2]; [discriminate|].
  apply andb_true_iff in H1, H2. destruct H1 as [_ H1], H2 as [_ H2].
  destruct (decimal_value_from 0 (String c1 t1)) as [v1|] eqn:V1;
    [|discriminate].
  destruct (decimal_value_from 0 (String c2 t2)) as [v2|] eqn:V2;
    [|discriminate].
  apply Nat.eqb_eq in H1, H2. subst v1 v2.
  now destruct (decimal_value_same_length _ _ _ _ Hl V1 V2).
Qed.

(** The digits printed for a decimal number have its value. *)
Lemma string_of_uint_value d acc :
  decimal_value_from acc (NilEmpty.string_of_uint d)
  = Some (Nat.of_uint_acc d acc).
Proof.
  revert acc. induction d as [|d IH|d IH|d IH|d IH|d IH|d IH|d IH|d IH|d IH
                              |d IH]; intros acc;
    cbn [NilEmpty.string_of_uint decimal_value_from Nat.of_uint_acc];
    [reflexivity|..].
  all: match goal with
       | |- context [digit_value ?a] =>
           let v := eval vm_compute in (digit_value a) in
           change (digit_value a) with v
       end;
    cbv beta iota; rewrite IH, Nat.tail_mul_spec; do 2 f_equal; lia.
Qed.

(** [Nat.to_uint] gives [0] or digits that start with another digit. *)
Lemma to_uint_head n :
  match Nat.to_uint n with
  | Decimal.Nil => False
  | Decimal.D0 d => d = Decimal.Nil
  | _ => True
  end.
Proof.
  assert (E : Nat.to_uint n = Decimal.unorm (Nat.to_uint n)).
  { rewrite <- DecimalNat.Unsigned.to_of. now rewrite DecimalNat.Unsigned.of_to. }
  rewrite E. unfold Decimal.unorm.
  assert (H : forall d, match Decimal.nzhead d with
                        | Decimal.D0 _ => False
                        | _ => True
                        end).
  { induction d; cbn; auto. }
  specialize (H (Nat.to_uint n)).
  now destruct (Decimal.nzhead (Nat.to_uint n)).
Qed.

(** [`${num}`] is the decimal numeral of [num]. *)
Lemma show_nat_numeral n : numeral_of n (show_nat n) = true.
Proof.
  unfold show_nat.
  assert (Hv := string_of_uint_value (Nat.to_uint n) 0).
  fold (Nat.of_uint (Nat.to_uint n)) in Hv.
  rewrite DecimalNat.Unsigned.of_to in Hv.
  assert (Hh := to_uint_head n).
  destruct (Nat.to_uint n) as [|d|d|d|d|d|d|d|d|d|d];
    [now contradiction Hh|subst d|..];
    unfold NilZero.string_of_uint;
    cbn [NilEmpty.string_of_uint] in *;
    unfold numeral_of; rewrite Hv, Nat.eqb_refl; reflexivity.
Qed.

(** *** The blocks of the message *)

Lemma join_blank_line blocks :
  join (LF ++ LF)%string blocks = blank_line_separated blocks.
Proof.
  unfold join. induction blocks as [|b rest IH]; [reflexivity|].
  cbn [String.concat blank_line_separated].
  destruct rest as [|b' rest]; [reflexivity|]. now rewrite IH.
Qed.

Lemma commit_block_spec num data :
  commit_block num data = spec_block (show_nat num) data.
Proof. rewrite commit_block_written_out. reflexivity. Qed.

(** C6. The consolidated message is the blocks of the commits with a
    blank line between one and the next: one block per commit, in the
    order of the commits.  The block of the commit at position [k] (from
    0) starts with [[Commit <index>]], the index being the decimal
    numeral of [k + 1], of which there is one; then come, each on its
    line, the message, an empty line, [Original sha: <sha>], [Authored
    by <name> <<email>> on <date>] for the author and [Committed by
    <name> <<email>> on <date>] for the committer, as they are. *)
Theorem consolidated_message_blocks (commits : list CommitData) :
  exists blocks : list string,
    baseCommitMessage commits = blank_line_separated blocks
    /\ length blocks = length commits
    /\ forall k data,
         nth_error commits k = Some data ->
         exists index,
           numeral_of (k + 1) index = true
           /\ (forall other, numeral_of (k + 1) other = true -> other = index)
           /\ nth_error blocks k = Some (spec_block index data).
Proof.
  exists (map_commits 0 commits).
  split; [apply join_blank_line|].
  split; [apply map_commits_length|].
  intros k data H. exists (show_nat (k + 1)).
  split; [apply show_nat_numeral|].
  split.
  - intros other Ho. apply (numeral_unique _ _ _ Ho (show_nat_numeral _)).
  - rewrite (map_commits_nth 0 _ _ H). now rewrite commit_block_spec.
Qed.

(** ** Validation *)

(** C2. When a target is the base ref of the pull request, or the pull
    request is not merged, the handler has called nothing but the two
    handles and the two fetches of the metadata, the diff has not been
    requested, and the error is emitted. *)
Theorem validation_first (w : World) (url allBranches repo number : string)
        (info : Info) :
  PR_URL_REGEX_match url = Some (repo, number) ->
  getInfo w [EGithubRepo repo; EGithubPr repo number] = Ok info ->
  In (base_ref info) (split_spaces allBranches) \/ merged info = false ->
  let run := handler w url allBranches in
  (exists rc, main run = [ EGithubRepo repo; EGithubPr repo number;
                           EGetInfo (Ok info); EGetCommits rc ])
  /\ staging run = []
  /\ (exists e, outcome run = Emitted e)
  /\ (forall commits,
        getCommits w [ EGithubRepo repo; EGithubPr repo number;
                       EGetInfo (Ok info) ] = Ok commits ->
        outcome run
        = Emitted (if includes (split_spaces allBranches) (base_ref info)
                   then "Cannot backport into original PR target branch"
                   else "Cannot backport unmerged pull requests")).
Proof.
  intros Hm Hi Hbad run.
  assert (Hbad' : includes (split_spaces allBranches) (base_ref info) = true
                  \/ merged info = false).
  { destruct Hbad as [Hin|H]; [left|now right].
    unfold includes. apply existsb_exists. exists (base_ref info).
    split; [exact Hin|apply String.eqb_refl]. }
  destruct (getCommits w [ EGithubRepo repo; EGithubPr repo number;
                           EGetInfo (Ok info) ]) as [commits|e] eqn:Hc.
  - destruct (@handler_invalid w url allBranches repo number info commits
                (conj Hm (conj Hi Hc)) Hbad')
      as (Ht & Hs & Ho & _).
    subst run. repeat split.
    + now exists (Ok commits).
    + exact Hs.
    + eexists. exact Ho.
    + intros commits' [= <-]. exact Ho.
  - subst run. unfold handler. rewrite Hm.
    unfold all2, call, initial, log. cbn [tr app]. rewrite Hi, Hc.
    cbn. repeat split.
    + now exists (Fail e).
    + now exists e.
    + discriminate.
Qed.

Lemma validation_first_witness :
  PR_URL_REGEX_match sample_url = Some ("elastic/kibana", "42")
  /\ getInfo clean_world [EGithubRepo "elastic/kibana";
                          EGithubPr "elastic/kibana" "42"] = Ok sample_info
  /\ outcome (handler clean_world sample_url "release-1.0 main")
     = Emitted "Cannot backport into original PR target branch"
  /\ staging (handler clean_world sample_url "release-1.0 main") = [].
Proof.
  split; [reflexivity|]. split; [reflexivity|].
  destruct (@validation_first clean_world sample_url "release-1.0 main"
              "elastic/kibana" "42" sample_info eq_refl eq_refl)
    as (_ & Hs & _ & Ho).
  - left. vm_compute. right. left. reflexivity.
  - split; [exact (Ho sample_commits eq_refl)|exact Hs].
Defined.

Example unmerged_is_refused :
  let run := handler unmerged_world sample_url sample_targets in
  length (main run) = 4
  /\ staging run = []
  /\ outcome run = Emitted "Cannot backport unmerged pull requests".
Proof. vm_compute. repeat split. Qed.

(** ** The pull-request URL *)

(** When the URL does not match [PR_URL_REGEX] as the regex reads the
    pattern, the [.] standing for any character but a line terminator,
    the match is [null] and the handler throws at line 37: no
    collaborator has been called, on either chain, and the error is not
    emitted by the [catch] of the promise chain. *)
Theorem unmatched_url_throws (w : World) (url allBranches : string) :
  (forall repo number, ~ pr_url_of url repo number) ->
  let run := handler w url allBranches in
  PR_URL_REGEX_match url = None
  /\ main run = []
  /\ staging run = []
  /\ outcome run = Threw
  /\ forall e, outcome run <> Emitted e.
Proof.
  intros Hu run.
  assert (H : PR_URL_REGEX_match url = None).
  { destruct (PR_URL_REGEX_match url) as [[repo number]|] eqn:E;
      [|reflexivity].
    apply PR_URL_REGEX_match_shape in E. now contradiction (Hu repo number). }
  subst run. rewrite (@handler_no_match w url allBranches H).
  split; [exact H|]. repeat split. discriminate.
Qed.

Lemma unmatched_url_throws_witness :
  (forall repo number,
      ~ pr_url_of "https://github.com/elastic/kibana/issues/42" repo number)
  /\ outcome (handler clean_world
                "https://github.com/elastic/kibana/issues/42"
                sample_targets) = Threw.
Proof.
  assert (H : forall repo number,
             ~ pr_url_of "https://github.com/elastic/kibana/issues/42"
                         repo number).
  { intros repo number Hu. apply PR_URL_REGEX_match_shape in Hu.
    vm_compute in Hu. discriminate Hu. }
  split; [exact H|].
  exact (proj1 (proj2 (proj2 (proj2
    (@unmatched_url_throws clean_world
       "https://github.com/elastic/kibana/issues/42" sample_targets H))))).
Defined.

(** C10 fails on the code.  The [.] of [github.com] is not escaped in
    [PR_URL_REGEX] (line 23), so a URL with another character in its
    place is taken.  [https://github-com/elastic/kibana/pull/42] is not
    of the pattern [https://github.com/<owner>/<repo>/pull/<number>],
    whatever the owner, the repository and the number; the match
    captures [elastic/kibana] and [42], the handler does not throw, it
    makes every call it makes for the exact URL, and it ends with the
    report. *)
Theorem inexact_url_is_backported :
  (forall owner repo number,
      "https://github-com/elastic/kibana/pull/42"
      <> spec_pr_url owner repo number)
  /\ PR_URL_REGEX_match "https://github-com/elastic/kibana/pull/42"
     = Some ("elastic/kibana", "42")
  /\ outcome (handler clean_world "https://github-com/elastic/kibana/pull/42"
                      sample_targets)
     = Sent "Backported pull request #42 to release-1.0, release-2.0"
  /\ main (handler clean_world "https://github-com/elastic/kibana/pull/42"
                   sample_targets)
     = main clean_run
  /\ firstn 4 (main clean_run)
     = [ EGithubRepo "elastic/kibana"; EGithubPr "elastic/kibana" "42";
         EGetInfo (Ok sample_info); EGetCommits (Ok sample_commits) ]
  /\ length (main clean_run) = 33.
Proof.
  split.
  { intros owner repo number H. unfold spec_pr_url in H. cbn in H.
    discriminate H. }
  vm_compute. repeat split.
Qed.

(** ** Properties of every call of a run *)

Section Always.

Variable w : World.
Variables (repo number : string) (branches : list string).
Variables (info : Info) (commits : list CommitData).

Local Notation "'branch'" := (branch_of number info).
Local Notation "'ok'" := (target_ok w repo number info commits).
Local Notation "'failed'" := (target_fail w repo number info commits).
Local Notation "'targets'" := (targets_run w repo number info commits).
Local Notation "'chain'" := (chain_run w repo number branches info commits).
Local Notation "'pushed_to'" := (pushed w repo number branches info).
Local Notation "'publishing'" := (published w number branches info commits).

Variable Q : Trace -> Event -> Trace -> Prop.

Lemma always_rest pre t rest rest' :
  always (fun p e q => Q p e (q ++ rest ++ rest')) pre t ->
  always (fun p e q => Q p e ((q ++ rest) ++ rest')) pre t.
Proof.
  apply always_impl. intros p e q H. now rewrite <- app_assoc.
Qed.

Lemma always_nil pre t :
  always Q pre t -> always (fun p e q => Q p e (q ++ [])) pre t.
Proof. apply always_impl. intros p e q H. now rewrite app_nil_r. Qed.

Lemma always_nil_inv pre t :
  always (fun p e q => Q p e (q ++ [])) pre t -> always Q pre t.
Proof. apply always_impl. intros p e q H. now rewrite app_nil_r in H. Qed.

(** The per-target steps of a list of targets [ts], the tail of [all]
    that starts at the position given by the patches applied so far. *)
Lemma targets_always ts d o :
  targets ts d o ->
  forall (all : list string) (rest h : Trace),
    (forall i t, nth_error ts i = Some t ->
                 nth_error all (length (apply_errors h) + i) = Some t) ->
    (o <> None -> rest = []) ->
    (forall t seg h' rest',
        nth_error all (length (apply_errors h')) = Some t ->
        ok t seg ->
        always (fun p e q => Q p e (q ++ rest')) h' seg) ->
    (forall t seg e h',
        nth_error all (length (apply_errors h')) = Some t ->
        failed t seg e -> o = Some e ->
        always Q h' seg) ->
    always (fun p e q => Q p e (q ++ rest)) h d.
Proof.
  induction 1 as [|t ts d d' o Hok Hrun IH|t ts d e Hf];
    intros all rest h Hall Hrest Hgood Hbad.
  - exact I.
  - apply always_app.
    + apply always_rest. apply (Hgood t); [|exact Hok].
      rewrite <- (Hall 0 t eq_refl). f_equal. lia.
    + apply (IH all); auto.
      intros i t' Hi. rewrite <- (Hall (S i) t' Hi).
      destruct (target_ok_errors Hok) as (err & Herr & _).
      rewrite apply_errors_app, Herr, length_app. cbn. f_equal. lia.
  - rewrite (Hrest ltac:(discriminate)). apply always_nil.
    apply (Hbad t _ e); [|exact Hf|reflexivity].
    rewrite <- (Hall 0 t eq_refl). f_equal. lia.
Qed.

Lemma firstn_snoc (A : Type) (l : list A) k x :
  nth_error l k = Some x -> firstn (S k) l = firstn k l ++ [x].
Proof.
  revert l. induction k as [|k IH]; intros [|y l] H; try discriminate.
  - now injection H as ->.
  - cbn [firstn app]. f_equal. now apply IH.
Qed.

Lemma nth_error_of_firstn (A : Type) (l : list A) k i x :
  nth_error (firstn k l) i = Some x -> nth_error l i = Some x.
Proof.
  revert l i. induction k as [|k IH]; intros [|y l] [|i] H;
    try discriminate; cbn in *; auto.
Qed.

Lemma pushed_step d k t :
  nth_error branches k = Some t ->
  pushed_to d k ++ [push_ok number info t] = pushed_to d (S k).
Proof.
  intros H. unfold pushed. rewrite (firstn_snoc _ _ H), map_app.
  now rewrite <- !app_assoc.
Qed.

Variable h0 : Trace.
Variable res : Res string.

Hypothesis h0_unpatched : apply_errors h0 = [].

Hypothesis Q_plain : forall p e q, plain e = true -> Q p e q.

Hypothesis Q_ok :
  forall t seg h rest,
    nth_error branches (length (apply_errors h)) = Some t ->
    ok t seg ->
    always (fun p e q => Q p e (q ++ rest)) h seg.

Hypothesis Q_failed :
  forall t seg e h,
    nth_error branches (length (apply_errors h)) = Some t ->
    failed t seg e -> res = Fail e ->
    always Q h seg.

Hypothesis Q_push :
  forall d k t r rest,
    targets branches d None ->
    nth_error branches k = Some t ->
    (forall e, r = Fail e -> rest = [] /\ res = Fail e) ->
    Q (h0 ++ pushed_to d k) (EPush (refspec (branch t)) r) rest.

Hypothesis Q_publish :
  forall d cl,
    targets branches d None ->
    (cl = [] \/ exists path, cl = [ECleanupTmp path]) ->
    (cl = [] -> branches <> [] -> exists e, res = Fail e) ->
    Q (h0 ++ pushed_to d (length branches))
      (EPublish (map fst (publishing (h0 ++ pushed_to d (length branches)))))
      cl.

Lemma plain_always pre t rest :
  forallb plain t = true -> always (fun p e q => Q p e (q ++ rest)) pre t.
Proof.
  intros H. apply always_Forall. apply Forall_forall. intros e He p q.
  apply Q_plain. rewrite forallb_forall in H. now apply H.
Qed.

Lemma opened_targets_always d o rest :
  targets branches d o ->
  (o <> None -> rest = []) ->
  (forall e, o = Some e -> res = Fail e) ->
  always (fun p e q => Q p e (q ++ rest)) h0
         (opened w repo info ++ d).
Proof.
  intros Hrun Hrest Hres. apply always_app.
  - apply always_rest. now apply plain_always.
  - apply (targets_always Hrun branches); auto.
    + intros i t Hi. rewrite apply_errors_app, h0_unpatched. exact Hi.
    + intros t seg e h' Hn Hf Ho. eapply Q_failed; eauto.
Qed.

Lemma opened_committed_always d rest :
  targets branches d None ->
  always (fun p e q => Q p e (q ++ rest)) h0 (opened w repo info ++ d).
Proof.
  intros Hd. apply opened_targets_always with (o := None).
  - exact Hd.
  - intros Hn. now contradiction Hn.
  - discriminate.
Qed.

Lemma pushes_always d l :
  targets branches d None ->
  forall j rest,
    (forall i t, nth_error l i = Some t ->
                 nth_error branches (j + i) = Some t) ->
    always (fun p e q => Q p e (q ++ rest)) (h0 ++ pushed_to d j)
           (map (push_ok number info) l).
Proof.
  intros Hd. induction l as [|t l IH]; intros j rest Hl; [exact I|].
  assert (Hj : nth_error branches j = Some t).
  { rewrite <- (Hl 0 t eq_refl). f_equal. lia. }
  cbn [map always]. split.
  - apply Q_push; auto. discriminate.
  - rewrite <- app_assoc, (pushed_step d _ Hj). apply IH.
    intros i t' Hi. rewrite <- (Hl (S i) t' Hi). f_equal. lia.
Qed.

Lemma pushed_always d k rest :
  targets branches d None ->
  always (fun p e q => Q p e (q ++ rest)) h0 (pushed_to d k).
Proof.
  intros Hd. unfold pushed. rewrite app_assoc.
  apply always_app.
  - apply always_rest. now apply opened_committed_always.
  - cbn [always app]. split; [now apply Q_plain|].
    replace ((h0 ++ opened w repo info ++ d) ++ [EGetRemote "origin" (Ok tt)])
      with (h0 ++ pushed_to d 0)
      by (unfold pushed; cbn [firstn map];
          now rewrite app_nil_r, <- !app_assoc).
    apply pushes_always; [exact Hd|]. intros i t Hi.
    exact (nth_error_of_firstn _ _ _ Hi).
Qed.

(** Every call of the chain has the property, once each kind of call
    has it where it can occur. *)
Lemma chain_always d :
  chain h0 d res -> always Q h0 d.
Proof.
  intros H.
  inversion H as [e Ed Er|e Ed Er|d' e Hd Ed Er|d' e Hd Ed Er
                 |d' k t e Hd Hk Ed Er|d' e Hd h Hp Ed Er
                 |d' cl Hd h Hp Hcl Hne Ed Er]; subst d.
  - cbn. split; [now apply Q_plain|exact I].
  - cbn. repeat split; now apply Q_plain.
  - apply always_nil_inv.
    apply opened_targets_always with (o := Some e); auto.
    now intros e0 [= ->].
  - rewrite app_assoc. apply always_app.
    + now apply opened_committed_always.
    + cbn. split; [now apply Q_plain|exact I].
  - apply always_app.
    + now apply pushed_always.
    + cbn. split; [|exact I]. apply Q_push; auto.
      now intros e0 [= ->].
  - apply always_app.
    + now apply pushed_always.
    + cbn. split; [|exact I]. apply Q_publish; auto. eauto.
  - apply always_app.
    + now apply pushed_always.
    + cbn [app always]. split.
      * apply Q_publish; auto. intros -> Hb. now contradiction (Hne Hb).
      * destruct Hcl as [->|[path ->]]; [exact I|]. cbn.
        split; [now apply Q_plain|exact I].
Qed.

End Always.

Section RunAlways.

Variable w : World.
Variables (url allBranches repo number : string).
Variables (info : Info) (commits : list CommitData).

Local Notation "'branches'" := (split_spaces allBranches).
Local Notation "'run'" := (handler w url allBranches).
Local Notation "'branch'" := (branch_of number info).
Local Notation "'start'" := (prelude repo number info commits).

Hypothesis run_fetched : fetched w url repo number info commits.

Variable Q : Trace -> Event -> Trace -> Prop.

Hypothesis Q_plain : forall p e q, plain e = true -> Q p e q.

Hypothesis Q_ok :
  forall t seg h rest,
    nth_error branches (length (apply_errors h)) = Some t ->
    target_ok w repo number info commits t seg ->
    always (fun p e q => Q p e (q ++ rest)) h seg.

Hypothesis Q_failed :
  forall t seg e h,
    nth_error branches (length (apply_errors h)) = Some t ->
    target_fail w repo number info commits t seg e ->
    outcome run = Emitted e ->
    always Q h seg.

Hypothesis Q_push :
  forall d k t r rest,
    targets_run w repo number info commits branches d None ->
    nth_error branches k = Some t ->
    (forall e, r = Fail e -> rest = [] /\ outcome run = Emitted e) ->
    Q (start ++ pushed w repo number branches info d k)
      (EPush (refspec (branch t)) r) rest.

Hypothesis Q_publish :
  forall d cl,
    targets_run w repo number info commits branches d None ->
    (cl = [] \/ exists path, cl = [ECleanupTmp path]) ->
    let h := start ++ pushed w repo number branches info d (length branches) in
    Q h (EPublish (map fst (published w number branches info commits h))) cl.

(** Every call of a run has the property, once each kind of call has it
    where it can occur. *)
Lemma run_always : always Q [] (main run).
Proof.
  destruct (includes branches (base_ref info)) eqn:Hb.
  { destruct (@handler_invalid w url allBranches repo number info commits
                run_fetched (or_introl Hb)) as (Hm & _).
    rewrite Hm. cbn. repeat split; now apply Q_plain. }
  destruct (merged info) eqn:Hmg.
  2:{ destruct (@handler_invalid w url allBranches repo number info commits
                  run_fetched (or_intror Hmg)) as (Hm & _).
      rewrite Hm. cbn. repeat split; now apply Q_plain. }
  destruct (@handler_valid w url allBranches repo number info commits
              run_fetched Hb Hmg) as (d & res & Hm & Hc & Ho & _).
  rewrite Hm. apply always_app.
  - cbn. repeat split; now apply Q_plain.
  - cbn [app]. apply (@chain_always w repo number branches info commits Q
                        start res); auto.
    + intros t seg e h Hn Hf Hr. apply (@Q_failed t seg e h Hn Hf).
      now rewrite Ho, Hr.
    + intros d' k t r rest Hd Hk Hr. apply Q_push; auto.
      intros e He. destruct (Hr e He) as [-> Hres]. split; [reflexivity|].
      now rewrite Ho, Hres.
Qed.

End RunAlways.

(** ** The commit of a target *)

Ltac steps :=
  unfold ready, patched, checked_out, commit_call in *; cbn [app always];
  repeat match goal with |- _ /\ _ => split end; try exact I.



(** ** The patch of a target *)

Lemma errors_before_patch h (number : string) (info : Info) t c :
  apply_errors (((h ++ [EGetReferenceCommit ("origin/" ++ t) (Ok c)])
                   ++ [ECreateBranch (branch_of number info t) c (Ok tt)])
                  ++ [ECheckoutBranch (branch_of number info t) (Ok tt)])
  = apply_errors h.
Proof. rewrite !apply_errors_app. cbn. now rewrite !app_nil_r. Qed.

Lemma patch_always (w : World) (url allBranches repo number : string)
      (info : Info) (commits : list CommitData) :
  fetched w url repo number info commits ->
  always (patch_handled number (split_spaces allBranches) info
                        (outcome (handler w url allBranches)))
         [] (main (handler w url allBranches)).
Proof.
  intros Hf. eapply run_always; [exact Hf| | | | |].
  - intros p e q He; red; intros; subst e; discriminate.
  - intros t seg h rest Hn Hok. destruct Hok as [c path err ? ? ? ? _ Ha].
    steps.
    all: try (red; intros; discriminate).
    intros path' cwd m [= <- <- ->]. exists t, c, h.
    rewrite errors_before_patch.
    split; [exact Hn|]. split; [now rewrite <- !app_assoc|].
    cbn in Ha. split; [intros _; cbn; eauto|congruence].
  - intros t seg e h Hn Hf' Ho.
    destruct Hf' as [ | | | | c path m Hm
                     | c path err e Ha | c path err e Ha | c path err e Ha
                     | c path err e Ha | c path err ? e ? Ha
                     | c path err ? ? e Ha | c path err ? ? ? e Ha]; steps.
    all: try (red; intros; discriminate).
    all: intros path' cwd m' E; injection E as <- <- E; exists t, c, h.
    all: rewrite errors_before_patch.
    all: split; [exact Hn|]; split; [now rewrite <- !app_assoc|].
    1:{ subst m'. split; [congruence|]. now split. }
    all: subst err; cbn in Ha; split; [intros _; cbn; eauto|congruence].
  - red; intros; discriminate.
  - red; intros; discriminate.
Qed.

Lemma marks_In ts errs k t m :
  nth_error ts k = Some t ->
  nth_error errs k = Some (Some m) ->
  CONFLICTS_REGEX_test m = true ->
  In t (marks ts errs).
Proof.
  revert errs k. induction ts as [|t' ts IH]; intros [|err errs] [|k] Ht He Hm;
    try discriminate; cbn in *.
  - injection Ht as ->. injection He as ->. cbn. rewrite Hm. now left.
  - apply in_or_app. right. eapply IH; eassumption.
Qed.

Lemma marks_In_inv ts errs t :
  In t (marks ts errs) ->
  exists k m,
    nth_error ts k = Some t
    /\ nth_error errs k = Some (Some m)
    /\ CONFLICTS_REGEX_test m = true.
Proof.
  revert errs. induction ts as [|t' ts IH]; intros [|err errs] H;
    cbn in H; try contradiction.
  apply in_app_or in H. destruct H as [H|H].
  - destruct err as [m|]; cbn in H; [|contradiction].
    destruct (CONFLICTS_REGEX_test m) eqn:Hm; [|contradiction].
    destruct H as [<-|[]]. now exists 0, m.
  - destruct (IH _ H) as (k & m & Hk & He & Hm). now exists (S k), m.
Qed.

(** [branchesWithConflicts], at the end of a run, holds the targets whose
    patch reported the conflict. *)
Lemma run_marks (w : World) (url allBranches repo number : string)
      (info : Info) (commits : list CommitData) :
  fetched w url repo number info commits ->
  branchesWithConflicts (final (handler w url allBranches))
  = marks (split_spaces allBranches)
          (apply_errors (main (handler w url allBranches))).
Proof.
  intros Hf.
  destruct (includes (split_spaces allBranches) (base_ref info)) eqn:Hb.
  { destruct (@handler_invalid w url allBranches repo number info commits
                Hf (or_introl Hb)) as (Hm & _ & _ & Hc).
    rewrite Hm, Hc. cbn. now destruct (split_spaces allBranches). }
  destruct (merged info) eqn:Hmg.
  2:{ destruct (@handler_invalid w url allBranches repo number info commits
                  Hf (or_intror Hmg)) as (Hm & _ & _ & Hc).
      rewrite Hm, Hc. cbn. now destruct (split_spaces allBranches). }
  destruct (@handler_valid w url allBranches repo number info commits
              Hf Hb Hmg) as (d & res & Hm & _ & _ & Hc & _).
  now rewrite Hm, Hc.
Qed.

(** A [git apply] that reports an error [m] is the patch of a target
    [t], on the branch just created and checked out for it.  When [m] is
    the conflict report, [t] is recorded in [branchesWithConflicts] and
    the chain goes on with [repo.index()].  With any other error no call
    follows, for this target or any other, and the run ends by emitting
    [m]. *)
Lemma patch_handled_at
        (w : World) (url allBranches repo number : string)
        (info : Info) (commits : list CommitData) (pre post : Trace)
        (path cwd m : string) :
  fetched w url repo number info commits ->
  main (handler w url allBranches) = pre ++ EApply path cwd (Some m) :: post ->
  exists t c pre',
    nth_error (split_spaces allBranches) (length (apply_errors pre)) = Some t
    /\ pre = pre' ++ checked_out number info t c
    /\ (CONFLICTS_REGEX_test m = true ->
        In t (branchesWithConflicts (final (handler w url allBranches)))
        /\ exists ri post', post = EIndex ri :: post')
    /\ (CONFLICTS_REGEX_test m = false ->
        post = [] /\ outcome (handler w url allBranches) = Emitted m).
Proof.
  intros Hf Hm.
  destruct (always_split _ _ (patch_always allBranches Hf) _ _ _ Hm
                         _ _ _ eq_refl)
    as (t & c & pre' & Hn & Hp & Hyes & Hno).
  exists t, c, pre'. split; [exact Hn|]. split; [exact Hp|].
  split; [|exact Hno].
  intros Hc. split; [|now apply Hyes].
  rewrite (run_marks allBranches Hf), Hm.
  eapply marks_In; [exact Hn| |exact Hc].
  rewrite apply_errors_app. cbn.
  now rewrite nth_error_app2, Nat.sub_diag by lia.
Qed.

(** ** Staging and labels *)

Lemma staged_always (w : World) (url allBranches repo number : string)
      (info : Info) (commits : list CommitData) :
  fetched w url repo number info commits ->
  always patch_staged [] (main (handler w url allBranches)).
Proof.
  intros Hf. eapply run_always; [exact Hf| | | | |].
  - intros p e q He; red; intros; subst e; discriminate.
  - intros t seg h rest Hn Hok. destruct Hok. steps.
    all: try (red; intros; discriminate).
    intros path' cwd err' _ _. reflexivity.
  - intros t seg e h Hn Hf' Ho. destruct Hf'; steps.
    all: try (red; intros; discriminate).
    all: intros path' cwd err' [= <- <- <-] Ha; try reflexivity.
    cbn in Ha. congruence.
  - red; intros; discriminate.
  - red; intros; discriminate.
Qed.

Lemma includes_In xs x : includes xs x = true <-> In x xs.
Proof.
  unfold includes. rewrite existsb_exists. split.
  - intros (y & Hy & E). apply String.eqb_eq in E. now subst.
  - intros H. exists x. split; [exact H|apply String.eqb_refl].
Qed.

Section Publishing.

Variable w : World.
Variables (repo number : string) (branches : list string).
Variables (info : Info) (commits : list CommitData).

Local Notation "'publish_one'" := (publishTarget w number info commits).

Lemma publishFrom_nth h c ts j i t :
  nth_error ts i = Some t ->
  nth_error (map fst (publishFrom w number info commits h c j ts)) i
  = Some (fst (publish_one h c (j + i) t)).
Proof.
  revert j i. induction ts as [|t' ts IH]; intros j [|i] H; try discriminate.
  - injection H as ->. cbn. now rewrite Nat.add_0_r.
  - cbn [publishFrom map nth_error]. rewrite (IH (S j) i H).
    do 3 f_equal. lia.
Qed.


Lemma publish_one_calls h c i t :
  published_target number info commits t (fst (publish_one h c i t)).
Proof.
  unfold publishTarget, published_target.
  destruct (createIssue w h i _) as [n|e] eqn:E; cbn [fst].
  - eexists _, (Ok n), _. split; [reflexivity|]. cbn.
    repeat split.
    + destruct (includes c t); auto.
    + intros; discriminate.
    + intros n' [= <-]. eexists. reflexivity.
  - eexists _, (Fail e), _. split; [reflexivity|]. cbn.
    repeat split.
    + destruct (includes c t); auto.
    + intros; discriminate.
Qed.

Lemma publish_one_labels h c i t params ri then_ :
  fst (publish_one h c i t) = PCreateIssue params ri :: then_ ->
  (In "has conflicts" (labels params) <-> In t c).
Proof.
  unfold publishTarget.
  assert (Hl : In "has conflicts"
                  ("backport" ::
                     if includes c t then ["has conflicts"] else [])
               <-> In t c).
  { rewrite <- (includes_In c t). destruct (includes c t); cbn.
    - split; [intros _; reflexivity|]. intros _. right. now left.
    - split; [intros [H|[]]|]; discriminate. }
  destruct (createIssue w h i _) as [n|e]; cbn [fst]; intros [= <- _ _];
    exact Hl.
Qed.

End Publishing.

Lemma labels_always (w : World) (url allBranches repo number : string)
      (info : Info) (commits : list CommitData) :
  fetched w url repo number info commits ->
  always (labelled_by_conflict (split_spaces allBranches))
         [] (main (handler w url allBranches)).
Proof.
  intros Hf. eapply run_always; [exact Hf| | | | |].
  - intros p e q He; red; intros; subst e; discriminate.
  - intros t seg h rest Hn Hok. destruct Hok. steps.
    all: red; intros; discriminate.
  - intros t seg e h Hn Hf' Ho. destruct Hf'; steps.
    all: red; intros; discriminate.
  - red; intros; discriminate.
  - intros d cl Hd Hcl h per_target i t params ri then_ [= <-] Hi Hn.
    unfold published in Hn. erewrite publishFrom_nth in Hn by exact Hi.
    injection Hn as Hn. apply publish_one_labels in Hn. rewrite Hn.
    split.
    + apply marks_In_inv.
    + intros (k & m & Hk & He & Hm). eapply marks_In; eassumption.
Qed.

(** A patch that went through, cleanly or with the conflict report, is
    followed by [repo.index()] and, each step provided the one before
    succeeded, by [index.addAll('.')], [index.write()] and
    [index.writeTree()].  And in the publishing, the issue of a target
    carries the label ["has conflicts"] exactly when a patch for that
    target reported the conflict: the patch of a position that names the
    target, which is the position of the issue when no target is named
    twice. *)
Lemma staged_and_labelled_at
        (w : World) (url allBranches repo number : string)
        (info : Info) (commits : list CommitData) :
  fetched w url repo number info commits ->
  (forall pre path cwd err post,
      main (handler w url allBranches) = pre ++ EApply path cwd err :: post ->
      applied err = true ->
      staged_then post)
  /\ (forall pre per_target post i t params ri then_,
        main (handler w url allBranches) = pre ++ EPublish per_target :: post ->
        nth_error (split_spaces allBranches) i = Some t ->
        nth_error per_target i = Some (PCreateIssue params ri :: then_) ->
        (In "has conflicts" (labels params)
         <-> exists k m,
               nth_error (split_spaces allBranches) k = Some t
               /\ nth_error (apply_errors pre) k = Some (Some m)
               /\ CONFLICTS_REGEX_test m = true)
        /\ (NoDup (split_spaces allBranches) ->
            (In "has conflicts" (labels params)
             <-> exists m,
                   nth_error (apply_errors pre) i = Some (Some m)
                   /\ CONFLICTS_REGEX_test m = true))).
Proof.
  intros Hf. split.
  - intros pre path cwd err post Hm Ha.
    exact (always_split _ _ (staged_always allBranches Hf) _ _ _ Hm
                        _ _ _ eq_refl Ha).
  - intros pre per_target post i t params ri then_ Hm Hi Hn.
    assert (Hl := always_split _ _ (labels_always allBranches Hf) _ _ _ Hm
                               _ _ _ _ _ _ eq_refl Hi Hn).
    split; [exact Hl|]. intros Hnd. rewrite Hl. split.
    + intros (k & m & Hk & He & Ht). exists m. split; [|exact Ht].
      rewrite NoDup_nth_error in Hnd.
      assert (E : i = k).
      { apply Hnd; [|congruence].
        apply nth_error_Some. congruence. }
      now subst k.
    + intros (m & He & Ht). now exists i, m.
Qed.

(** ** Pushes and publishing *)

Section Pushing.

Variable w : World.
Variables (repo number : string) (branches : list string).
Variables (info : Info) (commits : list CommitData).

Local Notation "'ok'" := (target_ok w repo number info commits).
Local Notation "'failed'" := (target_fail w repo number info commits).
Local Notation "'targets'" := (targets_run w repo number info commits).
Local Notation "'start'" := (prelude repo number info commits).
Local Notation "'pushed_to'" := (pushed w repo number branches info).

Lemma targets_pushes ts d o : targets ts d o -> pushes d = [].
Proof.
  induction 1 as [|t ts d d' o Hok _ IH|t ts d e Hf].
  - reflexivity.
  - rewrite pushes_app, IH. now destruct Hok.
  - now destruct Hf.
Qed.

Lemma targets_commits ts d :
  targets ts d None ->
  commit_messages d = map (message_of number commits) ts.
Proof.
  remember None as o eqn:Ho. induction 1 as [|t ts d d' o Hok _ IH|];
    [reflexivity| |discriminate].
  rewrite commit_messages_app, (IH Ho). now destruct Hok.
Qed.

Lemma pushes_of_pushed l :
  pushes (map (push_ok number info) l) = map (pushed_branch number info) l.
Proof. induction l as [|t l IH]; cbn; [reflexivity|now rewrite IH]. Qed.

Lemma commits_of_pushed l :
  commit_messages (map (push_ok number info) l) = [].
Proof. induction l as [|t l IH]; cbn; [reflexivity|exact IH]. Qed.

Lemma pushes_before d k :
  targets branches d None ->
  pushes (start ++ pushed_to d k)
  = map (pushed_branch number info) (firstn k branches).
Proof.
  intros Hd. unfold pushed. rewrite !pushes_app, (targets_pushes Hd).
  now rewrite pushes_of_pushed.
Qed.

Lemma commits_before d k :
  targets branches d None ->
  commit_messages (start ++ pushed_to d k)
  = map (message_of number commits) branches.
Proof.
  intros Hd. unfold pushed.
  rewrite !commit_messages_app, (targets_commits Hd), commits_of_pushed.
  cbn. now rewrite app_nil_r.
Qed.

End Pushing.





(** ** Derived branches *)

Section Branches.

Variable w : World.
Variables (repo number : string) (branches : list string).
Variables (info : Info) (commits : list CommitData).

Local Notation "'branch'" := (branch_of number info).
Local Notation "'targets'" := (targets_run w repo number info commits).

Lemma targets_created ts d o :
  targets ts d o ->
  exists k,
    created_branches d = map branch (firstn k ts)
    /\ (o = None -> created_branches d = map branch ts).
Proof.
  induction 1 as [|t ts d d' o Hok _ IH|t ts d e Hf].
  - now exists 0.
  - destruct IH as (k & Hk & Hall). exists (S k).
    rewrite created_branches_app. destruct Hok. cbn. split.
    + now rewrite Hk.
    + intros Ho. now rewrite (Hall Ho).
  - destruct Hf; cbn; ((exists 0; now split) || (exists 1; now split)).
Qed.

Lemma created_of_pushed l :
  created_branches (map (push_ok number info) l) = [].
Proof. induction l as [|t l IH]; cbn; [reflexivity|exact IH]. Qed.

Lemma chain_created h0 d res :
  chain_run w repo number branches info commits h0 d res ->
  exists k,
    created_branches d = map branch (firstn k branches)
    /\ (forall text, res = Ok text ->
                     created_branches d = map branch branches).
Proof.
  intros H.
  inversion H as [e Ed Er|e Ed Er|d' e Hd Ed Er|d' e Hd Ed Er
                 |d' k t e Hd Hk Ed Er|d' e Hd h Hp Ed Er
                 |d' cl Hd h Hp Hcl Hne Ed Er]; subst d res;
    try (destruct (targets_created Hd) as (k' & Hk' & Hall));
    unfold pushed;
    rewrite ?created_branches_app, ?created_of_pushed;
    cbn [created_branches opened app]; try rewrite !app_nil_r.
  - now exists 0.
  - now exists 0.
  - exists k'. now rewrite Hk'.
  - exists k'. now rewrite Hk'.
  - exists k'. now rewrite Hk'.
  - exists k'. now rewrite Hk'.
  - assert (Ecl : created_branches cl = []).
    { destruct Hcl as [->|[path ->]]; reflexivity. }
    rewrite Ecl, ?app_nil_r. exists k'. split; [exact Hk'|].
    intros _ _. now apply Hall.
Qed.

End Branches.

(** C1, as the code has it.  The branches a run has created are the
    derived branches of a leading part of the list of targets, one per
    target and in order; when the run ends with the report, they are
    those of all the targets.  The derived branch of target [t] is named
    [jasper/backport/<number>-<t>-<head ref>], a function of the number,
    the target and the head ref alone. *)
Theorem one_branch_per_target
        (w : World) (url allBranches repo number : string)
        (info : Info) (commits : list CommitData) :
  fetched w url repo number info commits ->
  let run := handler w url allBranches in
  let derived t :=
    ("jasper/backport/" ++ number ++ "-" ++ t ++ "-" ++ head_ref info)%string
  in
  (exists k, created_branches (main run)
             = map derived (firstn k (split_spaces allBranches)))
  /\ (forall text,
        outcome run = Sent text ->
        created_branches (main run) = map derived (split_spaces allBranches)).
Proof.
  intros Hf run derived. subst run.
  destruct (includes (split_spaces allBranches) (base_ref info)) eqn:Hb.
  { destruct (@handler_invalid w url allBranches repo number info commits
                Hf (or_introl Hb)) as (Hm & _ & Ho & _).
    rewrite Hm, Ho. split; [now exists 0|discriminate]. }
  destruct (merged info) eqn:Hmg.
  2:{ destruct (@handler_invalid w url allBranches repo number info commits
                  Hf (or_intror Hmg)) as (Hm & _ & Ho & _).
      rewrite Hm, Ho. split; [now exists 0|discriminate]. }
  destruct (@handler_valid w url allBranches repo number info commits
              Hf Hb Hmg) as (d & res & Hm & Hc & Ho & _).
  destruct (chain_created Hc) as (k & Hk & Hall).
  rewrite Hm, Ho, created_branches_app. cbn [created_branches prelude app].
  split; [now exists k|].
  intros text Hs. destruct res as [text'|e]; [|discriminate].
  now apply (Hall text').
Qed.

(** C1, as the specification words it, fails: in the sample run the
    branches created are not named [backport/<number>-<target>-<head>]. *)
Lemma derived_branch_name_differs :
  outcome clean_run
  = Sent "Backported pull request #42 to release-1.0, release-2.0"
  /\ created_branches (main clean_run)
     = [ "jasper/backport/42-release-1.0-feature-x";
         "jasper/backport/42-release-2.0-feature-x" ]
  /\ created_branches (main clean_run)
     <> map (fun t => spec_derivedBranchName "42" t "feature-x")
            (split_spaces sample_targets).
Proof.
  vm_compute. split; [reflexivity|]. split; [reflexivity|discriminate].
Qed.

Lemma one_branch_per_target_witness :
  fetched clean_world sample_url "elastic/kibana" "42" sample_info
          sample_commits
  /\ created_branches (main clean_run)
     = map (fun t => ("jasper/backport/" ++ "42" ++ "-" ++ t ++ "-"
                        ++ head_ref sample_info)%string)
           (split_spaces sample_targets).
Proof.
  split; [repeat split|].
  destruct (@one_branch_per_target clean_world sample_url sample_targets
              "elastic/kibana" "42" sample_info sample_commits)
    as [_ Hall]; [repeat split|].
  apply (Hall "Backported pull request #42 to release-1.0, release-2.0").
  reflexivity.
Defined.

Lemma consolidated_message_blocks_witness :
  baseCommitMessage two_commits
  = ("[Commit 1]" ++ NL
       ++ "Fix bug" ++ NL
       ++ NL
       ++ "Original sha: abc123" ++ NL
       ++ "Authored by Ann <ann@x.com> on 2020-01-01" ++ NL
       ++ "Committed by Bob <bob@y.org> on 2020-01-02" ++ NL
       ++ NL
       ++ "[Commit 2]" ++ NL
       ++ "Add test" ++ NL
       ++ NL
       ++ "Original sha: def456" ++ NL
       ++ "Authored by Cy <cy@z.net> on 2020-01-03" ++ NL
       ++ "Committed by Ann <ann@x.com> on 2020-01-04")%string.
Proof.
  destruct (consolidated_message_blocks two_commits)
    as (blocks & Hj & Hl & Hn).
  destruct (Hn 0 _ eq_refl) as (i1 & _ & U1 & B1).
  destruct (Hn 1 _ eq_refl) as (i2 & _ & U2 & B2).
  rewrite <- (U1 "1" eq_refl) in B1. rewrite <- (U2 "2" eq_refl) in B2.
  destruct blocks as [|b1 [|b2 [|b3 blocks]]]; try discriminate.
  cbn in B1, B2. injection B1 as ->. injection B2 as ->.
  rewrite Hj. reflexivity.
Defined.




(** ** The temporary file *)

Lemma split_spaces_aux_nonempty s cur in_sep :
  split_spaces_aux s cur in_sep <> [].
Proof.
  revert cur in_sep. induction s as [|a s IH]; intros cur in_sep; cbn.
  - discriminate.
  - destruct (is_space a); [destruct in_sep|]; try apply IH; discriminate.
Qed.

(** [split] returns at least one branch. *)
Lemma split_spaces_nonempty s : split_spaces s <> [].
Proof. apply split_spaces_aux_nonempty. Qed.

Lemma targets_cleanups (w : World) (repo number : string) (info : Info)
      (commits : list CommitData) ts d o :
  targets_run w repo number info commits ts d o -> cleanups d = [].
Proof.
  induction 1 as [|t ts d d' o Hok _ IH|t ts d e Hf].
  - reflexivity.
  - rewrite cleanups_app, IH. now destruct Hok.
  - now destruct Hf.
Qed.

Lemma cleanups_of_pushed (number : string) (info : Info) l :
  cleanups (map (push_ok number info) l) = [].
Proof. induction l as [|t l IH]; cbn; [reflexivity|exact IH]. Qed.

Lemma chain_cleanups (w : World) (repo number : string)
      (branches : list string) (info : Info) (commits : list CommitData)
      h0 d res :
  chain_run w repo number branches info commits h0 d res ->
  branches <> [] ->
  (cleanups d <> [] <-> exists text, res = Ok text).
Proof.
  intros H Hb.
  inversion H as [e Ed Er|e Ed Er|d' e Hd Ed Er|d' e Hd Ed Er
                 |d' k t e Hd Hk Ed Er|d' e Hd h Hp Ed Er
                 |d' cl Hd h Hp Hcl Hne Ed Er]; subst d res;
    unfold pushed;
    rewrite ?cleanups_app, ?cleanups_of_pushed,
            ?(targets_cleanups Hd); cbn [cleanups opened app].
  1-6: split; [intros C; now contradiction C|intros [text C]; discriminate].
  split; [eauto|]. intros _.
  destruct Hcl as [->|[path ->]]; [now contradiction (Hne Hb)|discriminate].
Qed.

(** The [cleanup] of the temporary file is called on the success path,
    and on no other. *)
Lemma cleanup_only_on_success
      (w : World) (url allBranches repo number : string)
      (info : Info) (commits : list CommitData) :
  fetched w url repo number info commits ->
  (cleanups (main (handler w url allBranches)) <> []
   <-> exists text, outcome (handler w url allBranches) = Sent text).
Proof.
  intros Hf.
  destruct (includes (split_spaces allBranches) (base_ref info)) eqn:Hb.
  { destruct (@handler_invalid w url allBranches repo number info commits
                Hf (or_introl Hb)) as (Hm & _ & Ho & _).
    rewrite Hm, Ho.
    split; [intros C; now contradiction C|intros [text C]; discriminate]. }
  destruct (merged info) eqn:Hmg.
  2:{ destruct (@handler_invalid w url allBranches repo number info commits
                  Hf (or_intror Hmg)) as (Hm & _ & Ho & _).
      rewrite Hm, Ho.
      split; [intros C; now contradiction C|intros [text C]; discriminate]. }
  destruct (@handler_valid w url allBranches repo number info commits
              Hf Hb Hmg) as (d & res & Hm & Hc & Ho & _).
  rewrite Hm, Ho, cleanups_app. cbn [cleanups prelude app].
  rewrite (chain_cleanups Hc (@split_spaces_nonempty allBranches)).
  destruct res as [text|e]; cbn.
  - split; intros _; eauto.
  - split; intros [text C]; discriminate.
Qed.

(** C3 fails on the code.  [git apply] fails on a corrupt patch for the
    first target: the diff was downloaded and written to the temporary
    file, [cleanupTmp] holds its [cleanup], the run ends by emitting the
    error, and [cleanup] has not been called. *)
Theorem diff_file_left_on_fatal_error :
  staging corrupt_run
  = [ DRequestGet "https://github.com/elastic/kibana/pull/42.diff"
                  (Ok "diff --git a/x b/x");
      DTmpFile "jasper-" (Ok "/tmp/jasper-1");
      DWriteFile "/tmp/jasper-1" "diff --git a/x b/x" (Ok tt) ]
  /\ cleanupTmp (final corrupt_run) = Some "/tmp/jasper-1"
  /\ outcome corrupt_run = Emitted "error: corrupt patch at line 7"
  /\ cleanups (main corrupt_run) = [].
Proof. vm_compute. repeat split. Qed.

(** ** The arguments of the command *)

(** X1. When the URL matches [PR_URL_REGEX], it is rebuilt from the two
    captures: [https://github], one character that is not a line
    terminator, [com/], the captured [repo], [/pull/] and the captured
    [number].  The [repo] is an owner and a name, neither empty nor with
    a slash, around one slash; the [number] is a non-empty string of
    digits, kept as written. *)
Theorem pr_url_captures (url repo number : string) :
  PR_URL_REGEX_match url = Some (repo, number) ->
  (exists dot,
     is_line_terminator dot = false
     /\ url = ("https://github"
                 ++ String dot ("com/" ++ repo ++ "/pull/" ++ number))%string)
  /\ (exists owner name,
        repo = (owner ++ "/" ++ name)%string
        /\ owner <> EmptyString /\ all_chars not_slash owner = true
        /\ name <> EmptyString /\ all_chars not_slash name = true)
  /\ number <> EmptyString
  /\ all_chars is_digit number = true.
Proof.
  intros H.
  apply PR_URL_REGEX_sound in H
    as (dot & owner & name & -> & -> & Hd & Ho & Hao & Hn & Han & Hnum & Hdig).
  split.
  { exists dot. split; [exact Hd|]. unfold pr_url.
    now rewrite (string_app_assoc owner). }
  split; [|now split].
  exists owner, name. now repeat split.
Qed.

Lemma pr_url_captures_witness :
  PR_URL_REGEX_match "https://github.com/elastic/kibana/pull/042"
  = Some ("elastic/kibana", "042")
  /\ all_chars is_digit "042" = true.
Proof.
  split; [reflexivity|].
  apply (@pr_url_captures "https://github.com/elastic/kibana/pull/042"
           "elastic/kibana" "042").
  reflexivity.
Defined.

Lemma all_chars_app f a b :
  all_chars f (a ++ b)%string = all_chars f a && all_chars f b.
Proof.
  induction a as [|x a IH]; cbn; [reflexivity|].
  now rewrite IH, andb_assoc.
Qed.

Lemma snoc_char_not_empty cur a : snoc_char cur a <> EmptyString.
Proof. destruct cur; discriminate. Qed.

Lemma split_spaces_aux_no_space s cur in_sep :
  no_space cur = true ->
  Forall (fun t => no_space t = true) (split_spaces_aux s cur in_sep).
Proof.
  revert cur in_sep. induction s as [|a s IH]; intros cur in_sep Hc; cbn.
  - now constructor.
  - destruct (is_space a) eqn:Ea.
    + destruct in_sep; [now apply IH|].
      constructor; [exact Hc|now apply IH].
    + apply IH. unfold no_space, snoc_char in *.
      rewrite all_chars_app, Hc. cbn. now rewrite Ea.
Qed.

Lemma removelast_cons (A : Type) (x : A) l :
  l <> [] -> removelast (x :: l) = x :: removelast l.
Proof. destruct l; [intros C; now contradiction C|reflexivity]. Qed.

Lemma split_spaces_aux_inner s :
  Forall (fun t => t <> EmptyString)
         (removelast (split_spaces_aux s EmptyString true))
  /\ forall cur in_sep,
       cur <> EmptyString ->
       Forall (fun t => t <> EmptyString)
              (removelast (split_spaces_aux s cur in_sep)).
Proof.
  induction s as [|a s [IHa IHb]].
  - split; intros; constructor.
  - split; [|intros cur in_sep Hc]; cbn [split_spaces_aux];
      destruct (is_space a).
    + exact IHa.
    + apply IHb, snoc_char_not_empty.
    + destruct in_sep; [exact IHa|].
      rewrite removelast_cons by apply split_spaces_aux_nonempty.
      now constructor.
    + apply IHb, snoc_char_not_empty.
Qed.

Lemma removelast_tl (A : Type) (P : A -> Prop) l :
  Forall P (removelast l) -> Forall P (removelast (tl l)).
Proof.
  destruct l as [|x [|y l]]; cbn [tl]; try (intros; now constructor).
  rewrite removelast_cons by discriminate. apply Forall_inv_tail.
Qed.

Lemma split_spaces_aux_plain s cur in_sep :
  no_space s = true ->
  split_spaces_aux s cur in_sep = [(cur ++ s)%string].
Proof.
  revert cur in_sep. induction s as [|a s IH]; intros cur in_sep; cbn.
  - now rewrite string_app_nil.
  - intros H. apply andb_true_iff in H. destruct H as [Ha Hs].
    apply negb_true_iff in Ha. rewrite Ha, (IH _ _ Hs).
    now rewrite snoc_char_app.
Qed.

Lemma concat_cons (x : string) l :
  l <> [] ->
  String.concat EmptyString (x :: l)
  = (x ++ String.concat EmptyString l)%string.
Proof. destruct l; [intros C; now contradiction C|reflexivity]. Qed.

Lemma split_spaces_aux_concat s cur in_sep :
  (in_sep = true -> cur = EmptyString) ->
  String.concat EmptyString (split_spaces_aux s cur in_sep)
  = (cur ++ strip_spaces s)%string.
Proof.
  revert cur in_sep. induction s as [|a s IH]; intros cur in_sep Hc; cbn.
  - now rewrite string_app_nil.
  - destruct (is_space a).
    + destruct in_sep.
      * rewrite (Hc eq_refl). now apply IH.
      * rewrite concat_cons by apply split_spaces_aux_nonempty.
        now rewrite IH.
    + rewrite IH by discriminate. now rewrite snoc_char_app.
Qed.

(** X2. The branches that [allBranches.split(/\s+/)] gives.  There is at
    least one; none holds white space; put together they are the
    characters of [allBranches] that are not white space, in order; only
    the first and the last can be the empty string; and an argument
    without white space is one branch, itself. *)
Theorem split_spaces_names (allBranches : string) :
  let branches := split_spaces allBranches in
  branches <> []
  /\ Forall (fun t => no_space t = true) branches
  /\ String.concat EmptyString branches = strip_spaces allBranches
  /\ Forall (fun t => t <> EmptyString) (removelast (tl branches))
  /\ (no_space allBranches = true -> branches = [allBranches]).
Proof.
  cbv zeta. unfold split_spaces.
  split; [apply split_spaces_aux_nonempty|].
  split; [now apply split_spaces_aux_no_space|].
  split; [now rewrite split_spaces_aux_concat|].
  split; [|now apply split_spaces_aux_plain].
  destruct allBranches as [|a s]; cbn [split_spaces_aux];
    [constructor|].
  destruct (is_space a); cbn [tl].
  - exact (proj1 (split_spaces_aux_inner s)).
  - apply removelast_tl, (proj2 (split_spaces_aux_inner s)),
      snoc_char_not_empty.
Qed.

Lemma split_spaces_names_witness :
  no_space "release-1.0" = true
  /\ split_spaces "release-1.0" = ["release-1.0"].
Proof.
  split; [reflexivity|].
  apply (split_spaces_names "release-1.0"). reflexivity.
Defined.

(** ** The conflict report *)

Lemma upper_nil a : upper a = EmptyString -> a = EmptyString.
Proof. destruct a; [reflexivity|discriminate]. Qed.

(** Literals under the [i] flag take a text equal to them up to case. *)
Lemma match_litsI b l p s :
  match_items b (litsI l ++ p) s <> None
  <-> exists a rest,
        s = (a ++ rest)%string /\ upper a = upper l
        /\ match_items b p rest <> None.
Proof.
  revert s. induction l as [|x l IH]; intros s.
  - cbn [litsI list_ascii_of_string map app]. split.
    + intros H. now exists EmptyString, s.
    + intros (a & rest & -> & Ha & H). apply upper_nil in Ha. now subst a.
  - cbn [litsI list_ascii_of_string map app]. fold (litsI l).
    destruct s as [|c s].
    + split; [intros C; now contradiction C|].
      intros ([|c a] & rest & E & Ha & _); discriminate.
    + rewrite match_one. cbn [cc_test].
      destruct (Ascii.eqb_spec (ascii_upper x) (ascii_upper c)) as [Ec|Ec].
      * split.
        -- intros H.
           destruct (match_items b (litsI l ++ p) s) eqn:Em;
             [|now contradiction H].
           assert (Hm : match_items b (litsI l ++ p) s <> None)
             by (rewrite Em; discriminate).
           apply IH in Hm. destruct Hm as (a & rest & -> & Ha & Hr).
           exists (String c a), rest. cbn. now rewrite Ha, Ec.
        -- intros ([|c' a] & rest & E & Ha & Hr); [discriminate|].
           cbn in E, Ha. injection E as <- ->. injection Ha as _ Ha.
           assert (Hm : match_items b (litsI l ++ p) (a ++ rest) <> None)
             by (apply IH; now exists a, rest).
           destruct (match_items b (litsI l ++ p) (a ++ rest));
             [discriminate|now contradiction Hm].
      * split; [intros C; now contradiction C|].
        intros ([|c' a] & rest & E & Ha & _); [discriminate|].
        cbn in E, Ha. injection E as <- ->. injection Ha as Ha _.
        now contradiction Ec.
Qed.

(** [c+] takes a non-empty run of the class that the rest can follow. *)
Lemma plus_from_some k c s acc :
  plus_from k c s acc <> None
  <-> exists run rest,
        s = (run ++ rest)%string /\ run <> EmptyString
        /\ all_chars (cc_test c) run = true /\ k rest <> None.
Proof.
  revert acc. induction s as [|a s IH]; intros acc; cbn [plus_from].
  - split; [intros C; now contradiction C|].
    intros ([|x run] & rest & E & Hn & _); [now contradiction Hn|discriminate].
  - destruct (cc_test c a) eqn:Ea.
    + split.
      * intros H.
        destruct (plus_from k c s (snoc_char acc a)) eqn:Ep.
        -- assert (Hp : plus_from k c s (snoc_char acc a) <> None)
             by (rewrite Ep; discriminate).
           apply IH in Hp. destruct Hp as (run & rest & -> & _ & Hall & Hk).
           exists (String a run), rest. cbn. rewrite Ea, Hall.
           repeat split; [discriminate|exact Hk].
        -- exists (String a EmptyString), s. cbn. rewrite Ea.
           repeat split; [discriminate|].
           intros Hk. rewrite Hk in H. now contradiction H.
      * intros ([|x run] & rest & E & Hn & Hall & Hk);
          [now contradiction Hn|].
        cbn in E, Hall. injection E as <- ->.
        apply andb_true_iff in Hall. destruct Hall as [_ Hall].
        destruct (plus_from k c (run ++ rest) (snoc_char acc a)) eqn:Ep;
          [discriminate|].
        destruct run as [|y run].
        -- cbn. destruct (k rest); [discriminate|now contradiction Hk].
        -- exfalso. revert Ep. apply IH.
           exists (String y run), rest. repeat split; [discriminate|assumption|
                                                       exact Hk].
    + split; [intros C; now contradiction C|].
      intros ([|x run] & rest & E & Hn & Hall & _);
        [now contradiction Hn|].
      cbn in E, Hall. injection E as <- ->. rewrite Ea in Hall. discriminate.
Qed.

(** [r.test(s)]: the items of [r] match at the head of some suffix. *)
Lemma regex_test_some r s :
  regex_test r s = true
  <-> exists pre rest,
        s = (pre ++ rest)%string
        /\ match_items false (items_of r) rest <> None.
Proof.
  induction s as [|a s IH]; cbn [regex_test].
  - destruct (match_items false (items_of r) EmptyString) eqn:E.
    + split; [|reflexivity]. intros _. exists EmptyString, EmptyString.
      split; [reflexivity|]. rewrite E. discriminate.
    + split; [discriminate|].
      intros ([|x pre] & rest & Es & H); [|discriminate].
      cbn in Es. subst rest. now contradiction H.
  - destruct (match_items false (items_of r) (String a s)) eqn:E.
    + split; [|reflexivity]. intros _. exists EmptyString, (String a s).
      split; [reflexivity|]. rewrite E. discriminate.
    + rewrite IH. split.
      * intros (pre & rest & -> & H). now exists (String a pre), rest.
      * intros ([|x pre] & rest & Es & H).
        -- cbn in Es. subst rest. now contradiction H.
        -- injection Es as <- ->. now exists pre, rest.
Qed.

(** X3. Which messages of [git apply] count as the conflict report:
    [CONFLICTS_REGEX.test] holds exactly of the messages that contain, in
    any letter case, the text [applied patch to '], then at least one
    character and no line terminator, then the text [' with conflicts]. *)
Theorem conflict_report_shape (message : string) :
  CONFLICTS_REGEX_test message = true
  <-> exists pre a mid b post,
        message = (pre ++ a ++ mid ++ b ++ post)%string
        /\ upper a = "APPLIED PATCH TO '"
        /\ mid <> EmptyString /\ one_line mid = true
        /\ upper b = "' WITH CONFLICTS".
Proof.
  unfold CONFLICTS_REGEX_test. rewrite regex_test_some.
  change (items_of CONFLICTS_REGEX)
    with (litsI "applied patch to '"
            ++ Plus CDot :: litsI "' with conflicts" ++ []).
  split.
  - intros (pre & r1 & -> & H).
    apply match_litsI in H. destruct H as (a & r2 & -> & Ha & H).
    rewrite match_plus in H. apply plus_from_some in H.
    destruct H as (mid & r3 & -> & Hn & Hall & H).
    apply match_litsI in H. destruct H as (b & post & -> & Hb & _).
    exists pre, a, mid, b, post. now repeat split.
  - intros (pre & a & mid & b & post & -> & Ha & Hn & Hall & Hb).
    exists pre, (a ++ mid ++ b ++ post)%string. split; [reflexivity|].
    apply match_litsI. exists a, (mid ++ b ++ post)%string.
    split; [reflexivity|]. split; [exact Ha|].
    rewrite match_plus. apply plus_from_some.
    exists mid, (b ++ post)%string. split; [reflexivity|].
    split; [exact Hn|]. split; [exact Hall|].
    apply match_litsI. exists b, post. split; [reflexivity|].
    split; [exact Hb|discriminate].
Qed.

Lemma conflict_report_shape_witness :
  CONFLICTS_REGEX_test "error: APPLIED patch to 'a b' With Conflicts!" = true.
Proof.
  apply (conflict_report_shape
           "error: APPLIED patch to 'a b' With Conflicts!").
  exists "error: ", "APPLIED patch to '", "a b", "' With Conflicts", "!".
  repeat split. discriminate.
Defined.

(** ** Derived branches of different targets *)

Lemma string_app_length (a b : string) :
  String.length (a ++ b) = String.length a + String.length b.
Proof. induction a as [|x a IH]; cbn; [reflexivity|now rewrite IH]. Qed.

(** Equal texts with heads of equal length have equal heads. *)
Lemma string_app_same_head (a b c d : string) :
  String.length a = String.length b ->
  (a ++ c = b ++ d)%string -> a = b.
Proof.
  revert b. induction a as [|x a IH]; intros [|y b] Hl E;
    try discriminate; [reflexivity|].
  cbn in *. injection E as -> E. injection Hl as Hl.
  now rewrite (IH b Hl E).
Qed.

Lemma string_app_inv_head (l a b : string) :
  (l ++ a = l ++ b)%string -> a = b.
Proof. induction l as [|x l IH]; cbn; [auto|intros [= E]; auto]. Qed.

Lemma backportBranchName_inj number original t1 t2 :
  backportBranchName number original t1 = backportBranchName number original t2
  -> t1 = t2.
Proof.
  unfold backportBranchName. intros E.
  do 3 apply string_app_inv_head in E.
  assert (El := f_equal String.length E).
  rewrite !string_app_length in El.
  eapply string_app_same_head; [|exact E]. lia.
Qed.

Lemma refspec_inj b1 b2 : refspec b1 = refspec b2 -> b1 = b2.
Proof.
  unfold refspec. intros [= E].
  assert (El := f_equal String.length E).
  rewrite !string_app_length in El. cbn in El.
  eapply string_app_same_head; [|exact E]. lia.
Qed.

Lemma NoDup_map_injective (A B : Type) (f : A -> B) l :
  (forall x y, f x = f y -> x = y) -> NoDup l -> NoDup (map f l).
Proof.
  intros Hf. induction 1 as [|x l Hx _ IH]; cbn; constructor; [|exact IH].
  intros Hin. apply in_map_iff in Hin. destruct Hin as (y & E & Hy).
  apply Hf in E. now subst y.
Qed.

(** X4. For one pull request, [backportBranchName] gives different
    targets different branches, and the refspecs pushed for them differ
    too: when no target is listed twice, no derived branch and no pushed
    ref is named twice. *)
Theorem derived_branches_distinct
        (number original : string) (targets : list string) :
  NoDup targets ->
  NoDup (map (backportBranchName number original) targets)
  /\ NoDup (map refspec (map (backportBranchName number original) targets)).
Proof.
  intros H.
  assert (Hb : NoDup (map (backportBranchName number original) targets)).
  { apply NoDup_map_injective; [|exact H].
    intros x y. apply backportBranchName_inj. }
  split; [exact Hb|].
  apply NoDup_map_injective; [|exact Hb]. intros x y. apply refspec_inj.
Qed.

Lemma derived_branches_distinct_witness :
  NoDup (split_spaces sample_targets)
  /\ NoDup [ "jasper/backport/42-release-1.0-feature-x";
             "jasper/backport/42-release-2.0-feature-x" ].
Proof.
  assert (H : NoDup (split_spaces sample_targets)).
  { vm_compute. repeat constructor; cbn; intuition discriminate. }
  split; [exact H|].
  exact (proj1 (derived_branches_distinct "42" "feature-x" H)).
Defined.

(** ** The two fetches *)

(** X5. Once the URL has matched, [getInfo] and [getCommits] are both
    called, in that order and whatever the first answers, right after
    [github.repo] and [github.pr].  When one of them is rejected nothing
    else is called, on the main chain or for the diff, [cleanupTmp] is
    still the initial no-op, and the run ends by emitting the error of a
    rejected one. *)
Theorem metadata_failure_stops
        (w : World) (url allBranches repo number : string) :
  PR_URL_REGEX_match url = Some (repo, number) ->
  let run := handler w url allBranches in
  let asked := [EGithubRepo repo; EGithubPr repo number] in
  let ri := getInfo w asked in
  let rc := getCommits w (asked ++ [EGetInfo ri]) in
  (exists rest, main run = asked ++ [EGetInfo ri; EGetCommits rc] ++ rest)
  /\ (rejected ri <> None \/ rejected rc <> None ->
      main run = asked ++ [EGetInfo ri; EGetCommits rc]
      /\ staging run = []
      /\ cleanupTmp (final run) = None
      /\ exists e,
           outcome run = Emitted e
           /\ (rejected ri = Some e \/ rejected rc = Some e)).
Proof.
  intros Hm. cbv zeta. cbn [app].
  destruct (getInfo w [EGithubRepo repo; EGithubPr repo number])
    as [info|ei] eqn:Hi.
  - destruct (getCommits w [ EGithubRepo repo; EGithubPr repo number;
                             EGetInfo (Ok info) ]) as [commits|ec] eqn:Hc.
    + assert (Hf : fetched w url repo number info commits)
        by (repeat split; assumption).
      split; [|intros [C|C]; now contradiction C].
      destruct (includes (split_spaces allBranches) (base_ref info)) eqn:Hb.
      { destruct (@handler_invalid w url allBranches repo number info commits
                    Hf (or_introl Hb)) as (Hmain & _).
        exists []. exact Hmain. }
      destruct (merged info) eqn:Hmg.
      2:{ destruct (@handler_invalid w url allBranches repo number info
                      commits Hf (or_intror Hmg)) as (Hmain & _).
          exists []. exact Hmain. }
      destruct (@handler_valid w url allBranches repo number info commits
                  Hf Hb Hmg) as (d & res & Hmain & _).
      exists d. exact Hmain.
    + unfold handler. rewrite Hm. unfold all2, call, initial, log.
      cbn [tr app]. rewrite Hi, Hc. cbn.
      split; [now exists []|]. intros _. repeat split.
      exists ec. split; [reflexivity|now right].
  - unfold handler. rewrite Hm. unfold all2, call, initial, log.
    cbn [tr app]. rewrite Hi.
    destruct (getCommits w _) as [commits|ec]; cbn.
    all: split; [now exists []|]; intros _; repeat split.
    all: exists ei; split; [reflexivity|now left].
Qed.

Lemma metadata_failure_stops_witness :
  PR_URL_REGEX_match sample_url = Some ("elastic/kibana", "42")
  /\ main forbidden_run
     = [ EGithubRepo "elastic/kibana"; EGithubPr "elastic/kibana" "42";
         EGetInfo (Ok sample_info); EGetCommits (Fail "403 Forbidden") ]
  /\ staging forbidden_run = []
  /\ outcome forbidden_run = Emitted "403 Forbidden".
Proof.
  split; [reflexivity|].
  destruct (@metadata_failure_stops forbidden_world sample_url sample_targets
              "elastic/kibana" "42" eq_refl) as [_ H].
  destruct H as (Hmain & Hs & _ & e & Ho & He).
  - right. discriminate.
  - split; [exact Hmain|]. split; [exact Hs|].
    destruct He as [He|He]; [discriminate|].
    injection He as <-. exact Ho.
Defined.

(** ** Invariants of a chain *)

Section Preserves.

Variable J : St -> Prop.

Lemma preserves_ret (A : Type) (a : A) (P : A -> Prop) :
  P a -> preserves J (ret a) P.
Proof. intros H s Hs. split; [exact Hs|]. now intros a' [= <-]. Qed.

Lemma preserves_bind (A B : Type) (m : M A) (f : A -> M B)
      (P : A -> Prop) (Q : B -> Prop) :
  preserves J m P ->
  (forall a, P a -> preserves J (f a) Q) ->
  preserves J (bind m f) Q.
Proof.
  intros Hm Hf s Hs. unfold bind. destruct (Hm s Hs) as [HJ HP].
  destruct (m s) as [s' [a|e]]; cbn [fst snd] in *.
  - apply (Hf a (HP a eq_refl) s' HJ).
  - split; [exact HJ|discriminate].
Qed.

Lemma preserves_call (A : Type) (ask : Trace -> Res A) (ev : Res A -> Event) :
  (forall s r, J s -> J (log (ev r) s)) ->
  preserves J (call ask ev) (@any A).
Proof. intros H s Hs. unfold call. cbn. split; [now apply H|now intros]. Qed.

Lemma preserves_all2 (A B : Type) (ma : M A) (mb : M B) P Q :
  preserves J ma P -> preserves J mb Q ->
  preserves J (all2 ma mb) (@any (A * B)).
Proof.
  intros Ha Hb s Hs. unfold all2. destruct (Ha s Hs) as [H1 _].
  destruct (ma s) as [s1 ra]. cbn [fst] in H1.
  destruct (Hb s1 H1) as [H2 _]. destruct (mb s1) as [s2 rb].
  split; [exact H2|now intros].
Qed.

Lemma preserves_forEach (A : Type) (xs : list A) (f : A -> M unit) :
  (forall x, preserves J (f x) (@any unit)) ->
  preserves J (forEach xs f) (@any unit).
Proof.
  intros Hf. induction xs as [|x xs IH]; cbn [forEach].
  - now apply preserves_ret.
  - eapply preserves_bind; [apply Hf|]. intros _ _. exact IH.
Qed.

End Preserves.

(** ** The temporary file, from staging to cleanup *)

Lemma diffFile_settled (w : World) (info : Info) path :
  snd (diffFile w info) = Ok path ->
  exists diff,
    fst (fst (diffFile w info))
    = [ DRequestGet (diff_url info) (Ok diff);
        DTmpFile "jasper-" (Ok path);
        DWriteFile path diff (Ok tt) ].
Proof.
  unfold diffFile.
  destruct (requestGet w [] (diff_url info)) as [diff|e]; [|discriminate].
  destruct (tmpFile w _ "jasper-") as [p|e]; [|discriminate].
  cbn. destruct (writeFile w _ p diff) as [[]|e]; [|discriminate].
  intros [= ->]. now exists diff.
Qed.

Lemma diffFile_created (w : World) (info : Info) path :
  snd (fst (diffFile w info)) = Some path ->
  In (DTmpFile "jasper-" (Ok path)) (fst (fst (diffFile w info))).
Proof.
  unfold diffFile.
  destruct (requestGet w [] (diff_url info)) as [diff|e]; [|discriminate].
  destruct (tmpFile w _ "jasper-") as [p|e]; [|discriminate].
  cbn. intros [= ->]. right. now left.
Qed.

Section Staged.

Variable w : World.
Variables (repo number : string) (branches : list string).
Variables (info : Info) (commits : list CommitData).

Local Notation "'J'" := (staged_state w repo info).

Lemma staged_log e s : uses_staged w repo info e -> J s -> J (log e s).
Proof.
  intros He [Ht Hc]. split; [|exact Hc].
  cbn. apply Forall_app. split; [exact Ht|]. now constructor.
Qed.

Lemma staged_call (A : Type) (ask : Trace -> Res A) (ev : Res A -> Event) :
  (forall r, uses_staged w repo info (ev r)) ->
  preserves J (call ask ev) (@any A).
Proof. intros H. apply preserves_call. intros s r. apply staged_log, H. Qed.

Lemma staged_await :
  preserves J (awaitDiffFile w info)
            (fun path => snd (diffFile w info) = Ok path).
Proof.
  intros s [Ht _]. unfold awaitDiffFile. cbn.
  split; [split; [exact Ht|now right]|auto].
Qed.

Lemma staged_apply t path :
  snd (diffFile w info) = Ok path ->
  preserves J (applyPatch w repo t path) (@any unit).
Proof.
  intros Hp s Hs. unfold applyPatch.
  assert (H1 : forall err, J (log (EApply path (repoDir w repo) err) s)).
  { intros err. apply staged_log; [|exact Hs]. now split. }
  destruct (gitApply w (tr s) path (repoDir w repo)) as [m|].
  - specialize (H1 (Some m)).
    destruct (negb (CONFLICTS_REGEX_test m)); cbn [fst snd].
    + split; [exact H1|discriminate].
    + split; [exact H1|now intros].
  - split; [apply H1|now intros].
Qed.

Lemma staged_target t :
  preserves J (backportTarget w repo number info commits t) (@any unit).
Proof.
  unfold backportTarget.
  eapply preserves_bind; [apply staged_call; intros; exact I|intros c _].
  do 2 (eapply preserves_bind; [apply staged_call; intros; exact I
                               |intros _ _]).
  eapply preserves_bind; [apply staged_await|intros path Hp].
  eapply preserves_bind; [apply (staged_apply t Hp)|intros _ _].
  do 3 (eapply preserves_bind; [apply staged_call; intros; exact I
                               |intros _ _]).
  eapply preserves_bind; [apply staged_call; intros; exact I|intros tree _].
  eapply preserves_bind;
    [eapply preserves_all2; apply staged_call; intros; exact I
    |intros [parent sg] _].
  eapply preserves_bind; [apply staged_call; intros; exact I|intros _ _].
  now apply preserves_ret.
Qed.

Lemma staged_publishAll :
  preserves J (publishAll w number branches info commits) (@any unit).
Proof.
  intros s Hs. unfold publishAll. cbn [fst snd].
  split; [now apply staged_log|now intros].
Qed.

Lemma staged_cleanup : preserves J callCleanupTmp (@any unit).
Proof.
  intros s Hs. unfold callCleanupTmp.
  destruct (cleanupTmp s) as [path|] eqn:E; cbn [fst snd];
    (split; [|now intros]); [|exact Hs].
  apply staged_log; [|exact Hs]. cbn.
  destruct Hs as [_ [Hc|Hc]]; congruence.
Qed.

(** Every call of the chain from [openOrClone] on uses the staged
    file. *)
Lemma staged_backportAll :
  preserves J (backportAll w repo number branches info commits)
            (@any string).
Proof.
  unfold backportAll.
  do 2 (eapply preserves_bind; [apply staged_call; intros; exact I
                               |intros _ _]).
  eapply preserves_bind;
    [apply preserves_forEach; intros t; apply staged_target|intros _ _].
  eapply preserves_bind; [apply staged_call; intros; exact I|intros _ _].
  eapply preserves_bind;
    [apply preserves_forEach; intros refs; apply staged_call; intros;
     exact I|intros _ _].
  eapply preserves_bind; [apply staged_publishAll|intros _ _].
  eapply preserves_bind; [apply staged_cleanup|intros _ _].
  now apply preserves_ret.
Qed.

End Staged.

Lemma run_staged (w : World) (url allBranches repo number : string)
      (info : Info) (commits : list CommitData) :
  fetched w url repo number info commits ->
  let run := handler w url allBranches in
  Forall (uses_staged w repo info) (main run)
  /\ ((main run = prelude repo number info commits /\ staging run = [])
      \/ staging run = fst (fst (diffFile w info))).
Proof.
  intros Hf. cbv zeta. rewrite (handler_fetched allBranches Hf).
  unfold validated.
  destruct (includes _ _).
  { split; [repeat constructor|now left]. }
  destruct (merged info); cbn [negb].
  2:{ split; [repeat constructor|now left]. }
  destruct (@staged_backportAll w repo number (split_spaces allBranches)
              info commits (initial (prelude repo number info commits)))
    as [[HJ _] _].
  { split; [repeat constructor|now left]. }
  destruct (backportAll _ _ _ _ _ _ _) as [s' [text|e]]; cbn [fst] in HJ;
    (split; [exact HJ|now right]).
Qed.

(** X6. One temporary file serves the whole run.  Every [git apply] runs
    in the clone of the repository, on the path that the chain behind
    [diffFile] settled to: that chain requested [info.diff_url], created
    a temporary file with prefix [jasper-] at that path and wrote the
    body of the response to it, each call fulfilled.  And a call to
    [cleanup] is the [cleanup] of the file that [tmpFile] created. *)
Theorem one_staged_file (w : World) (url allBranches repo number : string)
        (info : Info) (commits : list CommitData) :
  fetched w url repo number info commits ->
  let run := handler w url allBranches in
  (forall path cwd err,
     In (EApply path cwd err) (main run) ->
     cwd = repoDirOf w repo
     /\ exists diff,
          staging run = [ DRequestGet (diff_url info) (Ok diff);
                          DTmpFile "jasper-" (Ok path);
                          DWriteFile path diff (Ok tt) ])
  /\ (forall path,
        In (ECleanupTmp path) (main run) ->
        In (DTmpFile "jasper-" (Ok path)) (staging run)).
Proof.
  intros Hf. cbv zeta.
  destruct (run_staged allBranches Hf) as [HF Hs].
  rewrite Forall_forall in HF.
  split.
  - intros path cwd err Hin. destruct (HF _ Hin) as [Hp ->].
    split; [reflexivity|].
    destruct Hs as [[Hm _]| ->]; [|now apply diffFile_settled].
    rewrite Hm in Hin. cbn in Hin. intuition discriminate.
  - intros path Hin. specialize (HF _ Hin). cbn in HF.
    destruct Hs as [[Hm _]| ->]; [|now apply diffFile_created].
    rewrite Hm in Hin. cbn in Hin. intuition discriminate.
Qed.

Lemma one_staged_file_witness :
  fetched conflict_world sample_url "elastic/kibana" "42" sample_info
          sample_commits
  /\ sample_dir = repoDirOf conflict_world "elastic/kibana"
  /\ exists diff,
       staging (handler conflict_world sample_url sample_targets)
       = [ DRequestGet (diff_url sample_info) (Ok diff);
           DTmpFile "jasper-" (Ok "/tmp/jasper-1");
           DWriteFile "/tmp/jasper-1" diff (Ok tt) ].
Proof.
  split; [repeat split|].
  refine (proj1 (@one_staged_file conflict_world sample_url sample_targets
                   "elastic/kibana" "42" sample_info sample_commits _)
                "/tmp/jasper-1" sample_dir (Some conflict_report) _).
  - repeat split.
  - apply (@nth_error_In _ _ 9). vm_compute. reflexivity.
Defined.

(** ** A run whose diff could not be staged *)

Lemma publishings_app a b :
  publishings (a ++ b) = publishings a ++ publishings b.
Proof.
  induction a as [|e a IH]; [reflexivity|].
  destruct e; cbn; now rewrite ?IH.
Qed.

Lemma quiet_app a b : quiet a -> quiet b -> quiet (a ++ b).
Proof.
  unfold quiet. intros (Ha1 & Ha2 & Ha3 & Ha4 & Ha5) (Hb1 & Hb2 & Hb3 & Hb4 & Hb5).
  rewrite apply_errors_app, commit_messages_app, pushes_app, publishings_app,
    cleanups_app.
  now rewrite Ha1, Ha2, Ha3, Ha4, Ha5, Hb1, Hb2, Hb3, Hb4, Hb5.
Qed.

Section Unstaged.

Variable w : World.
Variables (repo number : string) (branches : list string).
Variables (info : Info) (commits : list CommitData).

Local Notation "'ok'" := (target_ok w repo number info commits).
Local Notation "'failed'" := (target_fail w repo number info commits).
Local Notation "'targets'" := (targets_run w repo number info commits).
Local Notation "'branch'" := (branch_of number info).

Lemma target_ok_applies t d :
  ok t d -> exists path cwd err, In (EApply path cwd err) d.
Proof.
  intros H. destruct H. exists path, (repoDirOf w repo), err.
  unfold ready, patched. rewrite !in_app_iff. left. left. right. now left.
Qed.

Lemma targets_applies ts d :
  targets ts d None -> ts <> [] ->
  exists path cwd err, In (EApply path cwd err) d.
Proof.
  intros H Hne. inversion H as [E1 E2 E3|t ts' d1 d2 o Hok Hr E1 E2 E3|];
    [now contradiction Hne|].
  destruct (target_ok_applies Hok) as (path & cwd & err & Hin).
  exists path, cwd, err. apply in_app_iff. now left.
Qed.

(** A target on which the chain was rejected before any patch. *)
Lemma target_fail_unpatched t d e :
  failed t d e ->
  (exists path cwd err, In (EApply path cwd err) d)
  \/ (quiet d
      /\ forall b,
           In (ECheckoutBranch b (Ok tt)) d ->
           b = branch t /\ snd (diffFile w info) = Fail e).
Proof.
  intros H.
  destruct H as [e|c e|c e|c e Hd|c path m|c path err e|c path err e
                |c path err e|c path err e|c path err tree e rs
                |c path err tree parent e|c path err tree parent sg e].
  1-4: right; split; [now repeat split|]; cbn; intros b Hin.
  1-3: intuition discriminate.
  { destruct Hin as [Hin|[Hin|[Hin|[]]]]; try discriminate.
    injection Hin as <-. now split. }
  all: left; exists path, (repoDirOf w repo);
    first [exists err|exists (Some m)];
    unfold ready, patched; rewrite !in_app_iff; cbn; tauto.
Qed.

Lemma chain_unstaged h0 d res e :
  chain_run w repo number branches info commits h0 d res ->
  branches <> [] ->
  (forall path cwd err, ~ In (EApply path cwd err) d) ->
  snd (diffFile w info) = Fail e ->
  quiet d
  /\ exists e',
       res = Fail e'
       /\ forall b,
            In (ECheckoutBranch b (Ok tt)) d ->
            e' = e /\ b = branch (hd EmptyString branches).
Proof.
  intros H Hne Hno Hd.
  inversion H as [e1 Ed Er|e1 Ed Er|d' e1 Ht Ed Er|d' e1 Ht Ed Er
                 |d' k t e1 Ht Hk Ed Er|d' e1 Ht h Hp Ed Er
                 |d' cl Ht h Hp Hcl Hcl' Ed Er]; subst d.
  1-2: split; [now repeat split|]; exists e1; split; [reflexivity|];
       cbn; intros b Hin; intuition discriminate.
  2-5: exfalso;
       destruct (targets_applies Ht Hne) as (path & cwd & err & Hin);
       apply (Hno path cwd err); unfold pushed;
       rewrite !in_app_iff; tauto.
  inversion Ht as [|t ts d1 d2 o Hok Hr E1 E2 E3|t ts d1 e2 Hf E1 E2 E3];
    subst d'.
  - exfalso. destruct (target_ok_applies Hok) as (path & cwd & err & Hin).
    apply (Hno path cwd err). rewrite !in_app_iff. tauto.
  - destruct (target_fail_unpatched Hf) as [(path & cwd & err & Hin)|[Hq Hc]].
    + exfalso. apply (Hno path cwd err). rewrite in_app_iff. tauto.
    + split; [apply quiet_app; [now repeat split|exact Hq]|].
      exists e1. split; [reflexivity|]. intros b Hin.
      apply in_app_iff in Hin. destruct Hin as [Hin|Hin].
      * cbn in Hin. intuition discriminate.
      * destruct (Hc b Hin) as [-> He]. split; [congruence|reflexivity].
Qed.

End Unstaged.

(** X7. A run that passes validation while the diff cannot be staged
    (the download, the creation of the temporary file or the write is
    rejected with [e]).  No patch is applied, nothing is committed,
    pushed or published, [cleanup] is not called, and the run ends by
    emitting an error.  The rejection is met only where the first
    target waits for [diffFile]: when a branch has been checked out it
    is the derived branch of the first target, and the error emitted is
    [e]. *)
Theorem staging_failure (w : World) (url allBranches repo number : string)
        (info : Info) (commits : list CommitData) (e : Err) :
  fetched w url repo number info commits ->
  includes (split_spaces allBranches) (base_ref info) = false ->
  merged info = true ->
  snd (diffFile w info) = Fail e ->
  quiet (main (handler w url allBranches))
  /\ exists e',
       outcome (handler w url allBranches) = Emitted e'
       /\ forall b,
            In (ECheckoutBranch b (Ok tt)) (main (handler w url allBranches)) ->
            e' = e
            /\ b = branch_of number info
                             (hd EmptyString (split_spaces allBranches)).
Proof.
  intros Hf Hb Hmg Hd.
  destruct (@handler_valid w url allBranches repo number info commits
              Hf Hb Hmg) as (d & res & Hm & Hc & Ho & _).
  destruct (run_staged allBranches Hf) as [HF _].
  rewrite Hm in HF. apply Forall_app in HF. destruct HF as [_ HF].
  rewrite Forall_forall in HF.
  destruct (@chain_unstaged w repo number (split_spaces allBranches) info
              commits _ d res e Hc (@split_spaces_nonempty allBranches))
    as (Hq & e' & -> & Hco); [|exact Hd|].
  { intros path cwd err Hin. destruct (HF _ Hin) as [Hp _]. congruence. }
  rewrite Hm, Ho. split; [apply quiet_app; [now repeat split|exact Hq]|].
  exists e'. split; [reflexivity|]. intros b Hin.
  apply in_app_iff in Hin. destruct Hin as [Hin|Hin]; [|now apply Hco].
  cbn in Hin. intuition discriminate.
Qed.

Lemma staging_failure_witness :
  (fetched offline_world sample_url "elastic/kibana" "42" sample_info
           sample_commits
   /\ includes (split_spaces sample_targets) (base_ref sample_info) = false
   /\ merged sample_info = true
   /\ snd (diffFile offline_world sample_info) = Fail "ETIMEDOUT")
  /\ quiet (main (handler offline_world sample_url sample_targets))
  /\ exists e',
       outcome (handler offline_world sample_url sample_targets) = Emitted e'
       /\ forall b,
            In (ECheckoutBranch b (Ok tt))
               (main (handler offline_world sample_url sample_targets)) ->
            e' = "ETIMEDOUT"
            /\ b = branch_of "42" sample_info
                             (hd EmptyString (split_spaces sample_targets)).
Proof.
  split; [repeat split|].
  refine (@staging_failure offline_world sample_url sample_targets
            "elastic/kibana" "42" sample_info sample_commits "ETIMEDOUT"
            _ _ _ _).
  - repeat split.
  - reflexivity.
  - reflexivity.
  - reflexivity.
Defined.

Example download_fails_after_checkout :
  main offline_run
  = prelude "elastic/kibana" "42" sample_info sample_commits
      ++ opened offline_world "elastic/kibana" sample_info
      ++ checked_out "42" sample_info "release-1.0" "tip of origin/release-1.0"
  /\ outcome offline_run = Emitted "ETIMEDOUT"
  /\ staging offline_run
     = [DRequestGet (diff_url sample_info) (Fail "ETIMEDOUT")].
Proof. vm_compute. repeat split. Qed.

(** ** The publishing and the report *)

Section Published.

Variable w : World.
Variables (repo number : string) (branches : list string).
Variables (info : Info) (commits : list CommitData).

Local Notation "'ok'" := (target_ok w repo number info commits).
Local Notation "'targets'" := (targets_run w repo number info commits).
Local Notation "'publish'" := (publishFrom w number info commits).
Local Notation "'pushed_to'" := (pushed w repo number branches info).
Local Notation "'report'" :=
  ("Backported pull request #" ++ number ++ " to "
     ++ join ", " branches)%string.

Lemma publishFrom_fulfilled h c j ts :
  firstRejection (map snd (publish h c j ts)) = Ok tt ->
  Forall2 (issue_then_pull number info) ts (map fst (publish h c j ts)).
Proof.
  revert j. induction ts as [|t ts IH]; intros j; cbn [publishFrom map].
  - constructor.
  - unfold publishTarget.
    destruct (createIssue w h j _) as [n|e]; cbn [fst snd firstRejection];
      [|discriminate].
    destruct (createPullRequest w h j _) as [[]|e]; [|discriminate].
    intros H. constructor; [|now apply IH].
    eexists _, n. reflexivity.
Qed.

Lemma publishFrom_all_fulfilled h c j ts :
  all_fulfilled (map fst (publish h c j ts)) = true
  <-> firstRejection (map snd (publish h c j ts)) = Ok tt.
Proof.
  revert j. induction ts as [|t ts IH]; intros j; cbn [publishFrom map].
  - now split.
  - unfold all_fulfilled in *. cbn [forallb firstRejection].
    unfold publishTarget.
    destruct (createIssue w h j _) as [n|e]; cbn [fst snd firstRejection].
    + destruct (createPullRequest w h j _) as [[]|e]; cbn.
      * apply IH.
      * split; discriminate.
    + cbn. split; discriminate.
Qed.

Lemma publishFrom_rejected h c j ts e :
  firstRejection (map snd (publish h c j ts)) = Fail e ->
  exists calls call,
    In calls (map fst (publish h c j ts)) /\ In call calls
    /\ pub_error call = Some e.
Proof.
  revert j. induction ts as [|t ts IH]; intros j; cbn [publishFrom map];
    [discriminate|].
  destruct (snd (publishTarget w number info commits h c j t))
    as [[]|e'] eqn:Es; cbn [firstRejection].
  - intros H. destruct (IH _ H) as (calls & call & Hc & Hin & He).
    exists calls, call. split; [now right|now split].
  - intros [= ->]. revert Es. unfold publishTarget.
    destruct (createIssue w h j _) as [n|e1] eqn:Ei; cbn [fst snd].
    + intros Es. rewrite Es. eexists _, _. split; [now left|].
      split; [right; now left|]. reflexivity.
    + intros [= ->]. eexists _, _. split; [now left|].
      split; [now left|]. reflexivity.
Qed.

Lemma publishFrom_bodies h c j ts :
  map issue_body (map fst (publish h c j ts))
  = map (message_of number commits) ts
  /\ map issue_title (map fst (publish h c j ts))
     = map (fun t => ("[backport] PR #" ++ number ++ " to " ++ t)%string) ts.
Proof.
  revert j. induction ts as [|t ts IH]; intros j; cbn [publishFrom map];
    [now split|].
  destruct (IH (S j)) as [-> ->].
  unfold publishTarget.
  destruct (createIssue w h j _) as [n|e]; now split.
Qed.

Lemma targets_publishings ts d o : targets ts d o -> publishings d = [].
Proof.
  induction 1 as [|t ts d d' o Hok _ IH|t ts d e Hf].
  - reflexivity.
  - rewrite publishings_app, IH. now destruct Hok.
  - now destruct Hf.
Qed.

Lemma publishings_of_pushed l :
  publishings (map (push_ok number info) l) = [].
Proof. induction l as [|t l IH]; cbn; [reflexivity|exact IH]. Qed.

Lemma targets_applied ts d :
  targets ts d None ->
  length (apply_errors d) = length ts
  /\ Forall (fun err => applied err = true) (apply_errors d).
Proof.
  remember None as o eqn:Ho. induction 1 as [|t ts d d' o Hok _ IH|];
    [now split| |discriminate].
  destruct (IH Ho) as [Hl Ha].
  destruct (target_ok_errors Hok) as (err & Herr & He).
  rewrite apply_errors_app, Herr. cbn.
  split; [now rewrite Hl|now constructor].
Qed.

(** What the calls of a chain that reached the publishing are. *)
Lemma chain_published h0 d res per_target :
  chain_run w repo number branches info commits h0 d res ->
  branches <> [] ->
  In per_target (publishings d) ->
  exists d' cl,
    let h := h0 ++ pushed_to d' (length branches) in
    let ps := published w number branches info commits h in
    targets branches d' None
    /\ d = pushed_to d' (length branches) ++ [EPublish per_target] ++ cl
    /\ per_target = map fst ps
    /\ match firstRejection (map snd ps) with
       | Ok _ => res = Ok report /\ exists path, cl = [ECleanupTmp path]
       | Fail e => res = Fail e /\ cl = []
       end.
Proof.
  intros H Hne Hin.
  inversion H as [e1 Ed Er|e1 Ed Er|d' e1 Ht Ed Er|d' e1 Ht Ed Er
                 |d' k t e1 Ht Hk Ed Er|d' e1 Ht h Hp Ed Er
                 |d' cl Ht h Hp Hcl Hcl' Ed Er]; subst d res;
    unfold pushed in Hin;
    rewrite ?publishings_app, ?publishings_of_pushed,
            ?(targets_publishings Ht) in Hin;
    cbn in Hin; try contradiction.
  - destruct Hin as [<-|[]]. exists d', []. cbv zeta. fold h.
    rewrite Hp. now repeat split.
  - assert (Ecl : publishings cl = [])
      by (destruct Hcl as [->|[path ->]]; reflexivity).
    rewrite Ecl in Hin. destruct Hin as [<-|[]].
    exists d', cl. cbv zeta. fold h. rewrite Hp.
    split; [exact Ht|]. do 3 (split; [reflexivity|]).
    destruct Hcl as [->|Hcl]; [now contradiction (Hcl' Hne)|exact Hcl].
Qed.

Lemma chain_sent h0 d text :
  chain_run w repo number branches info commits h0 d (Ok text) ->
  exists per_target, In per_target (publishings d).
Proof.
  intros H. inversion H as [| | | | | |d' cl Ht h Hp Hcl Hcl' Ed Er].
  eexists. unfold pushed.
  rewrite !publishings_app, publishings_of_pushed, (targets_publishings Ht).
  cbn. now left.
Qed.

End Published.

Lemma In_publishings per_target t :
  In (EPublish per_target) t <-> In per_target (publishings t).
Proof.
  induction t as [|e t IH]; [reflexivity|].
  destruct e; cbn; rewrite <- IH;
    try (split; [intros [C|C]; [discriminate|exact C]|now right]).
  split; intros [C|C]; auto; [injection C as ->|subst]; now left.
Qed.

(** The calls of a run that reached the publishing. *)
Lemma run_published (w : World) (url allBranches repo number : string)
      (info : Info) (commits : list CommitData) per_target :
  fetched w url repo number info commits ->
  In (EPublish per_target) (main (handler w url allBranches)) ->
  exists d' cl,
    let branches := split_spaces allBranches in
    let h := prelude repo number info commits
               ++ pushed w repo number branches info d' (length branches) in
    let ps := published w number branches info commits h in
    targets_run w repo number info commits branches d' None
    /\ main (handler w url allBranches) = h ++ [EPublish per_target] ++ cl
    /\ per_target = map fst ps
    /\ match firstRejection (map snd ps) with
       | Ok _ =>
           outcome (handler w url allBranches)
           = Sent ("Backported pull request #" ++ number ++ " to "
                     ++ join ", " branches)
           /\ exists path, cl = [ECleanupTmp path]
       | Fail e =>
           outcome (handler w url allBranches) = Emitted e /\ cl = []
       end.
Proof.
  intros Hf Hin.
  destruct (includes (split_spaces allBranches) (base_ref info)) eqn:Hb.
  { destruct (@handler_invalid w url allBranches repo number info commits
                Hf (or_introl Hb)) as (Hm & _).
    rewrite Hm in Hin. cbn in Hin. intuition discriminate. }
  destruct (merged info) eqn:Hmg.
  2:{ destruct (@handler_invalid w url allBranches repo number info commits
                  Hf (or_intror Hmg)) as (Hm & _).
      rewrite Hm in Hin. cbn in Hin. intuition discriminate. }
  destruct (@handler_valid w url allBranches repo number info commits
              Hf Hb Hmg) as (d & res & Hm & Hc & Ho & _).
  rewrite Hm in Hin. apply In_publishings in Hin.
  rewrite publishings_app in Hin. cbn [publishings prelude app] in Hin.
  eapply chain_published in Hin;
    [|exact Hc|apply split_spaces_nonempty].
  destruct Hin as (d' & cl & Ht & Hd & Hp & Hr).
  exists d', cl. cbv zeta in *.
  split; [exact Ht|]. split; [rewrite Hm, Hd; now rewrite <- app_assoc|].
  split; [exact Hp|].
  destruct (firstRejection _) as [[]|e]; destruct Hr as [-> Hcl];
    rewrite Ho; now split.
Qed.

Section Before.

Variable w : World.
Variables (repo number : string) (branches : list string).
Variables (info : Info) (commits : list CommitData).

Local Notation "'targets'" := (targets_run w repo number info commits).
Local Notation "'start'" := (prelude repo number info commits).
Local Notation "'pushed_to'" := (pushed w repo number branches info).

Lemma cleanups_before d k :
  targets branches d None -> cleanups (start ++ pushed_to d k) = [].
Proof.
  intros Hd. unfold pushed.
  now rewrite !cleanups_app, (targets_cleanups Hd), cleanups_of_pushed.
Qed.

Lemma publishings_before d k :
  targets branches d None -> publishings (start ++ pushed_to d k) = [].
Proof.
  intros Hd. unfold pushed.
  now rewrite !publishings_app, (targets_publishings Hd),
    publishings_of_pushed.
Qed.

Lemma apply_errors_before d k :
  apply_errors (start ++ pushed_to d k) = apply_errors d.
Proof. now rewrite apply_errors_app, apply_errors_pushed. Qed.

End Before.

(** X8. What the report means.  When the run ends by sending a text, the
    text is [Backported pull request #<number> to <branches>], the
    branches joined with a comma and a space; validation passed; for
    every target, in order, a patch went through, the commit with the
    message of the target was created and its ref was pushed; there was
    one publishing, in which every target had its issue created and
    then its pull request, from the derived branch into the target and
    naming the issue; and [cleanup] was called once, for the file
    [tmpFile] created. *)
Theorem report_means_done (w : World) (url allBranches repo number : string)
        (info : Info) (commits : list CommitData) (text : string) :
  fetched w url repo number info commits ->
  outcome (handler w url allBranches) = Sent text ->
  text = ("Backported pull request #" ++ number ++ " to "
            ++ join ", " (split_spaces allBranches))%string
  /\ includes (split_spaces allBranches) (base_ref info) = false
  /\ merged info = true
  /\ length (apply_errors (main (handler w url allBranches)))
     = length (split_spaces allBranches)
  /\ Forall (fun err => applied err = true)
            (apply_errors (main (handler w url allBranches)))
  /\ commit_messages (main (handler w url allBranches))
     = map (message_of number commits) (split_spaces allBranches)
  /\ pushes (main (handler w url allBranches))
     = map (pushed_branch number info) (split_spaces allBranches)
  /\ (exists per_target,
        publishings (main (handler w url allBranches)) = [per_target]
        /\ Forall2 (issue_then_pull number info) (split_spaces allBranches)
                   per_target)
  /\ exists path,
       cleanups (main (handler w url allBranches)) = [path]
       /\ In (DTmpFile "jasper-" (Ok path))
             (staging (handler w url allBranches)).
Proof.
  intros Hf Hs.
  destruct (includes (split_spaces allBranches) (base_ref info)) eqn:Hb.
  { destruct (@handler_invalid w url allBranches repo number info commits
                Hf (or_introl Hb)) as (_ & _ & Ho & _).
    rewrite Ho in Hs. discriminate. }
  destruct (merged info) eqn:Hmg.
  2:{ destruct (@handler_invalid w url allBranches repo number info commits
                  Hf (or_intror Hmg)) as (_ & _ & Ho & _).
      rewrite Ho in Hs. discriminate. }
  destruct (@handler_valid w url allBranches repo number info commits
              Hf Hb Hmg) as (d & res & Hm & Hc & Ho & _ & Hst).
  rewrite Ho in Hs. destruct res as [text'|e]; [|discriminate].
  destruct (chain_sent Hc) as (per_target & Hin).
  assert (Hpub : In (EPublish per_target) (main (handler w url allBranches))).
  { apply In_publishings. rewrite Hm, publishings_app. apply in_app_iff.
    now right. }
  destruct (@run_published w url allBranches repo number info commits per_target Hf Hpub)
    as (d' & cl & Ht & Hmain & Hp & Hr).
  cbv zeta in *.
  destruct (firstRejection _) as [[]|e] eqn:Hfr.
  2:{ destruct Hr as [Hr _]. rewrite Ho in Hr. discriminate. }
  destruct Hr as [Hr [path ->]].
  rewrite Ho in Hr. cbn [outcome_of] in Hr, Hs.
  split; [congruence|]. do 2 (split; [reflexivity|]).
  destruct (targets_applied Ht) as [Hlen Happ].
  rewrite Hmain.
  rewrite apply_errors_app, commit_messages_app, pushes_app, publishings_app,
    cleanups_app.
  rewrite apply_errors_before, (commits_before _ Ht), (pushes_before _ Ht),
    (publishings_before _ Ht), (cleanups_before _ Ht), firstn_all.
  cbn [apply_errors commit_messages pushes publishings cleanups app].
  rewrite !app_nil_r.
  do 4 (split; [assumption || reflexivity|]).
  split.
  - exists per_target. split; [reflexivity|].
    rewrite Hp. now apply publishFrom_fulfilled.
  - exists path. split; [reflexivity|].
    destruct (run_staged allBranches Hf) as [HF _].
    rewrite Forall_forall in HF.
    assert (Hcl : In (ECleanupTmp path) (main (handler w url allBranches))).
    { rewrite Hmain, !in_app_iff. right. right. now left. }
    specialize (HF _ Hcl). cbn in HF.
    rewrite Hst. now apply diffFile_created.
Qed.

Lemma report_means_done_witness :
  (fetched clean_world sample_url "elastic/kibana" "42" sample_info
           sample_commits
   /\ outcome (handler clean_world sample_url sample_targets)
      = Sent "Backported pull request #42 to release-1.0, release-2.0")
  /\ pushes (main (handler clean_world sample_url sample_targets))
     = map (pushed_branch "42" sample_info) (split_spaces sample_targets).
Proof.
  assert (Hs : outcome (handler clean_world sample_url sample_targets)
               = Sent "Backported pull request #42 to release-1.0, release-2.0")
    by (vm_compute; reflexivity).
  split; [split; [repeat split|exact Hs]|].
  destruct (@report_means_done clean_world sample_url sample_targets
              "elastic/kibana" "42" sample_info sample_commits _
              (conj eq_refl (conj eq_refl eq_refl)) Hs)
    as (_ & _ & _ & _ & _ & _ & Hp & _).
  exact Hp.
Defined.

(** X9. How the publishing settles the run.  When every [createIssue]
    and [createPullRequest] of the publishing was fulfilled, the run
    ends with the report.  When one was rejected, the publishing is the
    last call of the run, [cleanup] is not called, and the run ends by
    emitting the error of a rejected call. *)
Theorem publishing_settles (w : World) (url allBranches repo number : string)
        (info : Info) (commits : list CommitData)
        (per_target : list (list PubEvent)) :
  fetched w url repo number info commits ->
  In (EPublish per_target) (main (handler w url allBranches)) ->
  (all_fulfilled per_target = true ->
   outcome (handler w url allBranches)
   = Sent ("Backported pull request #" ++ number ++ " to "
             ++ join ", " (split_spaces allBranches)))
  /\ (all_fulfilled per_target = false ->
      cleanups (main (handler w url allBranches)) = []
      /\ (exists pre,
            main (handler w url allBranches) = pre ++ [EPublish per_target])
      /\ exists e calls call,
           outcome (handler w url allBranches) = Emitted e
           /\ In calls per_target /\ In call calls
           /\ pub_error call = Some e).
Proof.
  intros Hf Hin.
  destruct (@run_published w url allBranches repo number info commits per_target Hf Hin)
    as (d' & cl & Ht & Hmain & Hp & Hr).
  cbv zeta in *.
  assert (Hall := publishFrom_all_fulfilled w number info commits
                    (prelude repo number info commits
                       ++ pushed w repo number (split_spaces allBranches)
                                 info d' (length (split_spaces allBranches)))
                    (marks (split_spaces allBranches)
                       (apply_errors
                          (prelude repo number info commits
                             ++ pushed w repo number (split_spaces allBranches)
                                  info d'
                                  (length (split_spaces allBranches)))))
                    0 (split_spaces allBranches)).
  fold (published w number (split_spaces allBranches) info commits
          (prelude repo number info commits
             ++ pushed w repo number (split_spaces allBranches) info d'
                  (length (split_spaces allBranches)))) in Hall.
  rewrite <- Hp in Hall.
  destruct (firstRejection _) as [[]|e] eqn:Hfr.
  - destruct Hr as [Hr _]. split; [now intros _|].
    intros Hno. rewrite (proj2 Hall eq_refl) in Hno. discriminate.
  - destruct Hr as [Hr ->]. split.
    { intros Hyes. apply Hall in Hyes. discriminate. }
    intros _. split.
    { rewrite Hmain, cleanups_app, (cleanups_before _ Ht). reflexivity. }
    split; [eexists; rewrite Hmain; reflexivity|].
    destruct (publishFrom_rejected _ _ _ _ _ _ _ _ Hfr)
      as (calls & call & Hc & Hcall & He).
    exists e, calls, call. rewrite Hp. now repeat split.
Qed.

Lemma publishing_settles_witness :
  (fetched unpublished_world sample_url "elastic/kibana" "42" sample_info
           sample_commits
   /\ In (EPublish
            (map fst (published unpublished_world "42"
                        (split_spaces sample_targets) sample_info
                        sample_commits
                        (firstn 31 (main (handler unpublished_world
                                            sample_url sample_targets))))))
         (main (handler unpublished_world sample_url sample_targets))
   /\ all_fulfilled
        (map fst (published unpublished_world "42"
                    (split_spaces sample_targets) sample_info sample_commits
                    (firstn 31 (main (handler unpublished_world
                                        sample_url sample_targets)))))
      = false)
  /\ cleanups (main (handler unpublished_world sample_url sample_targets))
     = [].
Proof.
  assert (Hin : In (EPublish
                      (map fst (published unpublished_world "42"
                                  (split_spaces sample_targets) sample_info
                                  sample_commits
                                  (firstn 31
                                     (main (handler unpublished_world
                                              sample_url sample_targets))))))
                   (main (handler unpublished_world sample_url
                            sample_targets))).
  { apply (@nth_error_In _ _ 31). vm_compute. reflexivity. }
  assert (Hno : all_fulfilled
                  (map fst (published unpublished_world "42"
                              (split_spaces sample_targets) sample_info
                              sample_commits
                              (firstn 31
                                 (main (handler unpublished_world
                                          sample_url sample_targets)))))
                = false)
    by (vm_compute; reflexivity).
  split; [split; [repeat split|split; [exact Hin|exact Hno]]|].
  destruct (@publishing_settles unpublished_world sample_url sample_targets
              "elastic/kibana" "42" sample_info sample_commits _
              (conj eq_refl (conj eq_refl eq_refl)) Hin)
    as [_ H].
  exact (proj1 (H Hno)).
Defined.

Example second_pull_request_refused :
  outcome unpublished_run = Emitted "422 Unprocessable"
  /\ map (map fulfilled) (concat (publishings (main unpublished_run)))
     = [[true; true]; [true; false]].
Proof. vm_compute. split; reflexivity. Qed.

(** X10. The issue of a target describes its commit.  In the publishing,
    the body given to [createIssue] for the target at each position is
    the message of the commit created for the target at that position,
    and the title is [[backport] PR #<number> to <target>]. *)
Theorem issue_describes_commit
        (w : World) (url allBranches repo number : string)
        (info : Info) (commits : list CommitData)
        (per_target : list (list PubEvent)) :
  fetched w url repo number info commits ->
  In (EPublish per_target) (main (handler w url allBranches)) ->
  map issue_body per_target
  = commit_messages (main (handler w url allBranches))
  /\ map issue_title per_target
     = map (fun t => ("[backport] PR #" ++ number ++ " to " ++ t)%string)
           (split_spaces allBranches).
Proof.
  intros Hf Hin.
  destruct (@run_published w url allBranches repo number info commits per_target Hf Hin)
    as (d' & cl & Ht & Hmain & Hp & Hr).
  cbv zeta in *.
  assert (Hcl : commit_messages cl = []).
  { destruct (firstRejection _) as [[]|e]; [destruct Hr as [_ [path ->]]
                                           |destruct Hr as [_ ->]];
      reflexivity. }
  rewrite Hmain, commit_messages_app, (commits_before _ Ht).
  rewrite commit_messages_app, Hcl, Hp.
  cbn [commit_messages app]. rewrite app_nil_r.
  unfold published. apply publishFrom_bodies.
Qed.

Lemma issue_describes_commit_witness :
  (fetched clean_world sample_url "elastic/kibana" "42" sample_info
           sample_commits
   /\ In (EPublish
            (map fst (published clean_world "42"
                        (split_spaces sample_targets) sample_info
                        sample_commits
                        (firstn 31 (main (handler clean_world sample_url
                                            sample_targets))))))
         (main (handler clean_world sample_url sample_targets)))
  /\ map issue_body
         (map fst (published clean_world "42"
                     (split_spaces sample_targets) sample_info sample_commits
                     (firstn 31 (main (handler clean_world sample_url
                                         sample_targets)))))
     = commit_messages (main (handler clean_world sample_url sample_targets)).
Proof.
  assert (Hin : In (EPublish
                      (map fst (published clean_world "42"
                                  (split_spaces sample_targets) sample_info
                                  sample_commits
                                  (firstn 31
                                     (main (handler clean_world sample_url
                                              sample_targets))))))
                   (main (handler clean_world sample_url sample_targets))).
  { apply (@nth_error_In _ _ 31). vm_compute. reflexivity. }
  split; [split; [repeat split|exact Hin]|].
  exact (proj1 (@issue_describes_commit clean_world sample_url sample_targets
                  "elastic/kibana" "42" sample_info sample_commits _
                  (conj eq_refl (conj eq_refl eq_refl)) Hin)).
Defined.

(** ** The order of the phases *)

Lemma plain_member l pre e post :
  forallb plain l = true -> l = pre ++ e :: post -> plain e = true.
Proof.
  intros H ->. rewrite forallb_app in H. apply andb_true_iff in H.
  destruct H as [_ H]. cbn in H. now apply andb_true_iff in H.
Qed.

(** A call that is not plain comes after a plain start of the trace. *)
Lemma after_plain a rest pre e post :
  forallb plain a = true ->
  plain e = false ->
  a ++ rest = pre ++ e :: post ->
  exists pre', pre = a ++ pre'.
Proof.
  revert pre. induction a as [|x a IH]; intros pre Ha He E.
  - now exists pre.
  - cbn in Ha. apply andb_true_iff in Ha. destruct Ha as [Hx Ha].
    destruct pre as [|y pre]; cbn in E; injection E as -> E.
    + congruence.
    + destruct (IH pre Ha He E) as [pre' ->]. now exists pre'.
Qed.

(** X11. Nothing is done for a target before the repository is ready.
    A call of the per-target steps, a push or the publishing comes after
    [getInfo] and [getCommits] were fulfilled, and after
    [openOrClone(repoDir, info.base.repo.ssh_url)] and
    [repo.fetch('origin')], in that order, were fulfilled. *)
Theorem repository_ready_first
        (w : World) (url allBranches repo number : string)
        (info : Info) (commits : list CommitData)
        (pre post : Trace) (e : Event) :
  fetched w url repo number info commits ->
  main (handler w url allBranches) = pre ++ e :: post ->
  plain e = false ->
  exists pre',
    pre = [ EGithubRepo repo; EGithubPr repo number;
            EGetInfo (Ok info); EGetCommits (Ok commits);
            EOpenOrClone (repoDirOf w repo) (base_repo_ssh_url info) (Ok tt);
            EFetch "origin" (Ok tt) ] ++ pre'.
Proof.
  intros Hf Hmain He.
  destruct (includes (split_spaces allBranches) (base_ref info)) eqn:Hb.
  { destruct (@handler_invalid w url allBranches repo number info commits
                Hf (or_introl Hb)) as (Hm & _).
    rewrite Hmain in Hm. symmetry in Hm.
    apply plain_member in Hm; [congruence|reflexivity]. }
  destruct (merged info) eqn:Hmg.
  2:{ destruct (@handler_invalid w url allBranches repo number info commits
                  Hf (or_intror Hmg)) as (Hm & _).
      rewrite Hmain in Hm. symmetry in Hm.
      apply plain_member in Hm; [congruence|reflexivity]. }
  destruct (@handler_valid w url allBranches repo number info commits
              Hf Hb Hmg) as (d & res & Hm & Hc & _).
  rewrite Hmain in Hm. symmetry in Hm.
  inversion Hc as [e1 Ed Er|e1 Ed Er|d' e1 Ht Ed Er|d' e1 Ht Ed Er
                  |d' k t e1 Ht Hk Ed Er|d' e1 Ht h Hp Ed Er
                  |d' cl Ht h Hp Hcl Hcl' Ed Er]; subst d.
  1-2: apply plain_member in Hm; [congruence|reflexivity].
  all: unfold pushed, opened, prelude in Hm; cbn [app] in Hm.
  all: eapply (@after_plain
                 [ EGithubRepo repo; EGithubPr repo number;
                   EGetInfo (Ok info); EGetCommits (Ok commits);
                   EOpenOrClone (repoDirOf w repo) (base_repo_ssh_url info)
                                (Ok tt);
                   EFetch "origin" (Ok tt) ]);
    [reflexivity|exact He|exact Hm].
Qed.

Lemma repository_ready_first_witness :
  (fetched clean_world sample_url "elastic/kibana" "42" sample_info
           sample_commits
   /\ main (handler clean_world sample_url sample_targets)
      = firstn 7 (main clean_run)
          ++ ECreateBranch "jasper/backport/42-release-1.0-feature-x"
                           "tip of origin/release-1.0" (Ok tt)
          :: skipn 8 (main clean_run)
   /\ plain (ECreateBranch "jasper/backport/42-release-1.0-feature-x"
                           "tip of origin/release-1.0" (Ok tt)) = false)
  /\ exists pre',
       firstn 7 (main clean_run)
       = [ EGithubRepo "elastic/kibana"; EGithubPr "elastic/kibana" "42";
           EGetInfo (Ok sample_info); EGetCommits (Ok sample_commits);
           EOpenOrClone (repoDirOf clean_world "elastic/kibana")
                        (base_repo_ssh_url sample_info) (Ok tt);
           EFetch "origin" (Ok tt) ] ++ pre'.
Proof.
  assert (Hm : main (handler clean_world sample_url sample_targets)
               = firstn 7 (main clean_run)
                   ++ ECreateBranch "jasper/backport/42-release-1.0-feature-x"
                                    "tip of origin/release-1.0" (Ok tt)
                   :: skipn 8 (main clean_run))
    by (vm_compute; reflexivity).
  split; [split; [repeat split|split; [exact Hm|reflexivity]]|].
  exact (@repository_ready_first clean_world sample_url sample_targets
           "elastic/kibana" "42" sample_info sample_commits _ _ _
           (conj eq_refl (conj eq_refl eq_refl)) Hm eq_refl).
Defined.

(** ** The parent and the signature of a commit *)

Lemma head_always (w : World) (url allBranches repo number : string)
      (info : Info) (commits : list CommitData) :
  fetched w url repo number info commits ->
  always (head_and_signature (outcome (handler w url allBranches)))
         [] (main (handler w url allBranches)).
Proof.
  intros Hf. eapply run_always; [exact Hf| | | | |].
  - intros p e q He; red; intros; subst e; discriminate.
  - intros t seg h rest Hn Hok. destruct Hok. steps.
    all: try (red; intros; discriminate).
    intros r [= <-]. eexists _, _. split; [reflexivity|]. now eexists _, _, _, _.
  - intros t seg e h Hn Hf' Ho. destruct Hf'; steps.
    all: try (red; intros; discriminate).
    all: intros r [= <-]; eexists _, _; (split; [reflexivity|]).
    + destruct rs; (split; [reflexivity|]); exists e; (split; [exact Ho|]);
        now left.
    + split; [reflexivity|]. exists e. split; [exact Ho|]. now right.
    + now eexists _, _, _, _.
  - red; intros; discriminate.
  - red; intros; discriminate.
Qed.

(** X12. The parent and the signature of a commit are read together.
    Right after a [repo.getHeadCommit()], whatever it answers,
    [getSignature()] is called.  When both are fulfilled the next call
    is [repo.createCommit] on [HEAD] with that commit as only parent and
    that signature as author and committer.  When one is rejected no
    call follows, so no commit is created, and the run ends by emitting
    the error of a rejected one. *)
Theorem head_commit_with_signature
        (w : World) (url allBranches repo number : string)
        (info : Info) (commits : list CommitData) (pre post : Trace)
        (r : Res Oid) :
  fetched w url repo number info commits ->
  main (handler w url allBranches) = pre ++ EGetHeadCommit r :: post ->
  exists rs post',
    post = EGetSignature rs :: post'
    /\ match r, rs with
       | Ok parent, Ok sg =>
           exists msg tree rc post'',
             post' = ECreateCommit "HEAD" sg sg msg tree [parent] rc :: post''
       | _, _ =>
           post' = []
           /\ exists err,
                outcome (handler w url allBranches) = Emitted err
                /\ (rejected r = Some err \/ rejected rs = Some err)
       end.
Proof.
  intros Hf Hm.
  exact (always_split _ _ (head_always allBranches Hf) _ _ _ Hm _ eq_refl).
Qed.

Lemma head_commit_with_signature_witness :
  (fetched clean_world sample_url "elastic/kibana" "42" sample_info
           sample_commits
   /\ main (handler clean_world sample_url sample_targets)
      = firstn 14 (main clean_run)
          ++ EGetHeadCommit (Ok "head") :: skipn 15 (main clean_run))
  /\ exists rs post',
       skipn 15 (main clean_run) = EGetSignature rs :: post'
       /\ match rs with
          | Ok sg =>
              exists msg tree rc post'',
                post' = ECreateCommit "HEAD" sg sg msg tree ["head"] rc
                          :: post''
          | Fail _ =>
              post' = []
              /\ exists err,
                   outcome (handler clean_world sample_url sample_targets)
                   = Emitted err
                   /\ (rejected (Ok "head" : Res Oid) = Some err
                       \/ rejected rs = Some err)
          end.
Proof.
  assert (Hm : main (handler clean_world sample_url sample_targets)
               = firstn 14 (main clean_run)
                   ++ EGetHeadCommit (Ok "head") :: skipn 15 (main clean_run))
    by (vm_compute; reflexivity).
  split; [split; [repeat split|exact Hm]|].
  exact (@head_commit_with_signature clean_world sample_url sample_targets
           "elastic/kibana" "42" sample_info sample_commits _ _ _
           (conj eq_refl (conj eq_refl eq_refl)) Hm).
Defined.

(** ** How far a run got *)

Section Progress.

Variable w : World.
Variables (repo number : string) (branches : list string).
Variables (info : Info) (commits : list CommitData).

Local Notation "'branch'" := (branch_of number info).
Local Notation "'targets'" := (targets_run w repo number info commits).

Lemma targets_progress ts d o :
  targets ts d o ->
  exists k,
    k <= length ts
    /\ commit_messages d = map (message_of number commits) (firstn k ts)
    /\ (o = None -> k = length ts /\ created_branches d = map branch ts)
    /\ (created_branches d = map branch (firstn k ts)
        \/ (k < length ts /\ o <> None
            /\ created_branches d = map branch (firstn (S k) ts))).
Proof.
  induction 1 as [|t ts d d' o Hok _ IH|t ts d e Hf].
  - exists 0. repeat split; auto.
  - destruct IH as (k & Hk & Hc & Hall & Hcr). exists (S k).
    rewrite commit_messages_app, created_branches_app.
    destruct Hok. cbn [length firstn map]. split; [lia|].
    split; [cbn; now rewrite Hc|].
    split.
    + intros Ho. destruct (Hall Ho) as [-> Hcr']. split; [reflexivity|].
      cbn. now rewrite Hcr'.
    + destruct Hcr as [Hcr|(Hlt & Ho & Hcr)]; [left|right].
      * cbn. now rewrite Hcr.
      * split; [lia|]. split; [exact Ho|]. cbn. now rewrite Hcr.
  - exists 0. cbn [length firstn map]. split; [lia|].
    split; [now destruct Hf|]. split; [discriminate|].
    destruct Hf; cbn; ((now left) || (right; split; [lia|]; now split)).
Qed.

Lemma chain_progress h0 d res :
  chain_run w repo number branches info commits h0 d res ->
  exists k,
    k <= length branches
    /\ commit_messages d = map (message_of number commits) (firstn k branches)
    /\ (created_branches d = map branch (firstn k branches)
        \/ (k < length branches /\ (exists e, res = Fail e)
            /\ created_branches d = map branch (firstn (S k) branches))).
Proof.
  intros H.
  inversion H as [e Ed Er|e Ed Er|d' e Hd Ed Er|d' e Hd Ed Er
                 |d' k t e Hd Hk Ed Er|d' e Hd h Hp Ed Er
                 |d' cl Hd h Hp Hcl Hne Ed Er]; subst d res;
    try (destruct (targets_progress Hd) as (k' & Hk' & Hc' & Hall & Hcr));
    unfold pushed;
    rewrite ?commit_messages_app, ?created_branches_app,
            ?commits_of_pushed, ?created_of_pushed;
    cbn [commit_messages created_branches opened app];
    rewrite ?app_nil_r.
  1-2: exists 0; split; [lia|]; split; [reflexivity|now left].
  { exists k'. split; [exact Hk'|]. split; [exact Hc'|].
    destruct Hcr as [Hcr|(Hlt & _ & Hcr)]; [now left|right].
    split; [exact Hlt|]. split; [now exists e|exact Hcr]. }
  4:{ assert (Ecl : commit_messages cl = [] /\ created_branches cl = [])
        by (destruct Hcl as [->|[path ->]]; now split).
      destruct Ecl as [-> ->]. rewrite ?app_nil_r.
      destruct (Hall eq_refl) as [-> Hcr'].
      exists (length branches). rewrite firstn_all in *.
      split; [lia|]. split; [exact Hc'|now left]. }
  all: destruct (Hall eq_refl) as [-> Hcr'];
    exists (length branches); rewrite firstn_all in *;
    split; [lia|]; split; [exact Hc'|now left].
Qed.

End Progress.

(** X13. How far a run got.  The commits a run has created are those of
    a leading part of the list of targets, one per target and in order,
    whatever way the run ends.  The branches it has created are the
    derived branches of the same targets, or of these and the next one:
    at most one target is left with a branch and no commit, and then
    the run ended by emitting an error. *)
Theorem at_most_one_target_half_done
        (w : World) (url allBranches repo number : string)
        (info : Info) (commits : list CommitData) :
  fetched w url repo number info commits ->
  exists k,
    k <= length (split_spaces allBranches)
    /\ commit_messages (main (handler w url allBranches))
       = map (message_of number commits) (firstn k (split_spaces allBranches))
    /\ (created_branches (main (handler w url allBranches))
        = map (branch_of number info) (firstn k (split_spaces allBranches))
        \/ (k < length (split_spaces allBranches)
            /\ (exists e, outcome (handler w url allBranches) = Emitted e)
            /\ created_branches (main (handler w url allBranches))
               = map (branch_of number info)
                     (firstn (S k) (split_spaces allBranches)))).
Proof.
  intros Hf.
  destruct (includes (split_spaces allBranches) (base_ref info)) eqn:Hb.
  { destruct (@handler_invalid w url allBranches repo number info commits
                Hf (or_introl Hb)) as (Hm & _).
    rewrite Hm. exists 0. split; [lia|]. split; [reflexivity|now left]. }
  destruct (merged info) eqn:Hmg.
  2:{ destruct (@handler_invalid w url allBranches repo number info commits
                  Hf (or_intror Hmg)) as (Hm & _).
      rewrite Hm. exists 0. split; [lia|]. split; [reflexivity|now left]. }
  destruct (@handler_valid w url allBranches repo number info commits
              Hf Hb Hmg) as (d & res & Hm & Hc & Ho & _).
  destruct (chain_progress Hc) as (k & Hk & Hcm & Hcr).
  exists k. rewrite Hm, commit_messages_app, created_branches_app.
  cbn [commit_messages created_branches prelude app].
  split; [exact Hk|]. split; [exact Hcm|].
  destruct Hcr as [Hcr|(Hlt & [e ->] & Hcr)]; [now left|right].
  split; [exact Hlt|]. split; [exists e; exact Ho|exact Hcr].
Qed.

Lemma at_most_one_target_half_done_witness :
  fetched corrupt_world sample_url "elastic/kibana" "42" sample_info
          sample_commits
  /\ exists k,
       k <= length (split_spaces sample_targets)
       /\ commit_messages (main (handler corrupt_world sample_url
                                   sample_targets))
          = map (message_of "42" sample_commits)
                (firstn k (split_spaces sample_targets))
       /\ (created_branches (main (handler corrupt_world sample_url
                                     sample_targets))
           = map (branch_of "42" sample_info)
                 (firstn k (split_spaces sample_targets))
           \/ (k < length (split_spaces sample_targets)
               /\ (exists e,
                     outcome (handler corrupt_world sample_url sample_targets)
                     = Emitted e)
               /\ created_branches (main (handler corrupt_world sample_url
                                            sample_targets))
                  = map (branch_of "42" sample_info)
                        (firstn (S k) (split_spaces sample_targets)))).
Proof.
  split; [repeat split|].
  exact (@at_most_one_target_half_done corrupt_world sample_url
           sample_targets "elastic/kibana" "42" sample_info sample_commits
           (conj eq_refl (conj eq_refl eq_refl))).
Defined.

Example corrupt_patch_leaves_a_branch :
  commit_messages (main corrupt_run) = []
  /\ created_branches (main corrupt_run)
     = ["jasper/backport/42-release-1.0-feature-x"].
Proof. vm_compute. split; reflexivity. Qed.

(** ** After a patch that went through *)

Lemma proceeds_always (w : World) (url allBranches repo number : string)
      (info : Info) (commits : list CommitData) :
  fetched w url repo number info commits ->
  always (patch_proceeds number (split_spaces allBranches) commits)
         [] (main (handler w url allBranches)).
Proof.
  intros Hf. eapply run_always; [exact Hf| | | | |].
  - intros p e q He; red; intros; subst e; discriminate.
  - intros t seg h rest Hn Hok. destruct Hok as [c path err ? ? ? ? _ Ha].
    steps.
    all: try (red; intros; discriminate).
    intros path' cwd err' _ _. exists t. rewrite errors_before_patch.
    split; [exact Hn|]. cbn. split; [reflexivity|]. eauto.
  - intros t seg e h Hn Hf' Ho.
    destruct Hf' as [ | | | | c path m Hm
                     | c path err e Ha | c path err e Ha | c path err e Ha
                     | c path err e Ha | c path err ? e ? Ha
                     | c path err ? ? e Ha | c path err ? ? ? e Ha]; steps.
    all: try (red; intros; discriminate).
    all: intros path' cwd err' E Ha'; injection E as <- <- E; subst err';
      exists t; rewrite errors_before_patch; (split; [exact Hn|]).
    1:{ cbn in Ha'. congruence. }
    all: cbn; auto.
    split; [reflexivity|]. eauto.
  - red; intros; discriminate.
  - red; intros; discriminate.
Qed.

(** When every call after the patch went through, the chain got to the
    commit of the target, and the commit was created. *)
Lemma proceeds_commits (number : string) (commits : list CommitData) t q :
  proceeds_to_commit number commits t q ->
  forallb went_through q = true ->
  exists sg tree parent oid q1 q2,
    q = q1 ++ ECreateCommit "HEAD" sg sg (message_of number commits t) tree
                            [parent] (Ok oid) :: q2
    /\ q1 = [ EIndex (Ok tt); EAddAll "." (Ok tt); EIndexWrite (Ok tt);
              EWriteTree (Ok tree); EGetHeadCommit (Ok parent);
              EGetSignature (Ok sg) ].
Proof.
  unfold proceeds_to_commit. intros H Hall.
  destruct q as [|[] q]; try contradiction.
  destruct r as [[]|]; [|discriminate].
  destruct q as [|[] q]; try contradiction.
  destruct r as [[]|]; [|discriminate].
  destruct q as [|[] q]; try contradiction.
  destruct r as [[]|]; [|discriminate].
  destruct q as [|[] q]; try contradiction.
  destruct r as [tree|]; [|discriminate].
  destruct q as [|[] q]; try contradiction.
  destruct q as [|[] q]; try contradiction.
  destruct H as [-> H].
  destruct r as [parent|]; [|discriminate].
  destruct r0 as [sg|]; [|discriminate].
  destruct H as (rc & q'' & ->).
  destruct rc as [oid|]; [|discriminate].
  exists sg, tree, parent, oid,
    [ EIndex (Ok tt); EAddAll "." (Ok tt); EIndexWrite (Ok tt);
      EWriteTree (Ok tree); EGetHeadCommit (Ok parent);
      EGetSignature (Ok sg) ], q''.
  split; reflexivity.
Qed.

Lemma after_apply_split pre path cwd err post :
  after_apply (length (apply_errors pre)) (pre ++ EApply path cwd err :: post)
  = Some post.
Proof.
  induction pre as [|e pre IH]; [reflexivity|]. destruct e; cbn; exact IH.
Qed.

Lemma after_apply_app k a b :
  after_apply k (a ++ b)
  = match after_apply k a with
    | Some q => Some (q ++ b)
    | None => after_apply (k - length (apply_errors a)) b
    end.
Proof.
  revert k. induction a as [|e a IH]; intros k.
  - cbn. now rewrite Nat.sub_0_r.
  - destruct e; cbn [app after_apply apply_errors]; try apply IH.
    destruct k as [|k]; [reflexivity|]. cbn. apply IH.
Qed.

Lemma after_apply_some k a err :
  nth_error (apply_errors a) k = Some err ->
  exists q, after_apply k a = Some q.
Proof.
  revert k. induction a as [|e a IH]; intros k; [now destruct k|].
  destruct e; cbn [after_apply apply_errors]; try apply IH.
  destruct k as [|k]; [now eexists|]. cbn. apply IH.
Qed.

(** The calls after a patch, when calls [r] without a patch follow the
    calls [d] that hold it. *)
Lemma after_apply_then k d r err q :
  nth_error (apply_errors d) k = Some err ->
  after_apply k (d ++ r) = Some q ->
  exists q', q = q' ++ r.
Proof.
  intros He Hq. destruct (after_apply_some _ _ He) as [q' Hq'].
  rewrite after_apply_app, Hq' in Hq. injection Hq as <-. now exists q'.
Qed.

Section AfterPatch.

Variable w : World.
Variables (repo number : string) (branches : list string).
Variables (info : Info) (commits : list CommitData).

Local Notation "'targets'" := (targets_run w repo number info commits).
Local Notation "'failed'" := (target_fail w repo number info commits).

(** A target on which the chain was rejected, the diff being staged,
    holds a call that did not go through. *)
Lemma target_fail_stops t d e path :
  failed t d e ->
  snd (diffFile w info) = Ok path ->
  forallb went_through d = false.
Proof.
  intros H Hd.
  destruct H as [ | | | c e' Hd' | c path' m Hm
                | c path' err e' Ha | c path' err e' Ha | c path' err e' Ha
                | c path' err e' Ha | c path' err ? e' ? Ha
                | c path' err ? ? e' Ha | c path' err ? ? ? e' Ha];
    try reflexivity; [congruence|..];
    unfold ready, patched, checked_out, commit_call;
    cbn [app forallb went_through is_ok applied andb];
    rewrite ?Hm, ?Ha; reflexivity.
Qed.

Lemma targets_fail_stops ts d e path :
  targets ts d (Some e) ->
  snd (diffFile w info) = Ok path ->
  forallb went_through d = false.
Proof.
  remember (Some e) as o eqn:Ho.
  induction 1 as [|t ts d d' o Hok _ IH|t ts d e' Hf]; intros Hd;
    [discriminate| |].
  - rewrite forallb_app, (IH Ho Hd). apply andb_false_r.
  - now apply (target_fail_stops Hf Hd).
Qed.

(** After a patch that went through, in a list of targets on which the
    chain was rejected, some call did not go through. *)
Lemma targets_fail_after ts d e :
  targets ts d (Some e) ->
  forall k q err,
    after_apply k d = Some q ->
    nth_error (apply_errors d) k = Some err ->
    applied err = true ->
    forallb went_through q = false.
Proof.
  remember (Some e) as o eqn:Ho.
  induction 1 as [|t ts d d' o Hok Hrun IH|t ts d e' Hf];
    intros k q err Hq Herr Ha; [discriminate| |].
  - destruct Hok as [c path err1 tree parent sg oid Hd Ha1].
    unfold ready, patched, checked_out, commit_call in Hq, Herr.
    cbn [app after_apply apply_errors] in Hq, Herr.
    destruct k as [|k].
    + injection Hq as <-.
      cbn [app forallb went_through is_ok andb].
      subst o. apply (targets_fail_stops Hrun Hd).
    + cbn [nth_error] in Herr. now apply (IH Ho k q err).
  - destruct Hf as [ | | | c e'' Hd' | c path' m Hm
                   | c path' err1 e'' Ha1 | c path' err1 e'' Ha1
                   | c path' err1 e'' Ha1 | c path' err1 e'' Ha1
                   | c path' err1 ? e'' ? Ha1
                   | c path' err1 ? ? e'' Ha1 | c path' err1 ? ? ? e'' Ha1];
      unfold ready, patched, checked_out, commit_call in Hq, Herr;
      cbn [app after_apply apply_errors] in Hq, Herr;
      try discriminate;
      destruct k as [|k]; try discriminate;
      cbn [nth_error] in Herr; try (now destruct k).
    1:{ injection Herr as <-. cbn in Ha. congruence. }
    all: injection Hq as <-; reflexivity.
Qed.

End AfterPatch.

Lemma forallb_last (A : Type) (f : A -> bool) l x :
  f x = false -> forallb f (l ++ [x]) = false.
Proof.
  intros H. rewrite forallb_app. cbn. rewrite H. apply andb_false_r.
Qed.

(** A run in which every call after a patch went through: the targets
    were all committed, then [getRemote] and the push of every target
    were fulfilled, then came the publishing, and the run ended with the
    report. *)
Lemma run_after_patch (w : World) (url allBranches repo number : string)
      (info : Info) (commits : list CommitData) (pre post : Trace)
      (path cwd : string) (err : option string) :
  fetched w url repo number info commits ->
  main (handler w url allBranches) = pre ++ EApply path cwd err :: post ->
  applied err = true ->
  forallb went_through post = true ->
  exists d' q cl,
    targets_run w repo number info commits (split_spaces allBranches) d' None
    /\ nth_error (apply_errors d') (length (apply_errors pre)) = Some err
    /\ post
       = q ++ [EGetRemote "origin" (Ok tt)]
           ++ map (push_ok number info) (split_spaces allBranches)
           ++ [EPublish
                 (map fst
                    (published w number (split_spaces allBranches) info
                       commits
                       (prelude repo number info commits
                          ++ pushed w repo number (split_spaces allBranches)
                               info d'
                               (length (split_spaces allBranches)))))]
           ++ cl
    /\ outcome (handler w url allBranches)
       = Sent ("Backported pull request #" ++ number ++ " to "
                 ++ join ", " (split_spaces allBranches)).
Proof.
  intros Hf Hm Ha Hall.
  assert (Hq := after_apply_split pre path cwd err post).
  rewrite <- Hm in Hq.
  assert (Herr : nth_error (apply_errors (main (handler w url allBranches)))
                           (length (apply_errors pre)) = Some err).
  { rewrite Hm, apply_errors_app. cbn [apply_errors].
    rewrite nth_error_app2, Nat.sub_diag by lia. reflexivity. }
  destruct (includes (split_spaces allBranches) (base_ref info)) eqn:Hb.
  { destruct (@handler_invalid w url allBranches repo number info commits
                Hf (or_introl Hb)) as (Hmain & _).
    rewrite Hmain in Hq. discriminate Hq. }
  destruct (merged info) eqn:Hmg.
  2:{ destruct (@handler_invalid w url allBranches repo number info commits
                  Hf (or_intror Hmg)) as (Hmain & _).
      rewrite Hmain in Hq. discriminate Hq. }
  destruct (@handler_valid w url allBranches repo number info commits
              Hf Hb Hmg) as (d & res & Hmain & Hc & Ho & _).
  rewrite Hmain in Hq, Herr. clear Hm Hmain.
  cbn [prelude app after_apply apply_errors] in Hq, Herr.
  set (k := length (apply_errors pre)) in *.
  inversion Hc as [e1 Ed Er|e1 Ed Er|d' e1 Ht Ed Er|d' e1 Ht Ed Er
                  |d' k' t e1 Ht Hk Ed Er|d' e1 Ht h Hp Ed Er
                  |d' cl Ht h Hp Hcl Hcl' Ed Er]; subst d res;
    unfold pushed, opened in Hq, Herr;
    cbn [app after_apply apply_errors] in Hq, Herr;
    try discriminate.
  - rewrite (targets_fail_after Ht _ Hq Herr Ha) in Hall. discriminate.
  - exfalso. rewrite apply_errors_app in Herr. cbn in Herr.
    rewrite app_nil_r in Herr.
    destruct (after_apply_then _ _ _ Herr Hq) as [q ->].
    rewrite forallb_last in Hall; [discriminate|reflexivity].
  - exfalso. rewrite <- app_assoc in Hq, Herr. cbn [app] in Hq, Herr.
    assert (He : nth_error (apply_errors d') k = Some err).
    { rewrite apply_errors_app in Herr. cbn [apply_errors] in Herr.
      rewrite apply_errors_app, apply_errors_pushes in Herr.
      cbn in Herr. now rewrite app_nil_r in Herr. }
    destruct (after_apply_then _ _ _ He Hq) as [q ->].
    rewrite forallb_app in Hall. apply andb_true_iff in Hall.
    destruct Hall as [_ Hall].
    change (EGetRemote "origin" (Ok tt)
              :: map (push_ok number info) (firstn k' (split_spaces allBranches))
              ++ [EPush (refspec (branch_of number info t)) (Fail e1)])
      with ((EGetRemote "origin" (Ok tt)
               :: map (push_ok number info)
                      (firstn k' (split_spaces allBranches)))
              ++ [EPush (refspec (branch_of number info t)) (Fail e1)])
      in Hall.
    rewrite forallb_last in Hall; [discriminate|reflexivity].
  - exfalso. rewrite <- app_assoc in Hq, Herr. cbn [app] in Hq, Herr.
    assert (He : nth_error (apply_errors d') k = Some err).
    { rewrite apply_errors_app in Herr. cbn [apply_errors] in Herr.
      rewrite apply_errors_app, apply_errors_pushes in Herr.
      cbn in Herr. now rewrite app_nil_r in Herr. }
    destruct (after_apply_then _ _ _ He Hq) as [q ->].
    rewrite forallb_app in Hall. apply andb_true_iff in Hall.
    destruct Hall as [_ Hall].
    match type of Hall with
    | forallb _ (?x :: ?l ++ [?p]) = true =>
        change (x :: l ++ [p]) with ((x :: l) ++ [p]) in Hall
    end.
    rewrite forallb_last in Hall; [discriminate|].
    cbn [went_through]. unfold published.
    destruct (all_fulfilled _) eqn:Ef; [|reflexivity].
    apply publishFrom_all_fulfilled in Ef. fold h in Ef.
    unfold published in Hp. congruence.
  - rewrite <- app_assoc in Hq, Herr. cbn [app] in Hq, Herr.
    assert (Ecl : apply_errors cl = [])
      by (destruct Hcl as [->|[p ->]]; reflexivity).
    assert (He : nth_error (apply_errors d') k = Some err).
    { rewrite apply_errors_app in Herr. cbn [apply_errors] in Herr.
      rewrite apply_errors_app, apply_errors_pushes in Herr.
      cbn [apply_errors app] in Herr. rewrite Ecl in Herr.
      now rewrite app_nil_r in Herr. }
    destruct (after_apply_then _ _ _ He Hq) as [q ->].
    exists d', q, cl. rewrite firstn_all.
    split; [exact Ht|]. split; [exact He|]. split; [reflexivity|exact Ho].
Qed.

(** C4. A [git apply] that reports an error [m] is the patch of a target
    [t], on the branch just created and checked out for it.  When [m] is
    the conflict report, [t] is recorded in [branchesWithConflicts] and
    processing continues: [repo.index()] is called next, and the steps
    up to the commit of [t] follow, each provided the one before was
    fulfilled.  When every call after the patch went through, these
    steps are followed at once by the commit of [t], created with the
    message of [t], the ref of the derived branch of [t] is pushed with
    success, and the run ends with the report.  With any other error no
    call follows, for this target or any other, and the run ends by
    emitting [m]. *)
Theorem patch_conflict_or_abort
        (w : World) (url allBranches repo number : string)
        (info : Info) (commits : list CommitData) (pre post : Trace)
        (path cwd m : string) :
  fetched w url repo number info commits ->
  main (handler w url allBranches) = pre ++ EApply path cwd (Some m) :: post ->
  exists t c pre',
    nth_error (split_spaces allBranches) (length (apply_errors pre)) = Some t
    /\ pre = pre' ++ checked_out number info t c
    /\ (CONFLICTS_REGEX_test m = true ->
        In t (branchesWithConflicts (final (handler w url allBranches)))
        /\ (exists ri post', post = EIndex ri :: post')
        /\ proceeds_to_commit number commits t post
        /\ (forallb went_through post = true ->
            (exists sg tree parent oid rest,
               post
               = [ EIndex (Ok tt); EAddAll "." (Ok tt); EIndexWrite (Ok tt);
                   EWriteTree (Ok tree); EGetHeadCommit (Ok parent);
                   EGetSignature (Ok sg) ]
                   ++ ECreateCommit "HEAD" sg sg
                        (commitMessage number t (baseCommitMessage commits))
                        tree [parent] (Ok oid)
                   :: rest)
            /\ In (EPush (refspec (backportBranchName number (head_ref info)
                                                       t))
                         (Ok tt))
                  post
            /\ outcome (handler w url allBranches)
               = Sent ("Backported pull request #" ++ number ++ " to "
                         ++ join ", " (split_spaces allBranches))))
    /\ (CONFLICTS_REGEX_test m = false ->
        post = [] /\ outcome (handler w url allBranches) = Emitted m).
Proof.
  intros Hf Hm.
  destruct (@patch_handled_at w url allBranches repo number info commits
              pre post path cwd m Hf Hm)
    as (t & c & pre' & Hn & Hp & Hyes & Hno).
  exists t, c, pre'. split; [exact Hn|]. split; [exact Hp|].
  split; [|exact Hno].
  intros Hc. destruct (Hyes Hc) as [Hin Hidx].
  split; [exact Hin|]. split; [exact Hidx|].
  assert (Ha : applied (Some m) = true) by exact Hc.
  destruct (always_split _ _ (proceeds_always allBranches Hf) _ _ _ Hm
                         _ _ _ eq_refl Ha) as (t' & Hn' & Hpr).
  cbn [app] in Hn'.
  assert (Et : t' = t) by congruence. subst t'.
  split; [exact Hpr|]. intros Hall.
  split.
  { destruct (@proceeds_commits number commits t post Hpr Hall)
      as (sg & tree & parent & oid & q1 & q2 & -> & ->).
    now exists sg, tree, parent, oid, q2. }
  destruct (@run_after_patch w url allBranches repo number info commits
              pre post path cwd (Some m) Hf Hm Ha Hall)
    as (d' & q & cl & Ht & He & Hpost & Ho).
  split; [|exact Ho].
  rewrite Hpost, !in_app_iff. right. right. left.
  apply in_map_iff. exists t. split; [reflexivity|].
  eapply nth_error_In. exact Hn.
Qed.

Lemma patch_conflict_or_abort_witness :
  (fetched conflict_world sample_url "elastic/kibana" "42" sample_info
           sample_commits
   /\ main (handler conflict_world sample_url sample_targets)
      = firstn 9 (main conflict_run)
          ++ EApply "/tmp/jasper-1" sample_dir (Some conflict_report)
          :: skipn 10 (main conflict_run)
   /\ CONFLICTS_REGEX_test conflict_report = true
   /\ forallb went_through (skipn 10 (main conflict_run)) = true
   /\ main (handler corrupt_world sample_url sample_targets)
      = firstn 9 (main corrupt_run)
          ++ EApply "/tmp/jasper-1" sample_dir
                    (Some "error: corrupt patch at line 7")
          :: skipn 10 (main corrupt_run)
   /\ CONFLICTS_REGEX_test "error: corrupt patch at line 7" = false)
  /\ (In "release-1.0"
         (branchesWithConflicts
            (final (handler conflict_world sample_url sample_targets)))
      /\ (exists sg tree parent oid rest,
            skipn 10 (main conflict_run)
            = [ EIndex (Ok tt); EAddAll "." (Ok tt); EIndexWrite (Ok tt);
                EWriteTree (Ok tree); EGetHeadCommit (Ok parent);
                EGetSignature (Ok sg) ]
                ++ ECreateCommit "HEAD" sg sg
                     (commitMessage "42" "release-1.0"
                                    (baseCommitMessage sample_commits))
                     tree [parent] (Ok oid)
                :: rest)
      /\ In (EPush (refspec (backportBranchName "42" (head_ref sample_info)
                                                 "release-1.0"))
                   (Ok tt))
            (skipn 10 (main conflict_run))
      /\ outcome (handler conflict_world sample_url sample_targets)
         = Sent ("Backported pull request #" ++ "42" ++ " to "
                   ++ join ", " (split_spaces sample_targets)))
  /\ skipn 10 (main corrupt_run) = []
  /\ outcome (handler corrupt_world sample_url sample_targets)
     = Emitted "error: corrupt patch at line 7".
Proof.
  assert (Hm : main (handler conflict_world sample_url sample_targets)
               = firstn 9 (main conflict_run)
                   ++ EApply "/tmp/jasper-1" sample_dir (Some conflict_report)
                   :: skipn 10 (main conflict_run))
    by (vm_compute; reflexivity).
  assert (Hc : CONFLICTS_REGEX_test conflict_report = true)
    by (vm_compute; reflexivity).
  assert (Hall : forallb went_through (skipn 10 (main conflict_run)) = true)
    by (vm_compute; reflexivity).
  assert (Hm' : main (handler corrupt_world sample_url sample_targets)
                = firstn 9 (main corrupt_run)
                    ++ EApply "/tmp/jasper-1" sample_dir
                              (Some "error: corrupt patch at line 7")
                    :: skipn 10 (main corrupt_run))
    by (vm_compute; reflexivity).
  assert (Hc' : CONFLICTS_REGEX_test "error: corrupt patch at line 7" = false)
    by (vm_compute; reflexivity).
  split.
  { split; [repeat split|]. split; [exact Hm|]. split; [exact Hc|].
    split; [exact Hall|]. split; [exact Hm'|exact Hc']. }
  destruct (@patch_conflict_or_abort conflict_world sample_url sample_targets
              "elastic/kibana" "42" sample_info sample_commits _ _ _ _ _
              (conj eq_refl (conj eq_refl eq_refl)) Hm)
    as (t & c & pre' & Hn & _ & Hyes & _).
  vm_compute in Hn. injection Hn as <-.
  destruct (Hyes Hc) as (Hin & _ & _ & Hgo).
  destruct (Hgo Hall) as (Hcommit & Hpush & Ho).
  split; [split; [exact Hin|split; [exact Hcommit|split; [exact Hpush
                                                         |exact Ho]]]|].
  destruct (@patch_conflict_or_abort corrupt_world sample_url sample_targets
              "elastic/kibana" "42" sample_info sample_commits _ _ _ _ _
              (conj eq_refl (conj eq_refl eq_refl)) Hm')
    as (t' & c' & pre'' & _ & _ & _ & Hno).
  exact (Hno Hc').
Defined.

(** C5. A patch that went through, cleanly or with the conflict report,
    is that of the target [t] at the position given by the patches
    before it.  It is followed by [repo.index()] and, each step provided
    the one before was fulfilled, by [index.addAll('.')],
    [index.write()], [index.writeTree()], then [repo.getHeadCommit()]
    with [getSignature()], then [repo.createCommit] with the tree just
    written and the message of [t].  When every call after the patch
    went through, the commit of [t] was created right after these steps,
    and the publishing that follows creates at the position of [t] an
    issue that carries the label ["has conflicts"] when the patch
    reported the conflict and, no target being named twice, only then.
    And in any publishing, the issue of a target carries the label
    exactly when a patch for that target reported the conflict: the
    patch of a position that names the target, which is the position of
    the issue when no target is named twice. *)
Theorem staged_and_labelled
        (w : World) (url allBranches repo number : string)
        (info : Info) (commits : list CommitData) :
  fetched w url repo number info commits ->
  (forall pre path cwd err post,
      main (handler w url allBranches) = pre ++ EApply path cwd err :: post ->
      applied err = true ->
      staged_then post
      /\ exists t,
           nth_error (split_spaces allBranches) (length (apply_errors pre))
           = Some t
           /\ proceeds_to_commit number commits t post
           /\ (forallb went_through post = true ->
               (exists sg tree parent oid rest,
                  post
                  = [ EIndex (Ok tt); EAddAll "." (Ok tt);
                      EIndexWrite (Ok tt); EWriteTree (Ok tree);
                      EGetHeadCommit (Ok parent); EGetSignature (Ok sg) ]
                      ++ ECreateCommit "HEAD" sg sg
                           (commitMessage number t
                                          (baseCommitMessage commits))
                           tree [parent] (Ok oid)
                      :: rest)
               /\ exists per_target params ri then_,
                    In (EPublish per_target) post
                    /\ nth_error per_target (length (apply_errors pre))
                       = Some (PCreateIssue params ri :: then_)
                    /\ (conflicted err = true ->
                        In "has conflicts" (labels params))
                    /\ (NoDup (split_spaces allBranches) ->
                        In "has conflicts" (labels params) ->
                        conflicted err = true)))
  /\ (forall pre per_target post i t params ri then_,
        main (handler w url allBranches) = pre ++ EPublish per_target :: post ->
        nth_error (split_spaces allBranches) i = Some t ->
        nth_error per_target i = Some (PCreateIssue params ri :: then_) ->
        (In "has conflicts" (labels params)
         <-> exists k m,
               nth_error (split_spaces allBranches) k = Some t
               /\ nth_error (apply_errors pre) k = Some (Some m)
               /\ CONFLICTS_REGEX_test m = true)
        /\ (NoDup (split_spaces allBranches) ->
            (In "has conflicts" (labels params)
             <-> exists m,
                   nth_error (apply_errors pre) i = Some (Some m)
                   /\ CONFLICTS_REGEX_test m = true))).
Proof.
  intros Hf.
  destruct (@staged_and_labelled_at w url allBranches repo number info
              commits Hf) as [Hstaged Hlabels].
  split; [|exact Hlabels].
  intros pre path cwd err post Hm Ha.
  split; [exact (Hstaged pre path cwd err post Hm Ha)|].
  destruct (always_split _ _ (proceeds_always allBranches Hf) _ _ _ Hm
                         _ _ _ eq_refl Ha) as (t & Hn & Hpr).
  cbn [app] in Hn.
  exists t. split; [exact Hn|]. split; [exact Hpr|].
  intros Hall. split.
  { destruct (@proceeds_commits number commits t post Hpr Hall)
      as (sg & tree & parent & oid & q1 & q2 & -> & ->).
    now exists sg, tree, parent, oid, q2. }
  destruct (@run_after_patch w url allBranches repo number info commits
              pre post path cwd err Hf Hm Ha Hall)
    as (d' & q & cl & Ht & He & Hpost & Ho).
  set (h := prelude repo number info commits
              ++ pushed w repo number (split_spaces allBranches) info d'
                   (length (split_spaces allBranches))) in *.
  destruct (publish_one_calls w number info commits h
              (marks (split_spaces allBranches) (apply_errors h))
              (0 + length (apply_errors pre)) t)
    as (params & ri & then_ & Hcalls & _).
  assert (Hl := publish_one_labels w number info commits h
                  (marks (split_spaces allBranches) (apply_errors h))
                  (0 + length (apply_errors pre)) t Hcalls).
  assert (Eh : apply_errors h = apply_errors d').
  { unfold h. apply apply_errors_before. }
  rewrite Eh in Hl.
  exists (map fst (published w number (split_spaces allBranches) info commits
                     h)), params, ri, then_.
  split.
  { rewrite Hpost, !in_app_iff. right. right. right. left. now left. }
  split.
  { unfold published. erewrite publishFrom_nth by exact Hn.
    now rewrite Hcalls. }
  split.
  - intros Hcf. apply Hl. destruct err as [m|]; [|discriminate].
    eapply marks_In; [exact Hn|exact He|exact Hcf].
  - intros Hnd Hin. apply Hl in Hin.
    apply marks_In_inv in Hin. destruct Hin as (k & m & Hk & Hek & Hc).
    rewrite NoDup_nth_error in Hnd.
    assert (E : k = length (apply_errors pre)).
    { apply Hnd; [|congruence]. apply nth_error_Some. congruence. }
    subst k. assert (E : err = Some m) by congruence. subst err. exact Hc.
Qed.

Lemma staged_and_labelled_witness :
  (fetched conflict_world sample_url "elastic/kibana" "42" sample_info
           sample_commits
   /\ main (handler conflict_world sample_url sample_targets)
      = firstn 9 (main conflict_run)
          ++ EApply "/tmp/jasper-1" sample_dir (Some conflict_report)
          :: skipn 10 (main conflict_run)
   /\ applied (Some conflict_report) = true
   /\ forallb went_through (skipn 10 (main conflict_run)) = true
   /\ main (handler conflict_world sample_url sample_targets)
      = firstn 31 (main conflict_run)
          ++ EPublish
               (map fst
                  (published conflict_world "42"
                     (split_spaces sample_targets) sample_info sample_commits
                     (firstn 31 (main conflict_run))))
          :: skipn 32 (main conflict_run)
   /\ nth_error
        (map fst
           (published conflict_world "42" (split_spaces sample_targets)
              sample_info sample_commits (firstn 31 (main conflict_run))))
        1
      = Some [ PCreateIssue
                 (mkIssueParams
                    "[backport] PR #42 to release-2.0"
                    (commitMessage "42" "release-2.0"
                                   (baseCommitMessage sample_commits))
                    "alice" ["backport"])
                 (Ok 101);
               PCreatePullRequest
                 (mkPullParams 101 "jasper/backport/42-release-2.0-feature-x"
                               "release-2.0")
                 (Ok tt) ])
  /\ proceeds_to_commit "42" sample_commits "release-1.0"
                        (skipn 10 (main conflict_run))
  /\ (exists per_target params ri then_,
        In (EPublish per_target) (skipn 10 (main conflict_run))
        /\ nth_error per_target 0 = Some (PCreateIssue params ri :: then_)
        /\ In "has conflicts" (labels params))
  /\ ~ (exists k m,
          nth_error (split_spaces sample_targets) k = Some "release-2.0"
          /\ nth_error (apply_errors (firstn 31 (main conflict_run))) k
             = Some (Some m)
          /\ CONFLICTS_REGEX_test m = true)
  /\ ~ In "has conflicts"
          (labels (mkIssueParams
                     "[backport] PR #42 to release-2.0"
                     (commitMessage "42" "release-2.0"
                                    (baseCommitMessage sample_commits))
                     "alice" ["backport"])).
Proof.
  assert (Hm : main (handler conflict_world sample_url sample_targets)
               = firstn 9 (main conflict_run)
                   ++ EApply "/tmp/jasper-1" sample_dir (Some conflict_report)
                   :: skipn 10 (main conflict_run))
    by (vm_compute; reflexivity).
  assert (Ha : applied (Some conflict_report) = true)
    by (vm_compute; reflexivity).
  assert (Hall : forallb went_through (skipn 10 (main conflict_run)) = true)
    by (vm_compute; reflexivity).
  assert (Hp : main (handler conflict_world sample_url sample_targets)
               = firstn 31 (main conflict_run)
                   ++ EPublish
                        (map fst
                           (published conflict_world "42"
                              (split_spaces sample_targets) sample_info
                              sample_commits
                              (firstn 31 (main conflict_run))))
                   :: skipn 32 (main conflict_run))
    by (vm_compute; reflexivity).
  assert (Hi : nth_error
                 (map fst
                    (published conflict_world "42"
                       (split_spaces sample_targets) sample_info
                       sample_commits (firstn 31 (main conflict_run))))
                 1
               = Some [ PCreateIssue
                          (mkIssueParams
                             "[backport] PR #42 to release-2.0"
                             (commitMessage "42" "release-2.0"
                                            (baseCommitMessage sample_commits))
                             "alice" ["backport"])
                          (Ok 101);
                        PCreatePullRequest
                          (mkPullParams
                             101 "jasper/backport/42-release-2.0-feature-x"
                             "release-2.0")
                          (Ok tt) ])
    by (vm_compute; reflexivity).
  assert (Hclean : ~ (exists k m,
                        nth_error (split_spaces sample_targets) k
                        = Some "release-2.0"
                        /\ nth_error
                             (apply_errors (firstn 31 (main conflict_run))) k
                           = Some (Some m)
                        /\ CONFLICTS_REGEX_test m = true)).
  { intros (k & m & Hk & He & _).
    destruct k as [|[|k]].
    - vm_compute in Hk. discriminate Hk.
    - vm_compute in He. discriminate He.
    - vm_compute in Hk. destruct k; discriminate Hk. }
  split.
  { split; [repeat split|]. split; [exact Hm|]. split; [exact Ha|].
    split; [exact Hall|]. split; [exact Hp|exact Hi]. }
  destruct (@staged_and_labelled conflict_world sample_url sample_targets
              "elastic/kibana" "42" sample_info sample_commits
              (conj eq_refl (conj eq_refl eq_refl)))
    as [Hpatch Hlabels].
  destruct (Hpatch _ _ _ _ _ Hm Ha) as (_ & t & Hn & Hpr & Hgo).
  vm_compute in Hn. injection Hn as <-.
  split; [exact Hpr|].
  destruct (Hgo Hall)
    as (_ & per_target & params & ri & then_ & Hin & Hnth & Hyes & _).
  split.
  { exists per_target, params, ri, then_.
    split; [exact Hin|]. split; [exact Hnth|]. apply Hyes. exact Ha. }
  split; [exact Hclean|].
  intros Hl.
  apply Hclean.
  exact (proj1 (proj1 (Hlabels _ _ _ 1 "release-2.0" _ _ _ Hp eq_refl Hi))
               Hl).
Defined.
